(** * BlockSci core: memory-mapped record stores

    A shallow embedding of
      - [include/blocksci/core/file_mapper.hpp]
        ([ArbitraryLengthData], [SimpleFileMapper], [FixedSizeFileMapper],
        [IndexedFileMapper]),
      - [include/blocksci/core/raw_block.hpp] ([RawBlock::operator==]),
      - [src/python-interface/blockchain_py.cpp] (the integer [__getitem__]),
    together with the properties of these functions.

    Conventions.  [OffsetType] ([int64_t]) and [size_t] values are integers
    of [Z]; a conversion between the two is written out ([u64], [i64]).
    Memory (the mapped file, the write buffer, a builder's [rawData]) is a
    [list byte].  A call that trips an [assert], reads or writes outside
    the object a pointer points into, or throws, returns [Fail]. *)

From Stdlib Require Import ZArith List Lia Bool.
From Stdlib Require Import Strings.Byte.
Import ListNotations.
Local Open Scope Z_scope.

(** ** Machine integers *)

Definition two64 : Z := 2 ^ 64.
Definition two63 : Z := 2 ^ 63.

(** Conversion to [size_t] / [uint64_t]. *)
Definition u64 (z : Z) : Z := z mod two64.

(** Conversion to [int64_t] (two's complement). *)
Definition i64 (z : Z) : Z := (z + two63) mod two64 - two63.

(** [using OffsetType = int64_t;
    constexpr OffsetType InvalidFileIndex = std::numeric_limits<OffsetType>::max();] *)
Definition InvalidFileIndex : Z := two63 - 1.

(** A value of type [OffsetType]. *)
Definition is_offset (z : Z) : Prop := - two63 <= z <= InvalidFileIndex.

(** [Zlength]-style size of a [std::vector<char>] or of a mapping. *)
Definition zlen {A} (l : list A) : Z := Z.of_nat (length l).

(** ** Outcomes *)

Inductive fault : Type :=
| AssertionFailed   (* an [assert] does not hold *)
| OutOfBounds       (* access outside the object pointed into *)
| NullDereference   (* access through [nullptr] *)
| DivisionByZero    (* [%] with a zero divisor *)
| IndexError        (* [throw py::index_error()] *)
| MapFailed.        (* [throw error] of [openFile()] *)

Inductive result (A : Type) : Type :=
| Ret (a : A)
| Fail (f : fault).
Arguments Ret {A} a.
Arguments Fail {A} f.

Definition bind {A B} (m : result A) (k : A -> result B) : result B :=
  match m with
  | Ret a => k a
  | Fail f => Fail f
  end.

Notation "x <- m ;; k" := (bind m (fun x => k))
  (at level 61, m at next level, right associativity).
Notation "m ;;; k" := (bind m (fun _ => k))
  (at level 61, right associativity).

(** [assert(c)] *)
Definition assert (c : bool) : result unit :=
  if c then Ret tt else Fail AssertionFailed.

(** ** [raw_block.hpp] *)

Module RawBlock.

(** [uint256] is a 256-bit unsigned integer whose [operator==] compares
    the 32 bytes of its value. *)
Definition uint256 : Type := Z.

Record RawBlock : Type := mkRawBlock {
  hash : uint256;
  coinbaseOffset : Z;   (* uint64_t *)
  firstTxIndex : Z;     (* uint32_t *)
  txCount : Z;          (* uint32_t *)
  inputCount : Z;       (* uint32_t *)
  outputCount : Z;      (* uint32_t *)
  height : Z;           (* uint32_t *)
  version : Z;          (* int32_t  *)
  timestamp : Z;        (* uint32_t *)
  bits : Z;             (* uint32_t *)
  nonce : Z;            (* uint32_t *)
  realSize : Z;         (* uint32_t *)
  baseSize : Z          (* uint32_t *)
}.

(** [bool operator==(const RawBlock& other) const] *)
Definition operator_eq (this other : RawBlock) : bool :=
  (firstTxIndex this =? firstTxIndex other)
  && (txCount this =? txCount other)
  && (inputCount this =? inputCount other)
  && (outputCount this =? outputCount other)
  && (height this =? height other)
  && (hash this =? hash other)
  && (version this =? version other)
  && (timestamp this =? timestamp other)
  && (bits this =? bits other)
  && (nonce this =? nonce other)
  && (coinbaseOffset this =? coinbaseOffset other).

(** The eleven fields the claim lists. *)
Definition agree (a b : RawBlock) : Prop :=
  hash a = hash b /\ coinbaseOffset a = coinbaseOffset b
  /\ firstTxIndex a = firstTxIndex b /\ txCount a = txCount b
  /\ inputCount a = inputCount b /\ outputCount a = outputCount b
  /\ height a = height b /\ version a = version b
  /\ timestamp a = timestamp b /\ bits a = bits b /\ nonce a = nonce b.

(** The same block with other [realSize] and [baseSize]. *)
Definition with_sizes (a : RawBlock) (rs bs : Z) : RawBlock :=
  mkRawBlock (hash a) (coinbaseOffset a) (firstTxIndex a) (txCount a)
    (inputCount a) (outputCount a) (height a) (version a) (timestamp a)
    (bits a) (nonce a) rs bs.

End RawBlock.

(** ** [blockchain_py.cpp]: [__getitem__] with an integer index *)

Module BlockchainPy.
Section Getitem.

(** [Blockchain] and [Block] are declared outside the sources at hand.
    A chain is the sequence of its blocks by height; [chain.size()] is
    the number of blocks, of an integer type that the usual arithmetic
    conversions widen to [int64_t] next to [int64_t i] (the remainder in
    the lambda is then the signed, truncating one); [chain[i]] is the
    block of height [i]. *)
Variable Block : Type.

Definition size (chain : list Block) : Z := zlen chain.

Definition operator_index (chain : list Block) (i : Z) : result Block :=
  if i <? 0 then Fail OutOfBounds
  else match nth_error chain (Z.to_nat i) with
       | Some b => Ret b
       | None => Fail OutOfBounds
       end.

(** The index after [if (i < 0) { i = (chain.size() + i) % chain.size(); }] *)
Definition remap (chain : list Block) (i : Z) : result Z :=
  if i <? 0 then
    if size chain =? 0 then Fail DivisionByZero
    else Ret (Z.rem (size chain + i) (size chain))
  else Ret i.

(** [[](const Blockchain &chain, int64_t i) { ... return chain[i]; }] *)
Definition getitem (chain : list Block) (i : Z) : result Block :=
  i <- remap chain i ;;
  let posIndex := u64 i in
  if posIndex >=? size chain then Fail IndexError
  else operator_index chain i.

End Getitem.
End BlockchainPy.

(** ** [ArbitraryLengthData<MainType>] *)

Module ArbitraryLengthData.
Section Builder.

(** [alignof(MainType)] *)
Variable alignofMain : Z.

Record ArbitraryLengthData : Type := mk { rawData : list byte }.

(** [template <typename T> void add(const T &t)], [t] given by its
    object representation. *)
Definition add (d : ArbitraryLengthData) (t : list byte) : ArbitraryLengthData :=
  mk (rawData d ++ t).

(** [template <typename It> void add(It begin, It end)] *)
Fixpoint add_range (d : ArbitraryLengthData) (ts : list (list byte)) : ArbitraryLengthData :=
  match ts with
  | [] => d
  | t :: ts' => add_range (add d t) ts'
  end.

(** [explicit ArbitraryLengthData(const MainType &head)] *)
Definition make (head : list byte) : ArbitraryLengthData := add (mk []) head.

(** [OffsetType size() const]:
    [static_cast<OffsetType>(rawData.size())] *)
Definition size (d : ArbitraryLengthData) : Z := i64 (zlen (rawData d)).

(** [for (size_t i = 0; i < count; i++) rawData.push_back(0);] *)
Fixpoint push_zeros (count : nat) (raw : list byte) : list byte :=
  match count with
  | O => raw
  | S count' => push_zeros count' (raw ++ [x00])
  end.

(** [const char *finalize()]: the builder afterwards, and the bytes the
    returned pointer [rawData.data()] views. *)
Definition finalize (d : ArbitraryLengthData) : list byte * ArbitraryLengthData :=
  let charsToAdd := zlen (rawData d) mod alignofMain in
  let raw :=
    if 0 <? charsToAdd
    then push_zeros (Z.to_nat (alignofMain - charsToAdd)) (rawData d)
    else rawData d in
  (raw, mk raw).

End Builder.
End ArbitraryLengthData.

(** ** Memory *)

(** What a [char *] into a mapper can be: [nullptr], the address of byte
    [off] of the mapping ([&file[off]]), or the address of byte [off] of
    the write buffer ([buffer.data() + off]). *)
Inductive ptr : Type :=
| nullptr
| in_file (off : Z)
| in_buffer (off : Z).

(** [ptr + n] *)
Definition ptr_add (p : ptr) (n : Z) : ptr :=
  match p with
  | nullptr => nullptr
  | in_file off => in_file (off + n)
  | in_buffer off => in_buffer (off + n)
  end.

(** The [n] bytes of [mem] from position [off] on. *)
Definition slice (mem : list byte) (off n : Z) : result (list byte) :=
  if (0 <=? off) && (0 <=? n) && (off + n <=? zlen mem)
  then Ret (firstn (Z.to_nat n) (skipn (Z.to_nat off) mem))
  else Fail OutOfBounds.

(** [mem] with [data] copied over the bytes from position [off] on. *)
Definition overwrite (mem : list byte) (off : Z) (data : list byte) : result (list byte) :=
  if (0 <=? off) && (off + zlen data <=? zlen mem)
  then Ret (firstn (Z.to_nat off) mem ++ data
            ++ skipn (Z.to_nat (off + zlen data)) mem)
  else Fail OutOfBounds.

(** ** [SimpleFileMapperBase<mode>] and [SimpleFileMapper<read>] *)

Module SimpleFileMapperBase.

(** [mio::basic_mmap<mode, char> file]: the bytes of the mapping.  [mio]
    is a library outside the sources at hand; its [file.size()] and
    [file.length()] are the length of the mapping, of type [size_t], and
    [file[i]] takes a [size_t].  A comparison or a sum of an [OffsetType]
    with [file.size()] is therefore carried out in [size_t]. *)
Record t : Type := mk { file : list byte }.

(** [SimpleFileMapperBase(const std::string &path_)] with [openFile()]:
    [file.map(fileInfo.path, 0, mio::map_entire_file, error)], and
    [throw error] when it fails.  What is at the path is [None] when there
    is no file and [Some bytes] for a file holding [bytes]; [mio] fails
    to map a missing file and a file of no bytes. *)
Definition construct (onDisk : option (list byte)) : result t :=
  match onDisk with
  | Some (b :: bytes) => Ret (mk (b :: bytes))
  | Some [] | None => Fail MapFailed
  end.

(** [OffsetType size() const { return file.length(); }] *)
Definition size (m : t) : Z := i64 (zlen (file m)).

(** [const char *getDataAtOffset(OffsetType offset) const] *)
Definition getDataAtOffset (m : t) (offset : Z) : result ptr :=
  if offset =? InvalidFileIndex then Ret nullptr
  else
    assert (offset <? size m) ;;;
    Ret (in_file (u64 offset)).

(** Reading [n] bytes through a pointer. *)
Definition load (m : t) (p : ptr) (n : Z) : result (list byte) :=
  match p with
  | nullptr => Fail NullDereference
  | in_file off => slice (file m) off n
  | in_buffer _ => Fail OutOfBounds
  end.

End SimpleFileMapperBase.

(** ** [SimpleFileMapper<mio::access_mode::write>] *)

Module SimpleFileMapper.

(** [static constexpr size_t maxBufferSize = 50000000;] *)
Definition maxBufferSize : Z := 50000000.

Record t : Type := mk {
  file : list byte;      (* inherited from [SimpleFileMapperBase] *)
  buffer : list byte;    (* [std::vector<char> buffer] *)
  writePos : Z           (* [OffsetType writePos] *)
}.

(** The store that [SimpleFileMapper(path)] leaves once the base class has
    mapped a file holding [bytes]: an empty buffer and [writePos(size())].
    The mapping itself can fail, see [construct]: [open bytes] is a store
    of the program for the [bytes] of a file that [mio] maps. *)
Definition open (bytes : list byte) : t :=
  mk bytes [] (i64 (zlen bytes) + i64 (zlen (@nil byte))).

(** [SimpleFileMapper(const std::string &path)
       : SimpleFileMapperBase(path), writePos(size()) {}] *)
Definition construct (onDisk : option (list byte)) : result t :=
  base <- SimpleFileMapperBase.construct onDisk ;;
  Ret (open (SimpleFileMapperBase.file base)).

(** [char *getWritePos()] *)
Definition getWritePos (m : t) : ptr :=
  let fileEnd := zlen (file m) in
  if u64 (writePos m) <? fileEnd then in_file (u64 (writePos m))
  else if u64 (writePos m) <? u64 (fileEnd + i64 (zlen (buffer m)))
  then in_buffer (u64 (writePos m - fileEnd))
  else nullptr.

(** [OffsetType writeSpace() const] *)
Definition writeSpace (m : t) : Z :=
  let fileEnd := zlen (file m) in
  if u64 (writePos m) <? fileEnd then i64 (fileEnd - writePos m)
  else if u64 (writePos m) <? u64 (fileEnd + i64 (zlen (buffer m)))
  then i64 ((writePos m - fileEnd) - i64 (zlen (buffer m)))
  else 0.

(** [OffsetType getWriteOffset() const] *)
Definition getWriteOffset (m : t) : Z := writePos m.

(** [memcpy(dst, src, n)] with [dst] a pointer into the mapper and [src]
    the position [valuePos] of the caller's bytes [value]. *)
Definition memcpy (m : t) (dst : ptr) (value : list byte) (valuePos n : Z) : result t :=
  data <- slice value valuePos n ;;
  match dst with
  | nullptr => Fail NullDereference
  | in_file off =>
      file' <- overwrite (file m) off data ;;
      Ret (mk file' (buffer m) (writePos m))
  | in_buffer off =>
      buffer' <- overwrite (buffer m) off data ;;
      Ret (mk (file m) buffer' (writePos m))
  end.

(** [writePos += writeAmount] *)
Definition advance (m : t) (writeAmount : Z) : t :=
  mk (file m) (buffer m) (writePos m + writeAmount).

(** Modelled from the spec: [void clearBuffer()] is declared in
    [file_mapper.hpp] and defined outside the sources at hand.  "flush():
    grows the on-disk file by the buffer's length, copies buffer into the
    newly mapped tail, then clears the buffer and remaps.  Post-condition:
    buffer is empty; mapped size equals pre-flush logical size." *)
Definition clearBuffer (m : t) : t :=
  mk (file m ++ buffer m) [] (writePos m).

Section Write.

(** The threshold [maxBufferSize] of the class; the functions below take
    it as an argument, so that they can be run with a small one. *)
Variable maxBuf : Z.

(** Lines 242-250 of [write]: extend the buffer, flush past the
    threshold. *)
Definition write_extend (fileEnd : Z) (m : t) (value : list byte)
    (valuePos amountToWrite : Z) : result (bool * t) :=
  assert (u64 (writePos m) =? u64 (fileEnd + zlen (buffer m))) ;;;
  data <- slice value valuePos amountToWrite ;;
  let m1 := mk (file m) (buffer m ++ data) (writePos m + amountToWrite) in
  let bufferFull := maxBuf <? zlen (buffer m1) in
  Ret (bufferFull, if bufferFull then clearBuffer m1 else m1).

(** Lines 230-240 of [write], then the rest. *)
Definition write_buffer (fileEnd : Z) (m : t) (value : list byte)
    (valuePos amountToWrite : Z) : result (bool * t) :=
  if (u64 (writePos m) >=? fileEnd) && (writePos m <? i64 (zlen (buffer m)))
  then
    let writeAmount := Z.min amountToWrite (writeSpace m) in
    m1 <- memcpy m (getWritePos m) value valuePos (u64 writeAmount) ;;
    let amountToWrite := amountToWrite - writeAmount in
    let m2 := advance m1 writeAmount in
    let valuePos := valuePos + writeAmount in
    if amountToWrite =? 0 then Ret (false, m2)
    else write_extend fileEnd m2 value valuePos amountToWrite
  else write_extend fileEnd m value valuePos amountToWrite.

(** [bool write(const char *valuePos, OffsetType amountToWrite)], the
    source bytes being [value] from position [valuePos] on. *)
Definition write_from (m : t) (value : list byte)
    (valuePos amountToWrite : Z) : result (bool * t) :=
  let fileEnd := zlen (file m) in
  if u64 (writePos m) <? fileEnd then
    let writeAmount := Z.min amountToWrite (writeSpace m) in
    assert (0 <? writeAmount) ;;;
    m1 <- memcpy m (getWritePos m) value valuePos (u64 writeAmount) ;;
    let amountToWrite := amountToWrite - writeAmount in
    let m2 := advance m1 writeAmount in
    let valuePos := valuePos + writeAmount in
    if amountToWrite =? 0 then Ret (false, m2)
    else write_buffer fileEnd m2 value valuePos amountToWrite
  else write_buffer fileEnd m value valuePos amountToWrite.

(** [write] on all of [value]: [write(value.data(), value.size())], which
    is also [template<typename T> bool write(const T &t)] on the object
    representation of [t]. *)
Definition write (m : t) (value : list byte) : result (bool * t) :=
  write_from m value 0 (zlen value).

End Write.

(** [const char *getDataAtOffset(OffsetType offset) const] and its
    non-const twin, which have the same body. *)
Definition getDataAtOffset (m : t) (offset : Z) : result ptr :=
  let fileEnd := zlen (file m) in
  assert ((u64 offset <? u64 (fileEnd + zlen (buffer m)))
          || (offset =? InvalidFileIndex)) ;;;
  if offset =? InvalidFileIndex then Ret nullptr
  else if u64 offset <? fileEnd then Ret (in_file (u64 offset))
  else Ret (in_buffer (u64 (offset - fileEnd))).

(** [OffsetType size() const] *)
Definition size (m : t) : Z :=
  i64 (zlen (file m)) + i64 (zlen (buffer m)).

(** [void seekEnd()] *)
Definition seekEnd (m : t) : t :=
  mk (file m) (buffer m) (i64 (zlen (file m) + i64 (zlen (buffer m)))).

(** [void seek(OffsetType offset)] *)
Definition seek (m : t) (offset : Z) : t :=
  mk (file m) (buffer m) offset.

(** [void reload() { clearBuffer(); }] *)
Definition reload (m : t) : t := clearBuffer m.

(** The file resized to [offset] bytes, new bytes zero. *)
Definition resize (bytes : list byte) (offset : Z) : list byte :=
  firstn (Z.to_nat offset) bytes
  ++ repeat x00 (Z.to_nat offset - length bytes).

(** Modelled from the spec: [void truncate(OffsetType offset)] is declared
    in [file_mapper.hpp] and defined outside the sources at hand.
    "truncate(o): flushes, then shrinks the on-disk file to o bytes and
    remaps.  If o > current mapped size, extends with zero bytes.  The
    cursor is clamped to [0, o]." *)
Definition truncate (m : t) (offset : Z) : t :=
  let m1 := clearBuffer m in
  mk (resize (file m1) offset) [] (Z.max 0 (Z.min (writePos m1) offset)).

(** Reading [n] bytes through a pointer. *)
Definition load (m : t) (p : ptr) (n : Z) : result (list byte) :=
  match p with
  | nullptr => Fail NullDereference
  | in_file off => slice (file m) off n
  | in_buffer off => slice (buffer m) off n
  end.

(** Writing [data] through a pointer. *)
Definition store (m : t) (p : ptr) (data : list byte) : result t :=
  match p with
  | nullptr => Fail NullDereference
  | in_file off =>
      file' <- overwrite (file m) off data ;;
      Ret (mk file' (buffer m) (writePos m))
  | in_buffer off =>
      buffer' <- overwrite (buffer m) off data ;;
      Ret (mk (file m) buffer' (writePos m))
  end.

End SimpleFileMapper.

(** ** The [mode] template parameter *)

Module mio.
Inductive access_mode : Type := read | write.
End mio.

(** [SimpleFileMapper<mode>] *)
Definition mapper (mode : mio.access_mode) : Type :=
  match mode with
  | mio.read => SimpleFileMapperBase.t
  | mio.write => SimpleFileMapper.t
  end.

Module Mapper.

Definition size {mode} : mapper mode -> Z :=
  match mode with
  | mio.read => SimpleFileMapperBase.size
  | mio.write => SimpleFileMapper.size
  end.

Definition getDataAtOffset {mode} : mapper mode -> Z -> result ptr :=
  match mode with
  | mio.read => SimpleFileMapperBase.getDataAtOffset
  | mio.write => SimpleFileMapper.getDataAtOffset
  end.

Definition load {mode} : mapper mode -> ptr -> Z -> result (list byte) :=
  match mode with
  | mio.read => SimpleFileMapperBase.load
  | mio.write => SimpleFileMapper.load
  end.

End Mapper.

(** ** [FixedSizeFileMapper<T, mode>] *)

Module FixedSizeFileMapper.

Record t (mode : mio.access_mode) : Type := mk { dataFile : mapper mode }.
Arguments mk {mode} dataFile.
Arguments dataFile {mode} _.

Section Fixed.

(** [sizeof(T)]; a [T] is given by its object representation, a list
    of [sizeof(T)] bytes. *)
Variable sizeofT : Z.

(** [OffsetType getPos(OffsetType index) const] *)
Definition getPos (index : Z) : Z := index * sizeofT.

(** [OffsetType size() const] *)
Definition size {mode} (m : t mode) : Z :=
  let unitSize := sizeofT in
  Z.quot (Mapper.size (dataFile m)) unitSize.

(** [const_pointer operator[](OffsetType index) const] and the non-const
    one, with the same body. *)
Definition operator_index {mode} (m : t mode) (index : Z) : result ptr :=
  assert (index <? size m) ;;;
  Mapper.getDataAtOffset (dataFile m) (getPos index).

(** [getDataAtIndex(index)] returns [this->operator[](index)]. *)
Definition getDataAtIndex {mode} (m : t mode) (index : Z) : result ptr :=
  operator_index m index.

(** The element at [index]: the object representation of the element read through
    the pointer that [operator[]] returns. *)
Definition read {mode} (m : t mode) (index : Z) : result (list byte) :=
  p <- operator_index m index ;;
  Mapper.load (dataFile m) p sizeofT.

(** [void seekEnd()] *)
Definition seekEnd (m : t mio.write) : t mio.write :=
  mk (mode := mio.write) (SimpleFileMapper.seekEnd (dataFile m)).

(** [void seek(OffsetType index)] *)
Definition seek (m : t mio.write) (index : Z) : t mio.write :=
  mk (mode := mio.write) (SimpleFileMapper.seek (dataFile m) (getPos index)).

(** [void reload()] in write mode *)
Definition reload (m : t mio.write) : t mio.write :=
  mk (mode := mio.write) (SimpleFileMapper.reload (dataFile m)).

(** [void clearBuffer()] *)
Definition clearBuffer (m : t mio.write) : t mio.write :=
  mk (mode := mio.write) (SimpleFileMapper.clearBuffer (dataFile m)).

(** [void truncate(OffsetType index)] *)
Definition truncate (m : t mio.write) (index : Z) : t mio.write :=
  mk (mode := mio.write) (SimpleFileMapper.truncate (dataFile m) (getPos index)).

Variable maxBuf : Z.

(** [bool write(const T &t)] *)
Definition write (m : t mio.write) (v : list byte) : result (bool * t mio.write) :=
  r <- SimpleFileMapper.write maxBuf (dataFile m) v ;;
  Ret (fst r, mk (mode := mio.write) (snd r)).

(** Appending [vs] one after the other; the flags say which of the
    calls flushed. *)
Fixpoint write_all (m : t mio.write) (vs : list (list byte))
    : result (list bool * t mio.write) :=
  match vs with
  | [] => Ret ([], m)
  | v :: vs' =>
      r <- write m v ;;
      r' <- write_all (snd r) vs' ;;
      Ret (fst r :: fst r', snd r')
  end.

End Fixed.

(** The store that [FixedSizeFileMapper(path)] leaves in write mode once
    a file holding [bytes] is mapped. *)
Definition open (bytes : list byte) : t mio.write :=
  mk (mode := mio.write) (SimpleFileMapper.open bytes).

(** [explicit FixedSizeFileMapper(std::string path)
       : dataFile(std::move(path)) {}] in write mode *)
Definition construct (onDisk : option (list byte)) : result (t mio.write) :=
  d <- SimpleFileMapper.construct onDisk ;;
  Ret (mk (mode := mio.write) d).

End FixedSizeFileMapper.

(** ** Object representation of [FileIndex<indexCount>] *)

Module FileIndex.

Definition byte_of_Z (z : Z) : byte :=
  match Byte.of_N (Z.to_N (z mod 256)) with
  | Some b => b
  | None => x00
  end.

Definition Z_of_byte (b : byte) : Z := Z.of_N (Byte.to_N b).

(** The [n] low bytes of [z], least significant first. *)
Fixpoint le_encode (n : nat) (z : Z) : list byte :=
  match n with
  | O => []
  | S n' => byte_of_Z z :: le_encode n' (z / 256)
  end.

Fixpoint le_decode (bs : list byte) : Z :=
  match bs with
  | [] => 0
  | b :: bs' => Z_of_byte b + 256 * le_decode bs'
  end.

(** An [OffsetType] in memory: eight bytes, two's complement, least
    significant byte first (the layout of the platforms of record). *)
Definition encode_offset (z : Z) : list byte := le_encode 8 (u64 z).
Definition decode_offset (bs : list byte) : Z := i64 (le_decode bs).

(** [std::array<OffsetType, indexCount>] in memory. *)
Definition encode (fileIndex : list Z) : list byte :=
  flat_map encode_offset fileIndex.

Fixpoint decode (indexCount : nat) (bs : list byte) : list Z :=
  match indexCount with
  | O => []
  | S n => decode_offset (firstn 8 bs) :: decode n (skipn 8 bs)
  end.

(** [sizeof(FileIndex<indexCount>)] *)
Definition sizeof (indexCount : nat) : Z := 8 * Z.of_nat indexCount.

End FileIndex.

(** ** [IndexedFileMapper<mode, T...>] *)

Module IndexedFileMapper.

Record t (mode : mio.access_mode) : Type := mk {
  dataFile : mapper mode;
  indexFile : FixedSizeFileMapper.t mode
}.
Arguments mk {mode} dataFile indexFile.
Arguments dataFile {mode} _.
Arguments indexFile {mode} _.

Section Indexed.

(** [indexCount = sizeof...(T)], and [alignof(nth_element<i>)]. *)
Variable indexCount : nat.
Variable alignof : nat -> Z.

(** [sizeof(FileIndex<indexCount>)], the record size of [indexFile]. *)
Definition unitSize : Z := FileIndex.sizeof indexCount.

(** [FileIndex<sizeof...(T)> getOffsets(uint32_t index) const] *)
Definition getOffsets {mode} (m : t mode) (index : Z) : result (list Z) :=
  rec <- FixedSizeFileMapper.read unitSize (indexFile m) index ;;
  Ret (FileIndex.decode indexCount rec).

(** [OffsetType size() const] *)
Definition size {mode} (m : t mode) : Z :=
  FixedSizeFileMapper.size unitSize (indexFile m).

(** [template<size_t indexNum> OffsetType getOffset(uint32_t index) const]:
    the element [indexNum] of the array that [indexFile[index]] points
    at. *)
Definition getOffset {mode} (indexNum : nat) (m : t mode) (index : Z) : result Z :=
  indexData <- FixedSizeFileMapper.operator_index unitSize (indexFile m) index ;;
  bytes <- Mapper.load (FixedSizeFileMapper.dataFile (indexFile m))
             (ptr_add indexData (8 * Z.of_nat indexNum)) 8 ;;
  let offset := FileIndex.decode_offset bytes in
  assert ((offset <? Mapper.size (dataFile m)) || (offset =? InvalidFileIndex)) ;;;
  Ret offset.

(** [template<size_t indexNum> getDataAtIndex(uint32_t index)], const
    and non-const *)
Definition getDataAtIndex {mode} (indexNum : nat) (m : t mode) (index : Z) : result ptr :=
  assert (index <? size m) ;;;
  offset <- getOffset indexNum m index ;;
  Mapper.getDataAtOffset (dataFile m) offset.

(** [void truncate(uint32_t index)] *)
Definition truncate (m : t mio.write) (index : Z) : result (t mio.write) :=
  if index <? size m then
    offsets <- getOffsets m index ;;
    let indexFile' := FixedSizeFileMapper.truncate unitSize (indexFile m) index in
    let dataFile' : mapper mio.write :=
      SimpleFileMapper.truncate (dataFile m) (nth 0 offsets 0) in
    Ret (mk dataFile' indexFile')
  else Ret m.

(** [void seekEnd()] *)
Definition seekEnd (m : t mio.write) : t mio.write :=
  mk (mode := mio.write) (SimpleFileMapper.seekEnd (dataFile m))
     (FixedSizeFileMapper.seekEnd (indexFile m)).

(** [void seek(uint32_t index, OffsetType dataOffset)] *)
Definition seek (m : t mio.write) (index dataOffset : Z) : t mio.write :=
  mk (mode := mio.write) (SimpleFileMapper.seek (dataFile m) dataOffset)
     (FixedSizeFileMapper.seek unitSize (indexFile m) index).

(** [void grow(uint32_t indexSize, OffsetType dataSize)] *)
Definition grow (m : t mio.write) (indexSize dataSize : Z) : t mio.write :=
  let indexFile' :=
    FixedSizeFileMapper.truncate unitSize (indexFile m)
      (FixedSizeFileMapper.size unitSize (indexFile m) + indexSize) in
  mk (mode := mio.write)
     (SimpleFileMapper.truncate (dataFile m)
        (SimpleFileMapper.size (dataFile m) + dataSize))
     indexFile'.

(** [void clearBuffer()] *)
Definition clearBuffer (m : t mio.write) : t mio.write :=
  mk (mode := mio.write) (SimpleFileMapper.clearBuffer (dataFile m))
     (FixedSizeFileMapper.clearBuffer (indexFile m)).

(** [void reload()] in write mode *)
Definition reload (m : t mio.write) : t mio.write :=
  mk (mode := mio.write) (SimpleFileMapper.reload (dataFile m))
     (FixedSizeFileMapper.reload (indexFile m)).

Variable maxBuf : Z.

(** The [fileIndex] that [writeNewImp] builds. *)
Definition newFileIndex (writeOffset : Z) : list Z :=
  writeOffset :: repeat InvalidFileIndex (indexCount - 1).

(** [void writeNewImp(const char *valuePos, OffsetType amountToWrite)],
    the source bytes being [value]. *)
Definition writeNewImp (m : t mio.write) (value : list byte)
    (amountToWrite : Z) : result (t mio.write) :=
  assert (u64 amountToWrite mod alignof 0%nat =? 0) ;;;
  let fileIndex := newFileIndex (SimpleFileMapper.getWriteOffset (dataFile m)) in
  ri <- FixedSizeFileMapper.write maxBuf (indexFile m) (FileIndex.encode fileIndex) ;;
  rd <- SimpleFileMapper.write_from maxBuf (dataFile m) value 0 amountToWrite ;;
  Ret (mk (mode := mio.write) (snd rd) (snd ri)).

(** [void write(const nth_element<0> &t)]: [writeNewImp(&t, sizeof(t))] *)
Definition write (m : t mio.write) (v : list byte) : result (t mio.write) :=
  writeNewImp m v (zlen v).

(** [void write(ArbitraryLengthData<nth_element<0>> &t)]; also returns
    the builder, which [finalize] changes. *)
Definition write_variable (m : t mio.write)
    (b : ArbitraryLengthData.ArbitraryLengthData)
    : result (t mio.write * ArbitraryLengthData.ArbitraryLengthData) :=
  let (finalData, b') := ArbitraryLengthData.finalize (alignof 0%nat) b in
  m' <- writeNewImp m finalData (ArbitraryLengthData.size b') ;;
  Ret (m', b').

(** [template<size_t indexNum> void writeUpdateImp(uint32_t addressNum,
    const char *valuePos, OffsetType amountToWrite)] *)
Definition writeUpdateImp (indexNum : nat) (m : t mio.write) (addressNum : Z)
    (value : list byte) (amountToWrite : Z) : result (t mio.write) :=
  assert (u64 amountToWrite mod alignof indexNum =? 0) ;;;
  fileIndex <- FixedSizeFileMapper.operator_index unitSize (indexFile m) addressNum ;;
  index' <- SimpleFileMapper.store (FixedSizeFileMapper.dataFile (indexFile m))
              (ptr_add fileIndex (8 * Z.of_nat indexNum))
              (FileIndex.encode_offset (SimpleFileMapper.getWriteOffset (dataFile m))) ;;
  rd <- SimpleFileMapper.write_from maxBuf (dataFile m) value 0 amountToWrite ;;
  Ret (mk (mode := mio.write) (snd rd) (FixedSizeFileMapper.mk (mode := mio.write) index')).

(** [template<size_t indexNum> void write(uint32_t addressNum,
    const nth_element<indexNum> &t)] *)
Definition write_at (indexNum : nat) (m : t mio.write) (addressNum : Z)
    (v : list byte) : result (t mio.write) :=
  writeUpdateImp indexNum m addressNum v (zlen v).

End Indexed.

(** The store that [IndexedFileMapper(pathPrefix)] leaves in write mode
    once a data file and an index file holding the given bytes are
    mapped. *)
Definition open (dataBytes indexBytes : list byte) : t mio.write :=
  mk (mode := mio.write) (SimpleFileMapper.open dataBytes)
     (FixedSizeFileMapper.open indexBytes).

(** [explicit IndexedFileMapper(const std::string &pathPrefix)
       : dataFile(pathPrefix + "_data"), indexFile(pathPrefix + "_index") {}]
    in write mode *)
Definition construct (dataOnDisk indexOnDisk : option (list byte))
    : result (t mio.write) :=
  d <- SimpleFileMapper.construct dataOnDisk ;;
  i <- FixedSizeFileMapper.construct indexOnDisk ;;
  Ret (mk (mode := mio.write) d i).

End IndexedFileMapper.

(** ** Vocabulary of the statements *)

Module StoreSpec.

(** The logical address space of a write-mode store: the mapping followed
    by the write buffer. *)
Definition contents (m : SimpleFileMapper.t) : list byte :=
  SimpleFileMapper.file m ++ SimpleFileMapper.buffer m.

(** The store is one that the types allow: [size()] is an [OffsetType], the
    cursor is not negative, and both stay so after [n] more bytes. *)
Definition bounded (m : SimpleFileMapper.t) (n : Z) : Prop :=
  0 <= SimpleFileMapper.writePos m
  /\ SimpleFileMapper.writePos m + n <= InvalidFileIndex
  /\ zlen (contents m) + n <= InvalidFileIndex.

(** The write cursor is at the end of the logical address space. *)
Definition at_end (m : SimpleFileMapper.t) : Prop :=
  SimpleFileMapper.writePos m = zlen (contents m).

(** [mem] with [data] written from position [off] on, [off + |data|] being
    at most [|mem|]. *)
Definition patch (mem : list byte) (off : Z) (data : list byte) : list byte :=
  firstn (Z.to_nat off) mem ++ data ++ skipn (Z.to_nat (off + zlen data)) mem.

(** The store after the bytes of line 244 are in the buffer and the cursor
    has moved, before the threshold is looked at. *)
Definition extended (m : SimpleFileMapper.t) (data : list byte) : SimpleFileMapper.t :=
  SimpleFileMapper.mk (SimpleFileMapper.file m)
    (SimpleFileMapper.buffer m ++ data)
    (SimpleFileMapper.writePos m + zlen data).

(** Lines 246-250 of [write] on the extended store. *)
Definition flushed_if_full (maxBuf : Z) (m1 : SimpleFileMapper.t) : bool * SimpleFileMapper.t :=
  let bufferFull := maxBuf <? zlen (SimpleFileMapper.buffer m1) in
  (bufferFull, if bufferFull then SimpleFileMapper.clearBuffer m1 else m1).

(** The mapping and the buffer of a store of either mode; a read-mode
    store has no buffer. *)
Definition mapped {mode} : mapper mode -> list byte :=
  match mode with
  | mio.read => SimpleFileMapperBase.file
  | mio.write => SimpleFileMapper.file
  end.

Definition buffered {mode} : mapper mode -> list byte :=
  match mode with
  | mio.read => fun _ => []
  | mio.write => SimpleFileMapper.buffer
  end.

End StoreSpec.

(** ** The operations of an array store, and the stores they reach *)

Module ArrayStore.

(** The mutating members of [FixedSizeFileMapper<T, write>]. *)
Inductive op : Type :=
| Write (v : list byte)
| Truncate (index : Z)
| Seek (index : Z)
| SeekEnd
| Reload
| ClearBuffer.

Section Ops.

Variable sizeofT : Z.
Variable maxBuf : Z.

Definition apply (m : FixedSizeFileMapper.t mio.write) (o : op)
    : result (FixedSizeFileMapper.t mio.write) :=
  match o with
  | Write v => r <- FixedSizeFileMapper.write maxBuf m v ;; Ret (snd r)
  | Truncate index => Ret (FixedSizeFileMapper.truncate sizeofT m index)
  | Seek index => Ret (FixedSizeFileMapper.seek sizeofT m index)
  | SeekEnd => Ret (FixedSizeFileMapper.seekEnd m)
  | Reload => Ret (FixedSizeFileMapper.reload m)
  | ClearBuffer => Ret (FixedSizeFileMapper.clearBuffer m)
  end.

(** What the types ask of the arguments: a [T] has [sizeof(T)] bytes, an
    index is not negative, and positions are [OffsetType] values. *)
Definition admissible (m : FixedSizeFileMapper.t mio.write) (o : op) : Prop :=
  match o with
  | Write v =>
      zlen v = sizeofT
      /\ StoreSpec.bounded (FixedSizeFileMapper.dataFile m) sizeofT
  | Truncate index | Seek index =>
      0 <= index /\ index * sizeofT <= InvalidFileIndex
  | SeekEnd | Reload | ClearBuffer => True
  end.

(** The stores that the operations reach from a store opened on a file of
    whole records. *)
Inductive reachable : FixedSizeFileMapper.t mio.write -> Prop :=
| reach_open (bytes : list byte) :
    (sizeofT | zlen bytes) -> zlen bytes <= InvalidFileIndex ->
    reachable (FixedSizeFileMapper.open bytes)
| reach_step (m m' : FixedSizeFileMapper.t mio.write) (o : op) :
    reachable m -> admissible m o -> apply m o = Ret m' ->
    reachable m'.

(** Mapping, buffer and cursor hold whole records, and the sizes are
    [OffsetType] values. *)
Definition whole_records (m : SimpleFileMapper.t) : Prop :=
  (sizeofT | zlen (SimpleFileMapper.file m))
  /\ (sizeofT | zlen (SimpleFileMapper.buffer m))
  /\ (sizeofT | SimpleFileMapper.writePos m)
  /\ 0 <= SimpleFileMapper.writePos m <= InvalidFileIndex
  /\ zlen (StoreSpec.contents m) <= InvalidFileIndex.

End Ops.
End ArrayStore.

(** ** What an array store holds *)

Module Records.

(** The store holds the records [vs], the first [j] of them in the
    mapping and the others in the buffer, and its cursor is at the end. *)
Definition holds (j : nat) (vs : list (list byte)) (m : SimpleFileMapper.t) : Prop :=
  (j <= length vs)%nat
  /\ SimpleFileMapper.file m = concat (firstn j vs)
  /\ SimpleFileMapper.buffer m = concat (skipn j vs)
  /\ SimpleFileMapper.writePos m = zlen (concat vs).

(** Every record has [sizeofT] bytes. *)
Definition sized (sizeofT : Z) (vs : list (list byte)) : Prop :=
  Forall (fun v => zlen v = sizeofT) vs.

End Records.

(** ** The operations of a multi-stream store, and the stores they reach *)

Module MultiStream.

(** The mutating members of [IndexedFileMapper<write, T...>] that leave
    the write cursors at the end of the two files. *)
Inductive op : Type :=
| Append (v : list byte)                               (* [write(t)] *)
| Attach (indexNum : nat) (addressNum : Z) (v : list byte)
                                                       (* [write<indexNum>(addressNum, t)] *)
| Truncate (index : Z)
| ClearBuffer
| Reload
| SeekEnd.

Section Ops.

Variable indexCount : nat.
Variable alignof : nat -> Z.
Variable maxBuf : Z.

Definition apply (m : IndexedFileMapper.t mio.write) (o : op)
    : result (IndexedFileMapper.t mio.write) :=
  match o with
  | Append v => IndexedFileMapper.write indexCount alignof maxBuf m v
  | Attach indexNum addressNum v =>
      IndexedFileMapper.write_at indexCount alignof maxBuf indexNum m addressNum v
  | Truncate index => IndexedFileMapper.truncate indexCount m index
  | ClearBuffer => Ret (IndexedFileMapper.clearBuffer m)
  | Reload => Ret (IndexedFileMapper.reload m)
  | SeekEnd => Ret (IndexedFileMapper.seekEnd m)
  end.

(** The data file with [n] more bytes is an [OffsetType] size. *)
Definition data_fits (m : IndexedFileMapper.t mio.write) (n : Z) : Prop :=
  zlen (StoreSpec.contents (IndexedFileMapper.dataFile m)) + n <= InvalidFileIndex.

(** The index file with one more record is an [OffsetType] size. *)
Definition index_fits (m : IndexedFileMapper.t mio.write) : Prop :=
  zlen (StoreSpec.contents
          (FixedSizeFileMapper.dataFile (IndexedFileMapper.indexFile m)))
  + IndexedFileMapper.unitSize indexCount <= InvalidFileIndex.

(** What the types ask of the arguments: a primary record is not empty
    ([sizeof] is at least 1), an attachment goes to a stream [1 <=
    indexNum < indexCount] ([static_assert]) of an entry of the store,
    indices are unsigned, and the sizes stay [OffsetType] values. *)
Definition admissible (m : IndexedFileMapper.t mio.write) (o : op) : Prop :=
  match o with
  | Append v => 0 < zlen v /\ data_fits m (zlen v) /\ index_fits m
  | Attach indexNum addressNum v =>
      (1 <= indexNum < indexCount)%nat
      /\ 0 <= addressNum < IndexedFileMapper.size indexCount m
      /\ data_fits m (zlen v)
  | Truncate index => 0 <= index
  | ClearBuffer | Reload | SeekEnd => True
  end.

(** The store has the entries whose stream-0 offsets are [offs0]: both
    cursors are at the end, the mapping of the index file ends on a record
    boundary, record [k] of the index file starts with [offs0[k]], and the
    offsets increase and lie inside the data file. *)
Definition committed (offs0 : list Z) (m : IndexedFileMapper.t mio.write) : Prop :=
  let dat := IndexedFileMapper.dataFile m in
  let idx := FixedSizeFileMapper.dataFile (IndexedFileMapper.indexFile m) in
  let unit := IndexedFileMapper.unitSize indexCount in
  StoreSpec.at_end dat /\ StoreSpec.at_end idx
  /\ zlen (StoreSpec.contents dat) <= InvalidFileIndex
  /\ zlen (StoreSpec.contents idx) <= InvalidFileIndex
  /\ (unit | zlen (SimpleFileMapper.file idx))
  /\ zlen (StoreSpec.contents idx) = unit * zlen offs0
  /\ (forall k, (k < length offs0)%nat ->
        exists rec, slice (StoreSpec.contents idx) (Z.of_nat k * unit) 8 = Ret rec
                    /\ FileIndex.decode_offset rec = nth k offs0 0)
  /\ (forall a b, (a < b < length offs0)%nat -> nth a offs0 0 < nth b offs0 0)
  /\ (forall k, (k < length offs0)%nat ->
        0 <= nth k offs0 0 < zlen (StoreSpec.contents dat)).

(** The stores that the operations reach from a store that the
    constructor has opened on a data file and an index file that hold
    committed entries. *)
Inductive reachable : IndexedFileMapper.t mio.write -> Prop :=
| reach_open (dataBytes indexBytes : list byte) (offs0 : list Z)
    (m : IndexedFileMapper.t mio.write) :
    IndexedFileMapper.construct (Some dataBytes) (Some indexBytes) = Ret m ->
    committed offs0 m ->
    reachable m
| reach_step (m m' : IndexedFileMapper.t mio.write) (o : op) :
    reachable m -> admissible m o -> apply m o = Ret m' ->
    reachable m'.

End Ops.
End MultiStream.

(** ** [IndexedFileMapper]: all streams of an entry at once *)

Module IndexedData.
Import IndexedFileMapper.

Section Data.

Variable indexCount : nat.
Variable alignof : nat -> Z.
Variable maxBuf : Z.

(** [for (size_t i = 0; i < sizeof...(T); i++)
       pointers[i] = dataFile.getDataAtOffset(offsets[i]);]
    from [i] on, with [count] rounds to go. *)
Fixpoint fill_pointers {mode} (d : mapper mode) (offsets : list Z)
    (i count : nat) : result (list ptr) :=
  match count with
  | O => Ret []
  | S count' =>
      p <- Mapper.getDataAtOffset d (nth i offsets 0) ;;
      ps <- fill_pointers d offsets (S i) count' ;;
      Ret (p :: ps)
  end.

(** [auto getData(uint32_t index)] for [sizeof...(T) > 1], const and
    non-const: the array [pointers], which [tuple_cast] only retypes. *)
Definition getData_many {mode} (m : t mode) (index : Z) : result (list ptr) :=
  assert (index <? size indexCount m) ;;;
  offsets <- getOffsets indexCount m index ;;
  fill_pointers (dataFile m) offsets 0 indexCount.

(** [auto getData(uint32_t index)] for [sizeof...(T) == 1] (non-const:
    [<= 1]). *)
Definition getData_one {mode} (m : t mode) (index : Z) : result ptr :=
  assert (index <? size indexCount m) ;;;
  getDataAtIndex indexCount 0 m index.

(** [auto operator[](uint32_t index)], const and non-const: the pointers
    of [getData(index)], one for a single stream. *)
Definition operator_index {mode} (m : t mode) (index : Z) : result (list ptr) :=
  if (1 <? indexCount)%nat then getData_many m index
  else p <- getData_one m index ;; Ret [p].

(** [template<size_t indexNum> void write(uint32_t addressNum,
    ArbitraryLengthData<nth_element<indexNum>> &t)]; also returns the
    builder, which [finalize] changes. *)
Definition write_variable_at (indexNum : nat) (m : t mio.write) (addressNum : Z)
    (b : ArbitraryLengthData.ArbitraryLengthData)
    : result (t mio.write * ArbitraryLengthData.ArbitraryLengthData) :=
  let (finalData, b') := ArbitraryLengthData.finalize (alignof indexNum) b in
  m' <- writeUpdateImp indexCount alignof maxBuf indexNum m addressNum
          finalData (ArbitraryLengthData.size b') ;;
  Ret (m', b').

End Data.
End IndexedData.

(** ** Opening a store in either mode *)

Module Opening.

(** The store that [SimpleFileMapper<mode>(path)] leaves once a file
    holding [bytes] is mapped (see [SimpleFileMapperBase.construct] for
    the files that are). *)
Definition mapper_open (mode : mio.access_mode) (bytes : list byte) : mapper mode :=
  match mode with
  | mio.read => SimpleFileMapperBase.mk bytes
  | mio.write => SimpleFileMapper.open bytes
  end.

(** [explicit FixedSizeFileMapper(std::string path) : dataFile(path)] *)
Definition array_open (mode : mio.access_mode) (bytes : list byte)
    : FixedSizeFileMapper.t mode :=
  FixedSizeFileMapper.mk (mapper_open mode bytes).

End Opening.

(** * Properties *)

(** ** Outcomes and integers *)

Lemma bind_Ret_inv {A B} (m : result A) (k : A -> result B) (b : B) :
  bind m k = Ret b -> exists a, m = Ret a /\ k a = Ret b.
Proof.
  destruct m as [a|f]; simpl; intros H; [eauto | discriminate].
Qed.

Lemma Ret_inj {A} (a a' : A) : Ret a = Ret a' -> a = a'.
Proof. intros H. injection H as H. exact H. Qed.

Lemma assert_Ret_inv (c : bool) (u : unit) : assert c = Ret u -> c = true.
Proof. destruct c; simpl; [reflexivity | discriminate]. Qed.

Lemma assert_true (c : bool) : c = true -> assert c = Ret tt.
Proof. intros ->. reflexivity. Qed.

Lemma two63_eq : two63 = 9223372036854775808.
Proof. reflexivity. Qed.

Lemma two64_eq : two64 = 18446744073709551616.
Proof. reflexivity. Qed.

Lemma InvalidFileIndex_eq : InvalidFileIndex = 9223372036854775807.
Proof. reflexivity. Qed.

Lemma u64_small z : 0 <= z < two64 -> u64 z = z.
Proof. intros H. unfold u64. apply Z.mod_small. exact H. Qed.

Lemma i64_small z : - two63 <= z < two63 -> i64 z = z.
Proof.
  intros H. unfold i64. rewrite two63_eq, two64_eq in *.
  rewrite Z.mod_small; lia.
Qed.

Lemma u64_range z : 0 <= u64 z < two64.
Proof. unfold u64. apply Z.mod_pos_bound. reflexivity. Qed.

Lemma u64_neg z : - two64 <= z < 0 -> u64 z = z + two64.
Proof.
  intros H. unfold u64. rewrite two64_eq in *.
  symmetry. apply (Z.mod_unique _ _ (-1)); lia.
Qed.

Lemma i64_range z : - two63 <= i64 z <= InvalidFileIndex.
Proof.
  unfold i64. pose proof (Z.mod_pos_bound (z + two63) two64 eq_refl).
  rewrite InvalidFileIndex_eq, two63_eq, two64_eq in *. lia.
Qed.

Lemma quot_bound (a u k : Z) :
  0 < u -> 0 <= a -> 0 <= k < Z.quot a u -> k * u + u <= a.
Proof.
  intros Hu Ha Hk. rewrite Z.quot_div_nonneg in Hk by lia.
  pose proof (Z.mul_div_le a u Hu). nia.
Qed.

Lemma zlen_nonneg {A} (l : list A) : 0 <= zlen l.
Proof. unfold zlen. lia. Qed.

Lemma zlen_app {A} (l1 l2 : list A) : zlen (l1 ++ l2) = zlen l1 + zlen l2.
Proof. unfold zlen. rewrite length_app. lia. Qed.

Lemma zlen_nil {A} : zlen (@nil A) = 0.
Proof. reflexivity. Qed.

Lemma zlen_repeat {A} (a : A) (n : nat) : zlen (repeat a n) = Z.of_nat n.
Proof. unfold zlen. rewrite repeat_length. reflexivity. Qed.

(** ** [RawBlock::operator==] *)

Module RawBlockFacts.
Import RawBlock.

Lemma operator_eq_agree (a b : RawBlock) :
  operator_eq a b = true <-> agree a b.
Proof.
  unfold operator_eq, agree.
  rewrite !andb_true_iff, !Z.eqb_eq. tauto.
Qed.

(** C10.  [a == b] holds exactly when [a] and [b] agree on hash,
    coinbaseOffset, firstTxIndex, txCount, inputCount, outputCount,
    height, version, timestamp, bits and nonce; realSize and baseSize
    play no part: a block compares equal to any block that differs from
    it in those two fields only. *)
Theorem operator_eq_ignores_sizes :
  forall a b : RawBlock,
    (operator_eq a b = true <-> agree a b)
    /\ (forall rs bs : Z, operator_eq a (with_sizes a rs bs) = true)
    /\ (forall rs bs : Z,
           operator_eq (with_sizes a rs bs) b = operator_eq a b).
Proof.
  intros a b. split; [apply operator_eq_agree|]. split.
  - intros rs bs. apply operator_eq_agree.
    unfold agree, with_sizes; simpl. tauto.
  - intros rs bs. reflexivity.
Qed.

End RawBlockFacts.

(** ** [__getitem__] *)

Module BlockchainPyFacts.
Import BlockchainPy.

Lemma operator_index_nth {Block} (chain : list Block) (i : Z) :
  0 <= i < size Block chain ->
  exists b, operator_index Block chain i = Ret b
            /\ nth_error chain (Z.to_nat i) = Some b.
Proof.
  intros Hi. unfold operator_index, size, zlen in *.
  destruct (Z.ltb_spec i 0) as [Hneg|_]; [lia|].
  destruct (nth_error chain (Z.to_nat i)) as [b|] eqn:E.
  - exists b. split; reflexivity.
  - apply nth_error_None in E. lia.
Qed.

Lemma getitem_in_range {Block} (chain : list Block) (i j : Z) :
  remap Block chain i = Ret j ->
  0 <= j < size Block chain -> size Block chain < two63 ->
  exists b, getitem Block chain i = Ret b
            /\ nth_error chain (Z.to_nat j) = Some b.
Proof.
  intros Hr Hj Hn. unfold getitem. rewrite Hr. simpl.
  rewrite u64_small by (rewrite two63_eq in Hn; rewrite two64_eq; lia).
  destruct (Z.geb_spec j (size Block chain)) as [Hge|_]; [lia|].
  apply operator_index_nth. exact Hj.
Qed.

(** C9.  On a chain of [n >= 1] blocks a negative index [i] is first
    replaced by the truncating remainder [(n + i) % n], and only then
    bounds-checked.  So [-n <= i < 0] yields the block of height [n + i],
    and a negative multiple [-(k * n)] of [n] (such as [-2n]) yields the
    block of height 0 and no [IndexError]. *)
Theorem getitem_negative_index :
  forall (Block : Type) (chain : list Block) (i : Z),
    1 <= size Block chain < two63 ->
    - two63 <= i < 0 ->
    let n := size Block chain in
    remap Block chain i = Ret (Z.rem (n + i) n)
    /\ (- n <= i ->
        exists b, getitem Block chain i = Ret b
                  /\ nth_error chain (Z.to_nat (n + i)) = Some b)
    /\ (forall k, 1 <= k -> i = - (k * n) ->
        exists b, getitem Block chain i = Ret b
                  /\ nth_error chain 0 = Some b).
Proof.
  intros Block chain i Hn Hi n.
  assert (Hremap : remap Block chain i = Ret (Z.rem (n + i) n)).
  { unfold remap. fold n.
    destruct (Z.ltb_spec i 0) as [_|Hge]; [|lia].
    destruct (Z.eqb_spec n 0) as [H0|_]; [subst n; lia|]. reflexivity. }
  split; [exact Hremap|]. split.
  - intros Hlow.
    assert (Hrem : Z.rem (n + i) n = n + i)
      by (apply Z.rem_small; subst n; lia).
    rewrite Hrem in Hremap.
    apply (getitem_in_range chain i (n + i) Hremap); subst n; lia.
  - intros k Hk Hik.
    assert (Hrem : Z.rem (n + i) n = 0).
    { replace (n + i) with ((1 - k) * n) by lia.
      apply Z.rem_mul. subst n; lia. }
    rewrite Hrem in Hremap.
    apply (getitem_in_range chain i 0 Hremap); subst n; lia.
Qed.

Lemma getitem_negative_index_witness :
  getitem Z [10; 11; 12] (-1) = Ret 12
  /\ getitem Z [10; 11; 12] (-3) = Ret 10
  /\ getitem Z [10; 11; 12] (-6) = Ret 10
  /\ exists b, getitem Z [10; 11; 12] (-6) = Ret b
               /\ nth_error [10; 11; 12] 0 = Some b.
Proof.
  split; [reflexivity|]. split; [reflexivity|]. split; [reflexivity|].
  assert (Hn : 1 <= size Z [10; 11; 12] < two63) by (vm_compute; split; congruence).
  assert (Hi : - two63 <= -6 < 0) by (vm_compute; split; congruence).
  destruct (getitem_negative_index Z [10; 11; 12] (-6) Hn Hi) as (_ & _ & H).
  apply (H 2); [lia | reflexivity].
Defined.

End BlockchainPyFacts.

(** ** [ArbitraryLengthData::finalize] *)

Module ArbitraryLengthDataFacts.
Import ArbitraryLengthData.

Lemma push_zeros_repeat (count : nat) (raw : list byte) :
  push_zeros count raw = raw ++ repeat x00 count.
Proof.
  revert raw. induction count as [|count IH]; intros raw; simpl.
  - rewrite app_nil_r. reflexivity.
  - rewrite IH, <- app_assoc. reflexivity.
Qed.

Lemma repeat_all_zero (count : nat) : Forall (eq x00) (repeat x00 count).
Proof. induction count; simpl; constructor; auto. Qed.

Lemma padded_length_aligned (len align : Z) :
  0 < align -> 0 < len mod align ->
  (len + (align - len mod align)) mod align = 0.
Proof.
  intros Ha Hr.
  rewrite (Z.div_mod len align) at 1 by lia.
  replace (align * (len / align) + len mod align + (align - len mod align))
    with ((len / align + 1) * align) by lia.
  apply Z.mod_mul. lia.
Qed.

(** The bytes that [finalize] appends. *)
Lemma finalize_padding (align : Z) (d : ArbitraryLengthData) :
  0 < align ->
  exists pad,
    rawData (snd (finalize align d)) = rawData d ++ pad
    /\ Forall (eq x00) pad
    /\ zlen pad < align
    /\ (zlen (rawData d) + zlen pad) mod align = 0.
Proof.
  intros Ha. unfold finalize. cbv zeta. simpl snd. cbn [rawData].
  pose proof (Z.mod_pos_bound (zlen (rawData d)) align Ha) as Hb.
  destruct (Z.ltb_spec 0 (zlen (rawData d) mod align)) as [Hpos|Hzero].
  - exists (repeat x00 (Z.to_nat (align - zlen (rawData d) mod align))).
    rewrite push_zeros_repeat, zlen_repeat, Z2Nat.id by lia.
    repeat split; [apply repeat_all_zero | lia |].
    apply padded_length_aligned; assumption.
  - exists []. rewrite app_nil_r, zlen_nil, Z.add_0_r.
    repeat split; [constructor | lia | lia].
Qed.

(** C8.  After [finalize()] the builder's length is a multiple of
    [alignof(MainType)], the bytes that [finalize()] appended are all zero
    (and fewer than [alignof(MainType)]), and [size()] is the length of the
    data that the returned pointer views. *)
Theorem finalize_aligned_zero_padded :
  forall (alignofMain : Z) (d : ArbitraryLengthData),
    0 < alignofMain ->
    zlen (rawData d) + alignofMain <= InvalidFileIndex ->
    let finalData := fst (finalize alignofMain d) in
    let d' := snd (finalize alignofMain d) in
    size d' mod alignofMain = 0
    /\ (exists pad, rawData d' = rawData d ++ pad
                    /\ Forall (eq x00) pad /\ zlen pad < alignofMain)
    /\ size d' = zlen finalData
    /\ finalData = rawData d'.
Proof.
  intros align d Ha Hfit finalData d'.
  destruct (finalize_padding align d Ha) as (pad & Hraw & Hzero & Hlt & Hmod).
  fold d' in Hraw.
  assert (Hview : finalData = rawData d') by reflexivity.
  assert (Hsize : size d' = zlen (rawData d')).
  { unfold size. apply i64_small. rewrite Hraw, zlen_app.
    pose proof (zlen_nonneg (rawData d)). pose proof (zlen_nonneg pad).
    rewrite InvalidFileIndex_eq in Hfit. rewrite two63_eq. lia. }
  split; [|split; [|split]].
  - rewrite Hsize, Hraw, zlen_app. exact Hmod.
  - exists pad. auto.
  - rewrite Hview. exact Hsize.
  - exact Hview.
Qed.

(** Thirteen staged bytes under an alignment of 8: three zero bytes are
    appended and the length becomes 16. *)
Lemma finalize_aligned_zero_padded_witness :
  let d := mk (repeat x2a 13) in
  size (snd (finalize 8 d)) mod 8 = 0
  /\ (exists pad, rawData (snd (finalize 8 d)) = rawData d ++ pad
                  /\ Forall (eq x00) pad /\ zlen pad < 8)
  /\ size (snd (finalize 8 d)) = zlen (fst (finalize 8 d))
  /\ fst (finalize 8 d) = rawData (snd (finalize 8 d)).
Proof.
  apply (finalize_aligned_zero_padded 8 (mk (repeat x2a 13))).
  - reflexivity.
  - vm_compute. congruence.
Defined.

Example finalize_13_bytes :
  fst (finalize 8 (mk (repeat x2a 13))) = repeat x2a 13 ++ [x00; x00; x00]
  /\ size (snd (finalize 8 (mk (repeat x2a 13)))) = 16.
Proof. split; reflexivity. Qed.

End ArbitraryLengthDataFacts.

(** ** [SimpleFileMapper<write>::write] *)

Module SimpleFileMapperFacts.
Import SimpleFileMapper StoreSpec.

Ltac consts :=
  rewrite ?two63_eq, ?two64_eq, ?InvalidFileIndex_eq in *.

Ltac bounds :=
  repeat match goal with
         | |- context [zlen ?l] =>
             lazymatch goal with
             | _ : 0 <= zlen l |- _ => fail
             | _ => pose proof (zlen_nonneg l)
             end
         | _ : context [zlen ?l] |- _ =>
             lazymatch goal with
             | _ : 0 <= zlen l |- _ => fail
             | _ => pose proof (zlen_nonneg l)
             end
         end;
  consts; lia.

Lemma slice_all (value : list byte) : slice value 0 (zlen value) = Ret value.
Proof.
  unfold slice.
  destruct (Z.leb_spec 0 (zlen value)) as [_|H]; [|bounds].
  destruct (Z.leb_spec (0 + zlen value) (zlen value)) as [_|H]; [|lia].
  simpl. unfold zlen. rewrite Nat2Z.id, firstn_all. reflexivity.
Qed.

Lemma slice_fail (value : list byte) (off n : Z) :
  zlen value < off + n -> slice value off n = Fail OutOfBounds.
Proof.
  intros H. unfold slice.
  destruct (Z.leb_spec (off + n) (zlen value)) as [H'|_]; [lia|].
  rewrite andb_false_r. reflexivity.
Qed.

Lemma slice_prefix (value : list byte) (n : Z) :
  0 <= n <= zlen value ->
  slice value 0 n = Ret (firstn (Z.to_nat n) value).
Proof.
  intros H. unfold slice.
  destruct (Z.leb_spec 0 n) as [_|H']; [|lia].
  destruct (Z.leb_spec (0 + n) (zlen value)) as [_|H']; [|lia].
  reflexivity.
Qed.

Lemma slice_suffix (value : list byte) (off : Z) :
  0 <= off <= zlen value ->
  slice value off (zlen value - off) = Ret (skipn (Z.to_nat off) value).
Proof.
  intros H. unfold slice.
  destruct (Z.leb_spec 0 off) as [_|H']; [|lia].
  destruct (Z.leb_spec 0 (zlen value - off)) as [_|H']; [|lia].
  destruct (Z.leb_spec (off + (zlen value - off)) (zlen value)) as [_|H']; [|lia].
  simpl. rewrite firstn_all2; [reflexivity|].
  rewrite length_skipn. unfold zlen in *. lia.
Qed.

Lemma overwrite_patch (mem : list byte) (off : Z) (data : list byte) :
  0 <= off -> off + zlen data <= zlen mem ->
  overwrite mem off data = Ret (patch mem off data).
Proof.
  intros H0 H1. unfold overwrite.
  destruct (Z.leb_spec 0 off) as [_|H']; [|lia].
  destruct (Z.leb_spec (off + zlen data) (zlen mem)) as [_|H']; [|lia].
  reflexivity.
Qed.

Lemma zlen_firstn {A} (l : list A) (n : Z) :
  0 <= n <= zlen l -> zlen (firstn (Z.to_nat n) l) = n.
Proof. intros H. unfold zlen in *. rewrite length_firstn. lia. Qed.

Lemma zlen_skipn {A} (l : list A) (n : Z) :
  0 <= n <= zlen l -> zlen (skipn (Z.to_nat n) l) = zlen l - n.
Proof. intros H. unfold zlen in *. rewrite length_skipn. lia. Qed.

Lemma zlen_patch (mem : list byte) (off : Z) (data : list byte) :
  0 <= off -> off + zlen data <= zlen mem ->
  zlen (patch mem off data) = zlen mem.
Proof.
  intros H0 H1. unfold patch. pose proof (zlen_nonneg data).
  rewrite !zlen_app, zlen_firstn, zlen_skipn by lia. lia.
Qed.

(** Appending at the end of the store: only the buffer grows. *)
Lemma write_at_end (maxBuf : Z) (m : t) (value : list byte) :
  bounded m (zlen value) -> at_end m ->
  write maxBuf m value = Ret (flushed_if_full maxBuf (extended m value)).
Proof.
  intros (Hpos & Hcur & Hsize) Hend. unfold at_end in Hend.
  unfold contents in *. rewrite zlen_app in *.
  unfold write, write_from.
  rewrite (u64_small (writePos m)) by bounds.
  destruct (Z.ltb_spec (writePos m) (zlen (file m))) as [H|_]; [bounds|].
  unfold write_buffer.
  rewrite (u64_small (writePos m)), (i64_small (zlen (buffer m))) by bounds.
  destruct (Z.ltb_spec (writePos m) (zlen (buffer m))) as [H|_]; [bounds|].
  rewrite andb_false_r. unfold write_extend.
  rewrite (u64_small (writePos m)), u64_small by bounds.
  rewrite assert_true by (apply Z.eqb_eq; lia). simpl.
  rewrite slice_all. reflexivity.
Qed.

(** Overwriting inside the mapping, all of [value] fitting (region (a)
    alone). *)
Lemma write_within_file (maxBuf : Z) (m : t) (value : list byte) :
  bounded m (zlen value) ->
  0 < zlen value -> writePos m + zlen value <= zlen (file m) ->
  write maxBuf m value
  = Ret (false, mk (patch (file m) (writePos m) value) (buffer m)
                   (writePos m + zlen value)).
Proof.
  intros (Hpos & Hcur & Hsize) Hn Hfit.
  unfold contents in *. rewrite zlen_app in *.
  unfold write, write_from, writeSpace, getWritePos.
  rewrite (u64_small (writePos m)) by bounds.
  destruct (Z.ltb_spec (writePos m) (zlen (file m))) as [_|H]; [|lia].
  rewrite i64_small by bounds.
  rewrite Z.min_l by lia.
  rewrite assert_true by (apply Z.ltb_lt; lia). simpl.
  unfold memcpy. rewrite u64_small by bounds. rewrite slice_all. simpl.
  rewrite overwrite_patch by lia. simpl.
  rewrite Z.sub_diag. reflexivity.
Qed.

(** Overwriting the tail of the mapping and going on past its end, the
    buffer being empty (region (a), then region (c)). *)
Lemma write_across_file_end (maxBuf : Z) (m : t) (value : list byte) :
  bounded m (zlen value) ->
  writePos m < zlen (file m) -> zlen (file m) < writePos m + zlen value ->
  buffer m = [] ->
  let k := Z.to_nat (zlen (file m) - writePos m) in
  write maxBuf m value
  = Ret (flushed_if_full maxBuf
           (mk (patch (file m) (writePos m) (firstn k value))
               (skipn k value) (writePos m + zlen value))).
Proof.
  intros (Hpos & Hcur & Hsize) Hin Hout Hbuf k.
  unfold contents in *. rewrite zlen_app in *. rewrite Hbuf, zlen_nil in *.
  set (space := zlen (file m) - writePos m) in *.
  assert (Hk : zlen (firstn k value) = space)
    by (apply zlen_firstn; subst space; lia).
  unfold write, write_from, writeSpace, getWritePos.
  rewrite (u64_small (writePos m)) by bounds.
  destruct (Z.ltb_spec (writePos m) (zlen (file m))) as [_|H]; [|lia].
  rewrite i64_small by bounds. fold space.
  rewrite Z.min_r by (subst space; lia).
  rewrite assert_true by (apply Z.ltb_lt; subst space; lia). simpl.
  unfold memcpy. rewrite (u64_small space) by (subst space; bounds).
  rewrite slice_prefix by (subst space; lia). fold k. simpl.
  rewrite overwrite_patch by (rewrite ?Hk; subst space; lia). simpl.
  destruct (Z.eqb_spec (zlen value - space) 0) as [H|_]; [subst space; lia|].
  unfold write_buffer, advance. cbn [writePos buffer file]. rewrite !Hbuf.
  change (zlen (@nil byte)) with 0. rewrite (i64_small 0) by bounds.
  destruct (Z.ltb_spec (writePos m + space) 0) as [H|_]; [subst space; lia|].
  rewrite andb_false_r. unfold write_extend. cbn [writePos buffer file].
  change (zlen (@nil byte)) with 0. rewrite Z.add_0_r.
  rewrite assert_true by (apply Z.eqb_eq; f_equal; subst space; lia). simpl.
  rewrite slice_suffix by (subst space; lia). fold k. simpl.
  unfold flushed_if_full. cbn [buffer].
  replace (writePos m + space + (zlen value - space))
    with (writePos m + zlen value) by lia.
  reflexivity.
Qed.

(** In region (b), the cursor inside the buffer, [write] never returns:
    below [buffer.size()] the negative [writeSpace()] becomes a huge
    [memcpy] length, from [buffer.size()] on the assertion of line 242
    fails. *)
Lemma write_inside_buffer_fails (maxBuf : Z) (m : t) (value : list byte) :
  bounded m (zlen value) ->
  zlen (file m) <= writePos m < zlen (file m) + zlen (buffer m) ->
  write maxBuf m value
  = Fail (if writePos m <? zlen (buffer m) then OutOfBounds else AssertionFailed).
Proof.
  intros (Hpos & Hcur & Hsize) Hin.
  unfold contents in *. rewrite zlen_app in *.
  unfold write, write_from.
  rewrite (u64_small (writePos m)) by bounds.
  destruct (Z.ltb_spec (writePos m) (zlen (file m))) as [H|_]; [lia|].
  unfold write_buffer.
  rewrite (u64_small (writePos m)), (i64_small (zlen (buffer m))) by bounds.
  destruct (Z.geb_spec (writePos m) (zlen (file m))) as [_|H]; [|lia].
  destruct (Z.ltb_spec (writePos m) (zlen (buffer m))) as [Hlow|Hhigh]; simpl.
  - unfold writeSpace.
    rewrite (u64_small (writePos m)), (i64_small (zlen (buffer m))) by bounds.
    rewrite (u64_small (zlen (file m) + zlen (buffer m))) by bounds.
    destruct (Z.ltb_spec (writePos m) (zlen (file m))) as [H|_]; [lia|].
    destruct (Z.ltb_spec (writePos m) (zlen (file m) + zlen (buffer m))) as [_|H]; [|lia].
    rewrite i64_small by bounds.
    rewrite Z.min_r by bounds.
    unfold memcpy. rewrite u64_neg by bounds.
    rewrite slice_fail by bounds. reflexivity.
  - unfold write_extend.
    rewrite (u64_small (writePos m)), u64_small by bounds.
    destruct (Z.eqb_spec (writePos m) (zlen (file m) + zlen (buffer m))) as [H|_]; [lia|].
    reflexivity.
Qed.

(** A cursor past the end of the store fails the assertion of line 242. *)
Lemma write_past_end_fails (maxBuf : Z) (m : t) (value : list byte) :
  bounded m (zlen value) ->
  zlen (file m) + zlen (buffer m) < writePos m ->
  write maxBuf m value = Fail AssertionFailed.
Proof.
  intros (Hpos & Hcur & Hsize) Hin.
  unfold contents in *. rewrite zlen_app in *.
  unfold write, write_from.
  rewrite (u64_small (writePos m)) by bounds.
  destruct (Z.ltb_spec (writePos m) (zlen (file m))) as [H|_]; [bounds|].
  unfold write_buffer.
  rewrite (u64_small (writePos m)), (i64_small (zlen (buffer m))) by bounds.
  destruct (Z.ltb_spec (writePos m) (zlen (buffer m))) as [H|_]; [bounds|].
  rewrite andb_false_r. unfold write_extend.
  rewrite (u64_small (writePos m)), u64_small by bounds.
  destruct (Z.eqb_spec (writePos m) (zlen (file m) + zlen (buffer m))) as [H|_]; [lia|].
  reflexivity.
Qed.

(** [write] of no bytes with the cursor inside the mapping fails the
    assertion of line 220. *)
Lemma write_nothing_in_file_fails (maxBuf : Z) (m : t) (value : list byte) :
  bounded m (zlen value) ->
  writePos m < zlen (file m) -> zlen value = 0 ->
  write maxBuf m value = Fail AssertionFailed.
Proof.
  intros (Hpos & Hcur & Hsize) Hin Hn.
  unfold contents in *. rewrite zlen_app in *.
  unfold write, write_from, writeSpace.
  rewrite (u64_small (writePos m)) by bounds.
  destruct (Z.ltb_spec (writePos m) (zlen (file m))) as [_|H]; [|lia].
  rewrite i64_small by bounds.
  rewrite Hn, Z.min_l by lia. reflexivity.
Qed.

(** Going on past the end of the mapping into a buffer that is not empty
    never returns either. *)
Lemma write_across_into_buffer_fails (maxBuf : Z) (m : t) (value : list byte) :
  bounded m (zlen value) ->
  writePos m < zlen (file m) -> zlen (file m) < writePos m + zlen value ->
  0 < zlen (buffer m) ->
  write maxBuf m value
  = Fail (if zlen (file m) <? zlen (buffer m) then OutOfBounds else AssertionFailed).
Proof.
  intros (Hpos & Hcur & Hsize) Hin Hout Hbuf.
  unfold contents in *. rewrite zlen_app in *.
  set (space := zlen (file m) - writePos m) in *.
  set (k := Z.to_nat space).
  assert (Hk : zlen (firstn k value) = space)
    by (apply zlen_firstn; subst space; lia).
  unfold write, write_from, writeSpace, getWritePos.
  rewrite (u64_small (writePos m)) by bounds.
  destruct (Z.ltb_spec (writePos m) (zlen (file m))) as [_|H]; [|lia].
  rewrite i64_small by bounds. fold space.
  rewrite Z.min_r by (subst space; lia).
  rewrite assert_true by (apply Z.ltb_lt; subst space; lia). simpl.
  unfold memcpy. rewrite (u64_small space) by (subst space; bounds).
  rewrite slice_prefix by (subst space; lia). fold k. simpl.
  rewrite overwrite_patch by (rewrite ?Hk; subst space; lia). simpl.
  destruct (Z.eqb_spec (zlen value - space) 0) as [H|_]; [subst space; lia|].
  unfold write_buffer, advance. cbn [writePos buffer file].
  replace (writePos m + space) with (zlen (file m)) by (subst space; lia).
  rewrite (u64_small (zlen (file m))), (i64_small (zlen (buffer m))) by bounds.
  destruct (Z.geb_spec (zlen (file m)) (zlen (file m))) as [_|H]; [|lia].
  destruct (Z.ltb_spec (zlen (file m)) (zlen (buffer m))) as [Hlow|Hhigh]; simpl.
  - unfold writeSpace. cbn [writePos buffer file].
    rewrite zlen_patch by (rewrite ?Hk; subst space; lia).
    rewrite (u64_small (zlen (file m))), (i64_small (zlen (buffer m))) by bounds.
    rewrite (u64_small (zlen (file m) + zlen (buffer m))) by bounds.
    destruct (Z.ltb_spec (zlen (file m)) (zlen (file m))) as [H|_]; [lia|].
    destruct (Z.ltb_spec (zlen (file m)) (zlen (file m) + zlen (buffer m))) as [_|H]; [|lia].
    rewrite i64_small by bounds.
    rewrite Z.min_r by (subst space; bounds).
    unfold memcpy. rewrite u64_neg by bounds.
    rewrite slice_fail by (subst space; bounds). reflexivity.
  - unfold write_extend. cbn [writePos buffer file].
    rewrite (u64_small (zlen (file m))), u64_small by bounds.
    destruct (Z.eqb_spec (zlen (file m)) (zlen (file m) + zlen (buffer m))) as [H|_]; [lia|].
    reflexivity.
Qed.

(** The cases of [write] that return, and what they return. *)
Lemma write_returns (maxBuf : Z) (m : t) (value : list byte) (b : bool) (m' : t) :
  bounded m (zlen value) ->
  write maxBuf m value = Ret (b, m') ->
  (at_end m /\ (b, m') = flushed_if_full maxBuf (extended m value))
  \/ (writePos m + zlen value <= zlen (file m) /\ 0 < zlen value
      /\ (b, m') = (false, mk (patch (file m) (writePos m) value) (buffer m)
                              (writePos m + zlen value)))
  \/ (writePos m < zlen (file m) < writePos m + zlen value /\ buffer m = []
      /\ let k := Z.to_nat (zlen (file m) - writePos m) in
         (b, m') = flushed_if_full maxBuf
                     (mk (patch (file m) (writePos m) (firstn k value))
                         (skipn k value) (writePos m + zlen value))).
Proof.
  intros Hb Hw. pose proof Hb as (Hpos & Hcur & Hsize).
  unfold contents in Hsize. rewrite zlen_app in Hsize.
  destruct (Z.lt_ge_cases (writePos m) (zlen (file m))) as [Hin|Hout].
  - destruct (Z.eq_dec (zlen value) 0) as [H0|Hn0].
    { rewrite write_nothing_in_file_fails in Hw by assumption. discriminate. }
    pose proof (zlen_nonneg value).
    destruct (Z.le_gt_cases (writePos m + zlen value) (zlen (file m))) as [Hfit|Hover].
    + right; left. rewrite write_within_file in Hw by (assumption || lia).
      injection Hw as <- <-. repeat split; (assumption || lia).
    + destruct (Z.eq_dec (zlen (buffer m)) 0) as [Hnil|Hbuf].
      * assert (Hb0 : buffer m = [])
          by (destruct (buffer m); [reflexivity | discriminate]).
        right; right. rewrite write_across_file_end in Hw by (assumption || lia).
        apply Ret_inj in Hw. split; [lia|]. split; [assumption|].
        cbv zeta. rewrite <- Hw. reflexivity.
      * pose proof (zlen_nonneg (buffer m)).
        rewrite write_across_into_buffer_fails in Hw by (assumption || lia).
        discriminate.
  - destruct (Z.lt_trichotomy (writePos m) (zlen (file m) + zlen (buffer m)))
      as [Hlt|[Heq|Hgt]].
    + rewrite write_inside_buffer_fails in Hw by (assumption || lia). discriminate.
    + left. assert (Hend : at_end m)
        by (unfold at_end, contents; rewrite zlen_app; exact Heq).
      rewrite write_at_end in Hw by assumption.
      apply Ret_inj in Hw. split; [assumption|]. rewrite <- Hw. reflexivity.
    + rewrite write_past_end_fails in Hw by (assumption || lia). discriminate.
Qed.

(** C1 (the code departs from the claim in region (b)).  Open a store on
    a file of one byte, append the bytes 01 02 03 and seek to 2: the cursor
    lies inside the buffer.  Appending the byte 09 does not overwrite the
    buffer byte at the cursor and advance the cursor: line 230 tests
    [writePos] against [buffer.size()], [writeSpace()] answers -2, and the
    [memcpy] of [size_t(-2)] bytes leaves the source.  With four bytes
    mapped, the buffer 01 02 and the cursor at 4, region (b) is skipped
    and the assertion of line 242 fails. *)
Theorem write_into_buffer_region_faults :
  (r <- write maxBufferSize (open [x07]) [x01; x02; x03] ;;
   write maxBufferSize (seek (snd r) 2) [x09]) = Fail OutOfBounds
  /\ (r <- write maxBufferSize (open [x07]) [x01; x02; x03] ;;
      Ret (seek (snd r) 2)) = Ret (mk [x07] [x01; x02; x03] 2)
  /\ writeSpace (mk [x07] [x01; x02; x03] 2) = -2
  /\ write maxBufferSize (mk [x07; x07; x07; x07] [x01; x02] 4) [x09]
     = Fail AssertionFailed.
Proof. repeat split; vm_compute; reflexivity. Qed.

(** C4, as the code has it.  For a store that the types allow and a
    threshold that is not negative: an append at the end of the store
    returns; and whenever [write] returns, the flag is [true] exactly when
    the buffer that this call has extended is STRICTLY longer than the
    threshold (its length then is the new cursor minus the mapped size),
    in which case the result is [clearBuffer()] of the extended store;
    when the flag is [false] the result is the store as written, with the
    same mapped size: nothing was flushed. *)
Theorem write_flag_iff_buffer_exceeds_threshold :
  forall (maxBuf : Z) (m : t) (value : list byte),
    0 <= maxBuf ->
    bounded m (zlen value) ->
    (at_end m -> exists b m', write maxBuf m value = Ret (b, m'))
    /\ forall b m',
        write maxBuf m value = Ret (b, m') ->
        (b = true <-> maxBuf < writePos m + zlen value - zlen (file m))
        /\ exists m1,
            zlen (file m1) = zlen (file m)
            /\ writePos m1 = writePos m + zlen value
            /\ (b = true ->
                zlen (buffer m1) = writePos m + zlen value - zlen (file m)
                /\ m' = clearBuffer m1)
            /\ (b = false -> m' = m1).
Proof.
  intros maxBuf m value Hmax Hb. split.
  - intros Hend. rewrite (write_at_end maxBuf m value Hb Hend).
    unfold flushed_if_full. eauto.
  - intros b m' Hw. pose proof Hb as (Hpos & Hcur & Hsize).
    unfold contents in Hsize. rewrite zlen_app in Hsize.
    pose proof (zlen_nonneg value) as Hv.
    destruct (write_returns maxBuf m value b m' Hb Hw)
      as [(Hend & Hr) | [(Hfit & Hn & Hr) | (Hin & Hnil & Hr)]].
    + unfold at_end, contents in Hend. rewrite zlen_app in Hend.
      unfold flushed_if_full, extended in Hr. cbn [buffer] in Hr.
      rewrite zlen_app in Hr. injection Hr as Hflag Hm'.
      split.
      * rewrite Hflag, Z.ltb_lt. lia.
      * exists (extended m value). unfold extended. cbn [file buffer writePos].
        split; [reflexivity|]. split; [reflexivity|]. split.
        -- intros Hbt. rewrite Hbt in Hflag. rewrite <- Hflag in Hm'.
           split; [rewrite zlen_app; lia | exact Hm'].
        -- intros Hbf. rewrite Hbf in Hflag. rewrite <- Hflag in Hm'. exact Hm'.
    + injection Hr as -> ->. split.
      * split; [discriminate | lia].
      * exists (mk (patch (file m) (writePos m) value) (buffer m)
                   (writePos m + zlen value)).
        cbn [file buffer writePos]. split; [|split; [reflexivity|split]].
        -- apply zlen_patch; lia.
        -- discriminate.
        -- reflexivity.
    + cbv zeta in Hr. unfold flushed_if_full in Hr. cbn [buffer] in Hr.
      set (k := Z.to_nat (zlen (file m) - writePos m)) in *.
      assert (Hk : zlen (skipn k value) = writePos m + zlen value - zlen (file m))
        by (subst k; rewrite zlen_skipn; lia).
      assert (Hf : zlen (firstn k value) = zlen (file m) - writePos m)
        by (subst k; apply zlen_firstn; lia).
      injection Hr as Hflag Hm'. split.
      * rewrite Hflag, Z.ltb_lt, Hk. lia.
      * exists (mk (patch (file m) (writePos m) (firstn k value))
                   (skipn k value) (writePos m + zlen value)).
        cbn [file buffer writePos]. split; [|split; [reflexivity|split]].
        -- apply zlen_patch; rewrite ?Hf; lia.
        -- intros Hbt. rewrite Hbt in Hflag. rewrite <- Hflag in Hm'.
           split; [exact Hk | exact Hm'].
        -- intros Hbf. rewrite Hbf in Hflag. rewrite <- Hflag in Hm'. exact Hm'.
Qed.

(** With a threshold of 2: the third buffered byte flushes, the second
    does not. *)
Lemma write_flag_iff_buffer_exceeds_threshold_witness :
  write 2 (mk [x07; x07] [x01; x02] 4) [x09]
  = Ret (true, mk [x07; x07; x01; x02; x09] [] 5)
  /\ write 2 (mk [x07; x07] [x01] 3) [x09]
     = Ret (false, mk [x07; x07] [x01; x09] 4)
  /\ (true = true <-> 2 < 4 + 1 - 2).
Proof.
  split; [reflexivity|]. split; [reflexivity|].
  assert (Hmax : 0 <= 2) by lia.
  assert (Hb : bounded (mk [x07; x07] [x01; x02] 4) (zlen [x09]))
    by (vm_compute; repeat split; congruence).
  destruct (write_flag_iff_buffer_exceeds_threshold 2
              (mk [x07; x07] [x01; x02] 4) [x09] Hmax Hb) as (_ & H).
  exact (proj1 (H true (mk [x07; x07; x01; x02; x09] [] 5) eq_refl)).
Defined.

(** C4, as the claim words it ("reached at least MaxBufferBytes"), fails:
    one append of exactly [maxBufferSize] bytes to a store opened on a file
    of one byte brings the buffer to [maxBufferSize] bytes, and [write]
    returns [false] without flushing. *)
Lemma write_at_threshold_returns_false :
  exists m',
    write maxBufferSize (open [x00]) (repeat x00 (Z.to_nat maxBufferSize))
    = Ret (false, m')
    /\ maxBufferSize <= zlen (buffer m')
    /\ file m' = [x00].
Proof.
  assert (Hlen : zlen (repeat x00 (Z.to_nat maxBufferSize)) = maxBufferSize)
    by (rewrite zlen_repeat; apply Z2Nat.id; discriminate).
  revert Hlen. generalize (repeat x00 (Z.to_nat maxBufferSize)).
  intros value Hlen.
  change (open [x00]) with (mk [x00] [] 1).
  assert (Hb : bounded (mk [x00] [] 1) (zlen value)).
  { rewrite Hlen. vm_compute. repeat split; congruence. }
  assert (Hend : at_end (mk [x00] [] 1)) by reflexivity.
  rewrite (write_at_end maxBufferSize _ value Hb Hend).
  unfold flushed_if_full, extended. cbn [file buffer writePos app].
  rewrite Hlen, Z.ltb_irrefl.
  eexists. split; [reflexivity|]. cbn [file buffer]. rewrite Hlen.
  split; [apply Z.le_refl | reflexivity].
Qed.

(** *** [size] and [getDataAtOffset] *)

Lemma size_sum (m : t) :
  zlen (contents m) <= InvalidFileIndex ->
  size m = zlen (file m) + zlen (buffer m).
Proof.
  intros H. unfold contents in H. rewrite zlen_app in H.
  unfold size. rewrite !i64_small by bounds. reflexivity.
Qed.

Lemma size_contents (m : t) :
  zlen (contents m) <= InvalidFileIndex -> size m = zlen (contents m).
Proof.
  intros H. rewrite size_sum by exact H. unfold contents.
  rewrite zlen_app. reflexivity.
Qed.

Lemma getDataAtOffset_in_range (m : t) (o : Z) :
  zlen (contents m) <= InvalidFileIndex ->
  0 <= o < zlen (contents m) ->
  getDataAtOffset m o
  = Ret (if o <? zlen (file m) then in_file o else in_buffer (o - zlen (file m))).
Proof.
  intros Hfit Ho. unfold contents in *. rewrite zlen_app in *.
  unfold getDataAtOffset.
  rewrite (u64_small o), (u64_small (zlen (file m) + zlen (buffer m))) by bounds.
  destruct (Z.ltb_spec o (zlen (file m) + zlen (buffer m))) as [_|H]; [|lia].
  simpl.
  destruct (Z.eqb_spec o InvalidFileIndex) as [H|_]; [lia|].
  destruct (Z.ltb_spec o (zlen (file m))) as [Hf|Hb]; [reflexivity|].
  rewrite u64_small by bounds. reflexivity.
Qed.

Lemma getDataAtOffset_invalid (m : t) :
  getDataAtOffset m InvalidFileIndex = Ret nullptr.
Proof.
  unfold getDataAtOffset. rewrite Z.eqb_refl, orb_true_r. reflexivity.
Qed.

Lemma getDataAtOffset_null (m : t) (o : Z) :
  getDataAtOffset m o = Ret nullptr -> o = InvalidFileIndex.
Proof.
  unfold getDataAtOffset. intros H.
  apply bind_Ret_inv in H. destruct H as (_ & _ & H).
  destruct (Z.eqb_spec o InvalidFileIndex) as [E|_]; [exact E|].
  destruct (u64 o <? zlen (file m)); discriminate.
Qed.

Lemma slice_one (mem : list byte) (o : Z) :
  0 <= o < zlen mem ->
  exists b, nth_error mem (Z.to_nat o) = Some b /\ slice mem o 1 = Ret [b].
Proof.
  intros Ho. unfold slice.
  destruct (Z.leb_spec 0 o) as [_|H]; [|lia].
  destruct (Z.leb_spec (o + 1) (zlen mem)) as [_|H]; [|lia].
  simpl.
  destruct (nth_error mem (Z.to_nat o)) as [b|] eqn:E.
  - exists b. split; [reflexivity|].
    apply nth_error_split in E. destruct E as (l1 & l2 & -> & Hl).
    rewrite <- Hl, skipn_app, skipn_all, Nat.sub_diag. reflexivity.
  - apply nth_error_None in E. unfold zlen in Ho. lia.
Qed.

End SimpleFileMapperFacts.

(** ** [FixedSizeFileMapper]: whole records *)

Module ArrayStoreFacts.
Import StoreSpec ArrayStore.
Import SimpleFileMapperFacts.

Lemma zlen_resize (bytes : list byte) (offset : Z) :
  zlen (SimpleFileMapper.resize bytes offset) = Z.max 0 offset.
Proof.
  unfold SimpleFileMapper.resize, zlen.
  rewrite length_app, length_firstn, repeat_length. lia.
Qed.

Lemma resize_shrink (bytes : list byte) (offset : Z) :
  offset <= zlen bytes ->
  SimpleFileMapper.resize bytes offset = firstn (Z.to_nat offset) bytes.
Proof.
  intros H. unfold SimpleFileMapper.resize.
  replace (Z.to_nat offset - length bytes)%nat with 0%nat
    by (unfold zlen in H; lia).
  simpl. apply app_nil_r.
Qed.

Create HintDb divide.
#[local] Hint Resolve Z.divide_add_r Z.divide_refl Z.divide_0_r Z.divide_factor_r : divide.

Section WholeRecords.

Variable sizeofT : Z.
Variable maxBuf : Z.
Hypothesis sizeofT_pos : 0 < sizeofT.

Local Abbreviation whole := (whole_records sizeofT).

Lemma open_whole (bytes : list byte) :
  (sizeofT | zlen bytes) -> zlen bytes <= InvalidFileIndex ->
  whole (SimpleFileMapper.open bytes).
Proof.
  intros Hdiv Hfit. unfold whole_records, SimpleFileMapper.open, contents.
  cbn [SimpleFileMapper.file SimpleFileMapper.buffer SimpleFileMapper.writePos].
  change (zlen (@nil byte)) with 0.
  rewrite app_nil_r, !i64_small, Z.add_0_r by bounds.
  repeat split; try assumption; try bounds.
  apply Z.divide_0_r.
Qed.

Lemma clearBuffer_whole (m : SimpleFileMapper.t) :
  whole m -> whole (SimpleFileMapper.clearBuffer m).
Proof.
  intros (Hf & Hb & Hw & Hr & Hfit).
  unfold whole_records, SimpleFileMapper.clearBuffer, contents in *.
  cbn [SimpleFileMapper.file SimpleFileMapper.buffer SimpleFileMapper.writePos].
  rewrite app_nil_r, zlen_app in *.
  repeat split; try assumption; try lia.
  - apply Z.divide_add_r; assumption.
  - apply Z.divide_0_r.
Qed.

Lemma seek_whole (m : SimpleFileMapper.t) (index : Z) :
  whole m -> 0 <= index -> index * sizeofT <= InvalidFileIndex ->
  0 <= index * sizeofT ->
  whole (SimpleFileMapper.seek m (FixedSizeFileMapper.getPos sizeofT index)).
Proof.
  intros (Hf & Hb & Hw & Hr & Hfit) Hi Hmax Hnn.
  unfold whole_records, SimpleFileMapper.seek, FixedSizeFileMapper.getPos, contents in *.
  cbn [SimpleFileMapper.file SimpleFileMapper.buffer SimpleFileMapper.writePos].
  repeat split; try assumption.
  apply Z.divide_factor_r.
Qed.

Lemma seekEnd_whole (m : SimpleFileMapper.t) :
  whole m -> whole (SimpleFileMapper.seekEnd m).
Proof.
  intros (Hf & Hb & Hw & Hr & Hfit).
  unfold whole_records, SimpleFileMapper.seekEnd, contents in *.
  cbn [SimpleFileMapper.file SimpleFileMapper.buffer SimpleFileMapper.writePos].
  rewrite zlen_app in *.
  rewrite (i64_small (zlen (SimpleFileMapper.buffer m))) by bounds.
  rewrite i64_small by bounds.
  repeat split; try assumption; try bounds.
  apply Z.divide_add_r; assumption.
Qed.

Lemma truncate_whole (m : SimpleFileMapper.t) (index : Z) :
  whole m -> 0 <= index -> index * sizeofT <= InvalidFileIndex ->
  0 <= index * sizeofT ->
  whole (SimpleFileMapper.truncate m (FixedSizeFileMapper.getPos sizeofT index)).
Proof.
  intros (Hf & Hb & Hw & Hr & Hfit) Hi Hmax Hnn.
  unfold whole_records, SimpleFileMapper.truncate, FixedSizeFileMapper.getPos,
    SimpleFileMapper.clearBuffer, contents in *.
  cbn [SimpleFileMapper.file SimpleFileMapper.buffer SimpleFileMapper.writePos].
  rewrite app_nil_r, zlen_resize.
  rewrite (Z.max_r 0 (index * sizeofT)) by lia.
  change (zlen (@nil byte)) with 0.
  repeat split; try lia.
  - apply Z.divide_factor_r.
  - apply Z.divide_0_r.
  - destruct (Z.min_spec (SimpleFileMapper.writePos m) (index * sizeofT))
      as [(_ & ->) | (_ & ->)].
    + rewrite Z.max_r by lia. exact Hw.
    + rewrite Z.max_r by lia. apply Z.divide_factor_r.
Qed.

Lemma write_whole (m m' : SimpleFileMapper.t) (v : list byte) (b : bool) :
  whole m -> zlen v = sizeofT -> bounded m sizeofT ->
  SimpleFileMapper.write maxBuf m v = Ret (b, m') ->
  whole m'.
Proof.
  intros (Hf & Hb & Hw & Hr & Hfit) Hv Hbd Hwrite.
  assert (HS : 0 <= sizeofT) by (rewrite <- Hv; apply zlen_nonneg).
  rewrite <- Hv in Hbd. pose proof Hbd as (Hpos & Hcur & Hsize).
  unfold contents in *. rewrite zlen_app in *.
  destruct (write_returns maxBuf m v b m' Hbd Hwrite)
    as [(Hend & Hres) | [(Hfits & Hn & Hres) | (Hin & Hnil & Hres)]].
  - unfold flushed_if_full, extended in Hres. injection Hres as _ ->.
    cbn [SimpleFileMapper.buffer].
    destruct (maxBuf <? zlen (SimpleFileMapper.buffer m ++ v));
      unfold whole_records, SimpleFileMapper.clearBuffer, contents;
      cbn [SimpleFileMapper.file SimpleFileMapper.buffer SimpleFileMapper.writePos];
      rewrite ?app_nil_r, ?zlen_app; rewrite Hv in *;
      repeat split; try lia; auto with divide.
  - injection Hres as _ ->.
    unfold whole_records, contents.
    cbn [SimpleFileMapper.file SimpleFileMapper.buffer SimpleFileMapper.writePos].
    rewrite zlen_app, zlen_patch by lia. rewrite Hv in *.
    repeat split; try lia; auto with divide.
  - exfalso. rewrite Hv in *.
    destruct Hf as (qf & Hqf). destruct Hw as (qw & Hqw).
    rewrite Hqf, Hqw in Hin. clear - Hin HS.
    assert (H1 : qw < qf) by nia.
    assert (H2 : qf < qw + 1) by nia.
    lia.
Qed.

Lemma apply_whole (m m' : FixedSizeFileMapper.t mio.write) (o : op) :
  whole (FixedSizeFileMapper.dataFile m) ->
  admissible sizeofT m o -> apply sizeofT maxBuf m o = Ret m' ->
  whole (FixedSizeFileMapper.dataFile m').
Proof.
  intros Hm Hadm Happ.
  destruct o as [v | index | index | | | ]; simpl in Hadm, Happ.
  - destruct Hadm as (Hv & Hbd).
    unfold FixedSizeFileMapper.write in Happ.
    apply bind_Ret_inv in Happ. destruct Happ as ((b & m1) & Hw & Hret).
    apply bind_Ret_inv in Hw. destruct Hw as ((b' & d') & Hw & Hret').
    apply Ret_inj in Hret'. apply Ret_inj in Hret. subst m'.
    injection Hret' as _ <-. simpl.
    exact (write_whole _ _ _ _ Hm Hv Hbd Hw).
  - apply Ret_inj in Happ. subst m'. simpl.
    destruct Hadm as (Hi & Hmax).
    apply truncate_whole; try assumption. nia.
  - apply Ret_inj in Happ. subst m'. simpl.
    destruct Hadm as (Hi & Hmax).
    apply seek_whole; try assumption. nia.
  - apply Ret_inj in Happ. subst m'. simpl. apply seekEnd_whole. exact Hm.
  - apply Ret_inj in Happ. subst m'. simpl. apply clearBuffer_whole. exact Hm.
  - apply Ret_inj in Happ. subst m'. simpl. apply clearBuffer_whole. exact Hm.
Qed.

Lemma reachable_whole (m : FixedSizeFileMapper.t mio.write) :
  reachable sizeofT maxBuf m -> whole (FixedSizeFileMapper.dataFile m).
Proof.
  induction 1 as [bytes Hdiv Hfit | m m' o _ IH Hadm Happ].
  - apply open_whole; assumption.
  - exact (apply_whole m m' o IH Hadm Happ).
Qed.

Lemma whole_len (m : FixedSizeFileMapper.t mio.write) :
  whole (FixedSizeFileMapper.dataFile m) ->
  FixedSizeFileMapper.size sizeofT m * sizeofT
  = SimpleFileMapper.size (FixedSizeFileMapper.dataFile m).
Proof.
  intros (Hf & Hb & _ & _ & Hfit).
  unfold FixedSizeFileMapper.size. simpl Mapper.size.
  rewrite size_sum by exact Hfit.
  destruct Hf as (qf & ->). destruct Hb as (qb & ->).
  replace (qf * sizeofT + qb * sizeofT) with ((qf + qb) * sizeofT) by lia.
  rewrite Z.quot_mul by lia. reflexivity.
Qed.

End WholeRecords.




(** A file holding 1 as a 4-byte record: appending 2 ... 5,
    [truncate(3)], [seek(2)] and writing 99: three records, the last one
    99. *)
Example truncate_seek_overwrite :
  let u32 := FileIndex.le_encode 4 in
  (r <- FixedSizeFileMapper.write_all SimpleFileMapper.maxBufferSize
          (FixedSizeFileMapper.open (u32 1)) [u32 2; u32 3; u32 4; u32 5] ;;
   m1 <- apply 4 SimpleFileMapper.maxBufferSize (snd r) (Truncate 3) ;;
   m2 <- apply 4 SimpleFileMapper.maxBufferSize m1 (Seek 2) ;;
   m3 <- apply 4 SimpleFileMapper.maxBufferSize m2 (Write (u32 99)) ;;
   v <- FixedSizeFileMapper.read 4 m3 2 ;;
   Ret (FixedSizeFileMapper.size 4 m3, v))
  = Ret (3, u32 99).
Proof. reflexivity. Qed.

End ArrayStoreFacts.

(** ** [FixedSizeFileMapper]: append, then read *)

Module RoundTripFacts.
Import StoreSpec Records.
Import SimpleFileMapperFacts.

Lemma slice_app_l (a rest : list byte) (off n : Z) :
  0 <= off -> 0 <= n -> off + n <= zlen a ->
  slice (a ++ rest) off n = slice a off n.
Proof.
  intros Ho Hn Hfit. unfold slice. rewrite zlen_app.
  pose proof (zlen_nonneg rest).
  destruct (Z.leb_spec 0 off) as [_|H']; [|lia].
  destruct (Z.leb_spec 0 n) as [_|H']; [|lia].
  destruct (Z.leb_spec (off + n) (zlen a)) as [_|H']; [|lia].
  destruct (Z.leb_spec (off + n) (zlen a + zlen rest)) as [_|H']; [|lia].
  simpl. f_equal. unfold zlen in *.
  rewrite skipn_app, firstn_app, length_skipn.
  replace (Z.to_nat n - (length a - Z.to_nat off))%nat with 0%nat by lia.
  rewrite firstn_O, app_nil_r. reflexivity.
Qed.

Lemma slice_app_r (a rest : list byte) (off n : Z) :
  0 <= off ->
  slice (a ++ rest) (zlen a + off) n = slice rest off n.
Proof.
  intros Ho. unfold slice. rewrite zlen_app.
  pose proof (zlen_nonneg a).
  destruct (Z.leb_spec 0 off) as [_|H']; [|lia].
  destruct (Z.leb_spec 0 (zlen a + off)) as [_|H']; [|lia].
  destruct (Z.leb_spec 0 n) as [_|Hn]; [|reflexivity].
  simpl.
  destruct (Z.leb_spec (off + n) (zlen rest)) as [H1|H1];
    destruct (Z.leb_spec (zlen a + off + n) (zlen a + zlen rest)) as [H2|H2];
    try lia; [|reflexivity].
  f_equal. unfold zlen in *.
  rewrite skipn_app, skipn_all2 by lia.
  replace (Z.to_nat (Z.of_nat (length a) + off) - length a)%nat
    with (Z.to_nat off) by lia.
  reflexivity.
Qed.

Lemma slice_app_r' (a rest : list byte) (pos n : Z) :
  zlen a <= pos ->
  slice (a ++ rest) pos n = slice rest (pos - zlen a) n.
Proof.
  intros H. rewrite <- (slice_app_r a rest (pos - zlen a) n) by lia.
  f_equal. lia.
Qed.

Lemma zlen_concat (sizeofT : Z) (vs : list (list byte)) :
  sized sizeofT vs -> zlen (concat vs) = sizeofT * zlen vs.
Proof.
  induction 1 as [|v vs Hv _ IH]; simpl.
  - unfold zlen. simpl. lia.
  - rewrite zlen_app, IH, Hv. unfold zlen. simpl length. lia.
Qed.

Lemma slice_concat (sizeofT : Z) (vs : list (list byte)) (i : nat) (v : list byte) :
  sized sizeofT vs -> nth_error vs i = Some v ->
  slice (concat vs) (Z.of_nat i * sizeofT) sizeofT = Ret v.
Proof.
  intros Hs. revert i. induction Hs as [|a vs Ha Hs IH]; intros i Hnth.
  - destruct i; discriminate.
  - pose proof (zlen_nonneg a) as Hnn.
    destruct i as [|i]; cbn [nth_error concat] in Hnth |- *.
    + injection Hnth as <-. change (Z.of_nat 0 * sizeofT) with 0.
      rewrite slice_app_l by lia. rewrite <- Ha. apply slice_all.
    + replace (Z.of_nat (S i) * sizeofT)
        with (zlen a + Z.of_nat i * sizeofT) by lia.
      rewrite slice_app_r by nia. apply IH. exact Hnth.
Qed.

Lemma sized_firstn (sizeofT : Z) (vs : list (list byte)) (j : nat) :
  sized sizeofT vs -> sized sizeofT (firstn j vs).
Proof.
  unfold sized. intros H. rewrite <- (firstn_skipn j vs) in H.
  apply Forall_app in H. apply H.
Qed.

Lemma sized_skipn (sizeofT : Z) (vs : list (list byte)) (j : nat) :
  sized sizeofT vs -> sized sizeofT (skipn j vs).
Proof.
  unfold sized. intros H. rewrite <- (firstn_skipn j vs) in H.
  apply Forall_app in H. apply H.
Qed.

Lemma holds_contents (j : nat) (vs : list (list byte)) (m : SimpleFileMapper.t) :
  holds j vs m -> contents m = concat vs.
Proof.
  intros (_ & Hf & Hb & _). unfold contents.
  rewrite Hf, Hb, <- concat_app, firstn_skipn. reflexivity.
Qed.

Section RoundTrip.

Variable sizeofT : Z.
Variable maxBuf : Z.
Hypothesis sizeofT_pos : 0 < sizeofT.

Lemma concat_snoc (vs : list (list byte)) (v : list byte) :
  concat (vs ++ [v]) = concat vs ++ v.
Proof. rewrite concat_app. simpl. rewrite app_nil_r. reflexivity. Qed.

Lemma zlen_snoc (vs : list (list byte)) (v : list byte) :
  zlen (vs ++ [v]) = zlen vs + 1.
Proof. rewrite zlen_app. reflexivity. Qed.

(** One append to a store that holds [vs] returns, and the store then
    holds [vs ++ [v]], whether the append flushed or not. *)
Lemma write_holds (j : nat) (vs : list (list byte)) (m : SimpleFileMapper.t)
    (v : list byte) :
  holds j vs m -> sized sizeofT vs -> zlen v = sizeofT ->
  sizeofT * (zlen vs + 1) <= InvalidFileIndex ->
  exists b m' j',
    SimpleFileMapper.write maxBuf m v = Ret (b, m')
    /\ holds j' (vs ++ [v]) m'.
Proof.
  intros Hh Hs Hv Hfit.
  pose proof (holds_contents j vs m Hh) as Hc.
  destruct Hh as (Hj & Hf & Hb & Hw).
  pose proof (zlen_concat sizeofT vs Hs) as Hlen.
  pose proof (zlen_nonneg vs) as Hn.
  assert (Hbd : bounded m (zlen v)).
  { unfold bounded. rewrite Hc, Hw, Hlen, Hv. repeat split; nia. }
  assert (Hend : at_end m) by (unfold at_end; rewrite Hc; exact Hw).
  rewrite (write_at_end maxBuf m v Hbd Hend).
  unfold flushed_if_full, extended. cbn [SimpleFileMapper.buffer].
  destruct (maxBuf <? zlen (SimpleFileMapper.buffer m ++ v)).
  - exists true. eexists. exists (length (vs ++ [v])).
    split; [reflexivity|].
    unfold holds, SimpleFileMapper.clearBuffer.
    cbn [SimpleFileMapper.file SimpleFileMapper.buffer SimpleFileMapper.writePos].
    rewrite firstn_all, skipn_all, concat_snoc, zlen_app, Hw.
    repeat split; try reflexivity; try lia.
    rewrite app_assoc. fold (contents m). rewrite Hc. reflexivity.
  - exists false. eexists. exists j.
    split; [reflexivity|].
    unfold holds.
    cbn [SimpleFileMapper.file SimpleFileMapper.buffer SimpleFileMapper.writePos].
    rewrite firstn_app, skipn_app, concat_snoc, zlen_app, Hw, length_app.
    replace (j - length vs)%nat with 0%nat by lia.
    simpl firstn. simpl skipn. rewrite app_nil_r, concat_snoc, Hf, Hb.
    repeat split; try reflexivity. simpl. lia.
Qed.

(** Appending [vs] to a store that holds [vs0]. *)
Lemma write_all_holds (vs vs0 : list (list byte)) (j : nat) (m : SimpleFileMapper.t) :
  holds j vs0 m -> sized sizeofT vs0 -> sized sizeofT vs ->
  sizeofT * (zlen vs0 + zlen vs) <= InvalidFileIndex ->
  exists flags m' j',
    FixedSizeFileMapper.write_all maxBuf (FixedSizeFileMapper.mk (mode := mio.write) m) vs
    = Ret (flags, FixedSizeFileMapper.mk (mode := mio.write) m')
    /\ length flags = length vs
    /\ holds j' (vs0 ++ vs) m'.
Proof.
  revert vs0 j m. induction vs as [|v vs IH]; intros vs0 j m Hh Hs0 Hs Hfit.
  - exists [], m, j. rewrite app_nil_r. simpl. auto.
  - apply Forall_cons_iff in Hs. destruct Hs as (Hv & Hs).
    assert (Hz : zlen (v :: vs) = zlen vs + 1) by (unfold zlen; simpl length; lia).
    pose proof (zlen_nonneg vs) as Hn. pose proof (zlen_nonneg vs0) as Hn0.
    destruct (write_holds j vs0 m v Hh Hs0 Hv) as (b & m1 & j1 & Hw & Hh1); [nia|].
    assert (Hs1 : sized sizeofT (vs0 ++ [v])).
    { apply Forall_app. split; [exact Hs0|]. constructor; [exact Hv | constructor]. }
    destruct (IH (vs0 ++ [v]) j1 m1 Hh1 Hs1 Hs) as (flags & m' & j' & Hall & Hlen & Hh').
    { rewrite zlen_snoc. lia. }
    exists (b :: flags), m', j'.
    rewrite <- app_assoc in Hh'. simpl in Hh'.
    split; [|split; [simpl; congruence | exact Hh']].
    cbn [FixedSizeFileMapper.write_all]. unfold FixedSizeFileMapper.write.
    cbn [FixedSizeFileMapper.dataFile]. rewrite Hw. cbn [bind fst snd].
    rewrite Hall. reflexivity.
Qed.

(** Reading index [i] of a store that holds [vs] yields [vs[i]]. *)
Lemma read_holds (j : nat) (vs : list (list byte)) (m : SimpleFileMapper.t)
    (i : nat) (v : list byte) :
  holds j vs m -> sized sizeofT vs ->
  sizeofT * zlen vs <= InvalidFileIndex ->
  nth_error vs i = Some v ->
  FixedSizeFileMapper.read sizeofT (FixedSizeFileMapper.mk (mode := mio.write) m)
    (Z.of_nat i) = Ret v.
Proof.
  intros Hh Hs Hfit Hnth.
  pose proof (holds_contents j vs m Hh) as Hc.
  destruct Hh as (Hj & Hf & Hb & Hw).
  pose proof (zlen_concat sizeofT vs Hs) as Hlen.
  assert (Hi : (i < length vs)%nat) by (apply nth_error_Some; congruence).
  assert (Hcfit : zlen (contents m) <= InvalidFileIndex) by (rewrite Hc, Hlen; exact Hfit).
  assert (Hflen : zlen (SimpleFileMapper.file m) = sizeofT * Z.of_nat j).
  { rewrite Hf, (zlen_concat sizeofT) by (apply sized_firstn; exact Hs).
    unfold zlen. rewrite length_firstn. f_equal. lia. }
  unfold FixedSizeFileMapper.read, FixedSizeFileMapper.operator_index,
    FixedSizeFileMapper.size, FixedSizeFileMapper.getPos.
  cbn [FixedSizeFileMapper.dataFile Mapper.size Mapper.getDataAtOffset Mapper.load].
  rewrite size_contents, Hc, Hlen by exact Hcfit.
  rewrite Z.mul_comm, Z.quot_mul by lia.
  rewrite assert_true by (apply Z.ltb_lt; unfold zlen; lia).
  cbn [bind].
  rewrite getDataAtOffset_in_range
    by (try exact Hcfit; rewrite Hc, Hlen; unfold zlen; nia).
  cbn [bind]. rewrite Hflen.
  destruct (Z.ltb_spec (Z.of_nat i * sizeofT) (sizeofT * Z.of_nat j)) as [Hlt|Hge].
  - cbn [SimpleFileMapper.load]. rewrite Hf.
    apply slice_concat; [apply sized_firstn; exact Hs|].
    rewrite nth_error_firstn.
    destruct (Nat.ltb_spec i j) as [_|H]; [exact Hnth | nia].
  - cbn [SimpleFileMapper.load]. rewrite Hb.
    replace (Z.of_nat i * sizeofT - sizeofT * Z.of_nat j)
      with (Z.of_nat (i - j) * sizeofT) by nia.
    apply slice_concat; [apply sized_skipn; exact Hs|].
    rewrite nth_error_skipn.
    replace (j + (i - j))%nat with i by nia. exact Hnth.
Qed.

End RoundTrip.

(** C2.  Round trip of an array store, across flushes.  The store is one
    that holds whole records [vs0] with its cursor at the end, the first
    [j] of them in the mapping and the others in the buffer: the store
    that the constructor opens on a file of the records [vs0] is one (the
    constructor opens no file without bytes, so there [vs0] is not empty),
    and so is a store that holds nothing.  Appending [v0 ... v(n-1)] to
    it returns; afterwards [size()] is the number of records, the record
    of index [|vs0| + i] reads as the bytes of [vi], and the records
    [vs0] read as before.  The threshold is arbitrary, so this holds
    whichever of the appends flushed ([flags] says which). *)
Theorem array_round_trip :
  forall (sizeofT maxBuf : Z) (vs0 vs : list (list byte)),
    0 < sizeofT ->
    sized sizeofT vs0 ->
    sized sizeofT vs ->
    sizeofT * (zlen vs0 + zlen vs) <= InvalidFileIndex ->
    (vs0 <> [] ->
       FixedSizeFileMapper.construct (Some (concat vs0))
       = Ret (FixedSizeFileMapper.open (concat vs0))
       /\ holds (length vs0) vs0 (SimpleFileMapper.open (concat vs0)))
    /\ forall (j : nat) (m : SimpleFileMapper.t),
         holds j vs0 m ->
         exists flags m',
           FixedSizeFileMapper.write_all maxBuf
             (FixedSizeFileMapper.mk (mode := mio.write) m) vs
           = Ret (flags, m')
           /\ length flags = length vs
           /\ FixedSizeFileMapper.size sizeofT m' = zlen vs0 + zlen vs
           /\ (forall i v, nth_error vs i = Some v ->
                 FixedSizeFileMapper.read sizeofT m' (zlen vs0 + Z.of_nat i) = Ret v)
           /\ (forall i v, nth_error vs0 i = Some v ->
                 FixedSizeFileMapper.read sizeofT m' (Z.of_nat i) = Ret v).
Proof.
  intros sizeofT maxBuf vs0 vs HS Hs0 Hs Hfit.
  pose proof (zlen_nonneg vs0) as Hn0. pose proof (zlen_nonneg vs) as Hn.
  assert (Hsall : sized sizeofT (vs0 ++ vs)) by (apply Forall_app; split; assumption).
  assert (Hlall : zlen (vs0 ++ vs) = zlen vs0 + zlen vs) by apply zlen_app.
  split.
  - intros Hne.
    assert (Hlen0 : zlen (concat vs0) = sizeofT * zlen vs0)
      by (apply zlen_concat; exact Hs0).
    assert (Hpos : 0 < zlen (concat vs0)).
    { destruct vs0 as [|v0 vs0']; [contradiction|].
      rewrite Hlen0. unfold zlen. cbn [length]. nia. }
    split.
    + unfold FixedSizeFileMapper.construct, SimpleFileMapper.construct,
        SimpleFileMapperBase.construct.
      destruct (concat vs0) as [|b bytes]; [discriminate Hpos || (cbn in Hpos; lia)|].
      reflexivity.
    + unfold holds, SimpleFileMapper.open.
      cbn [SimpleFileMapper.file SimpleFileMapper.buffer SimpleFileMapper.writePos].
      rewrite firstn_all, skipn_all. change (zlen (@nil byte)) with 0.
      rewrite !i64_small by bounds.
      split; [lia|]. split; [reflexivity|]. split; [reflexivity | lia].
  - intros j m Hh.
    destruct (write_all_holds sizeofT maxBuf HS vs vs0 j m Hh Hs0 Hs Hfit)
      as (flags & m' & j' & Hall & Hlen & Hh').
    assert (Hfit' : sizeofT * zlen (vs0 ++ vs) <= InvalidFileIndex)
      by (rewrite Hlall; exact Hfit).
    exists flags, (FixedSizeFileMapper.mk (mode := mio.write) m').
    split; [exact Hall|]. split; [exact Hlen|]. split; [|split].
    + pose proof (holds_contents j' _ m' Hh') as Hc.
      unfold FixedSizeFileMapper.size. cbn [FixedSizeFileMapper.dataFile Mapper.size].
      rewrite size_contents, Hc, (zlen_concat sizeofT _ Hsall)
        by (rewrite Hc, (zlen_concat sizeofT _ Hsall); exact Hfit').
      rewrite Hlall, Z.mul_comm. apply Z.quot_mul. lia.
    + intros i v Hnth.
      replace (zlen vs0 + Z.of_nat i) with (Z.of_nat (length vs0 + i))
        by (unfold zlen; lia).
      apply (read_holds sizeofT HS j' (vs0 ++ vs) m' _ v Hh' Hsall Hfit').
      rewrite nth_error_app2 by lia.
      replace (length vs0 + i - length vs0)%nat with i by lia. exact Hnth.
    + intros i v Hnth.
      apply (read_holds sizeofT HS j' (vs0 ++ vs) m' _ v Hh' Hsall Hfit').
      rewrite nth_error_app1 by (apply nth_error_Some; congruence). exact Hnth.
Qed.

(** A file of one record of two bytes, three more appended with a
    threshold of 4: the third append flushes; afterwards the four records
    read back, the appended ones at the indices 1, 2 and 3. *)
Lemma array_round_trip_witness :
  FixedSizeFileMapper.construct (Some (concat [[x01; x02]]))
  = Ret (FixedSizeFileMapper.open (concat [[x01; x02]]))
  /\ exists flags m',
       FixedSizeFileMapper.write_all 4 (FixedSizeFileMapper.open (concat [[x01; x02]]))
         [[x03; x04]; [x05; x06]; [x07; x08]] = Ret (flags, m')
       /\ length flags = length [[x03; x04]; [x05; x06]; [x07; x08]]
       /\ FixedSizeFileMapper.size 2 m'
          = zlen [[x01; x02]] + zlen [[x03; x04]; [x05; x06]; [x07; x08]]
       /\ (forall i v,
             nth_error [[x03; x04]; [x05; x06]; [x07; x08]] i = Some v ->
             FixedSizeFileMapper.read 2 m' (zlen [[x01; x02]] + Z.of_nat i) = Ret v)
       /\ (forall i v,
             nth_error [[x01; x02]] i = Some v ->
             FixedSizeFileMapper.read 2 m' (Z.of_nat i) = Ret v).
Proof.
  assert (HS : 0 < 2) by lia.
  assert (Hs0 : sized 2 [[x01; x02]]) by (repeat constructor).
  assert (Hs : sized 2 [[x03; x04]; [x05; x06]; [x07; x08]]) by (repeat constructor).
  assert (Hfit : 2 * (zlen [[x01; x02]] + zlen [[x03; x04]; [x05; x06]; [x07; x08]])
                 <= InvalidFileIndex) by (vm_compute; congruence).
  assert (Hne : [[x01; x02]] <> []) by discriminate.
  destruct (array_round_trip 2 4 [[x01; x02]] [[x03; x04]; [x05; x06]; [x07; x08]]
              HS Hs0 Hs Hfit) as (Hopen & Hround).
  destruct (Hopen Hne) as (Hctor & Hholds).
  split; [exact Hctor|].
  exact (Hround 1%nat (SimpleFileMapper.open (concat [[x01; x02]])) Hholds).
Defined.

(** The run of the witness: the flags, and where the records end up. *)
Example write_all_flushes_third :
  FixedSizeFileMapper.write_all 4 (FixedSizeFileMapper.open [x01; x02])
    [[x03; x04]; [x05; x06]; [x07; x08]]
  = Ret ([false; false; true],
         FixedSizeFileMapper.mk (mode := mio.write)
           (SimpleFileMapper.mk [x01; x02; x03; x04; x05; x06; x07; x08] [] 8)).
Proof. reflexivity. Qed.

End RoundTripFacts.

(** ** [IndexedFileMapper]: reading *)

Module IndexedReadFacts.
Import StoreSpec.
Import SimpleFileMapperFacts RoundTripFacts.

Lemma slice_inv (mem : list byte) (o n : Z) (rec : list byte) :
  slice mem o n = Ret rec ->
  0 <= o /\ 0 <= n /\ o + n <= zlen mem
  /\ rec = firstn (Z.to_nat n) (skipn (Z.to_nat o) mem).
Proof.
  unfold slice.
  destruct (Z.leb_spec 0 o) as [Ho|_]; [|discriminate].
  destruct (Z.leb_spec 0 n) as [Hn|_]; [|discriminate].
  destruct (Z.leb_spec (o + n) (zlen mem)) as [Hfit|_]; [|discriminate].
  simpl. intros Hrec. apply Ret_inj in Hrec. auto.
Qed.

Lemma slice_Ret (mem : list byte) (o n : Z) :
  0 <= o -> 0 <= n -> o + n <= zlen mem ->
  slice mem o n = Ret (firstn (Z.to_nat n) (skipn (Z.to_nat o) mem)).
Proof.
  intros Ho Hn Hfit. unfold slice.
  destruct (Z.leb_spec 0 o) as [_|H]; [|lia].
  destruct (Z.leb_spec 0 n) as [_|H]; [|lia].
  destruct (Z.leb_spec (o + n) (zlen mem)) as [_|H]; [|lia].
  reflexivity.
Qed.

Lemma zlen_slice (mem : list byte) (o n : Z) (rec : list byte) :
  slice mem o n = Ret rec -> zlen rec = n.
Proof.
  intros H. apply slice_inv in H. destruct H as (Ho & Hn & Hfit & ->).
  unfold zlen in *. rewrite length_firstn, length_skipn. lia.
Qed.

(** A part of a slice is a slice. *)
Lemma slice_sub (mem : list byte) (o n off k : Z) (rec : list byte) :
  slice mem o n = Ret rec ->
  0 <= off -> 0 <= k -> off + k <= n ->
  slice mem (o + off) k
  = Ret (firstn (Z.to_nat k) (skipn (Z.to_nat off) rec)).
Proof.
  intros H Hoff Hk Hfit. apply slice_inv in H.
  destruct H as (Ho & Hn & Hmem & ->).
  rewrite slice_Ret by lia. f_equal.
  rewrite skipn_firstn_comm, firstn_firstn, skipn_skipn.
  f_equal; [lia | f_equal; lia].
Qed.

Lemma load_sub {mode} (d : mapper mode) (p : ptr) (n off k : Z) (rec : list byte) :
  Mapper.load d p n = Ret rec ->
  0 <= off -> 0 <= k -> off + k <= n ->
  Mapper.load d (ptr_add p off) k
  = Ret (firstn (Z.to_nat k) (skipn (Z.to_nat off) rec)).
Proof.
  intros H Hoff Hk Hfit.
  destruct mode; destruct p as [|o|o]; simpl in *; try discriminate;
    eapply slice_sub; eassumption.
Qed.

Lemma zlen_load {mode} (d : mapper mode) (p : ptr) (n : Z) (rec : list byte) :
  Mapper.load d p n = Ret rec -> zlen rec = n.
Proof.
  destruct mode; destruct p as [|o|o]; simpl; try discriminate;
    apply zlen_slice.
Qed.

Lemma nth_decode (indexCount : nat) (rec : list byte) (i : nat) :
  (i < indexCount)%nat ->
  nth i (FileIndex.decode indexCount rec) 0
  = FileIndex.decode_offset (firstn 8 (skipn (8 * i) rec)).
Proof.
  revert rec i. induction indexCount as [|n IH]; intros rec i Hi; [lia|].
  destruct i as [|i]; cbn [FileIndex.decode nth].
  - reflexivity.
  - rewrite IH by lia. rewrite skipn_skipn. do 3 f_equal. lia.
Qed.

Lemma mapper_getDataAtOffset_invalid {mode} (d : mapper mode) :
  Mapper.getDataAtOffset d InvalidFileIndex = Ret nullptr.
Proof.
  destruct mode; simpl.
  - unfold SimpleFileMapperBase.getDataAtOffset. rewrite Z.eqb_refl. reflexivity.
  - apply SimpleFileMapperFacts.getDataAtOffset_invalid.
Qed.

Lemma mapper_getDataAtOffset_null {mode} (d : mapper mode) (o : Z) :
  Mapper.getDataAtOffset d o = Ret nullptr -> o = InvalidFileIndex.
Proof.
  destruct mode; simpl.
  - unfold SimpleFileMapperBase.getDataAtOffset.
    destruct (Z.eqb_spec o InvalidFileIndex) as [E|_]; [intros _; exact E|].
    destruct (assert (o <? SimpleFileMapperBase.size d)); discriminate.
  - apply SimpleFileMapperFacts.getDataAtOffset_null.
Qed.

(** With the mapping ending on a record boundary, every record of the
    store can be read, and is the slice of the logical address space. *)
Lemma read_aligned (sizeofT : Z) (d : SimpleFileMapper.t) (k : Z) :
  0 < sizeofT -> zlen (contents d) <= InvalidFileIndex ->
  (sizeofT | zlen (SimpleFileMapper.file d)) ->
  0 <= k < FixedSizeFileMapper.size sizeofT (FixedSizeFileMapper.mk (mode := mio.write) d) ->
  exists rec,
    slice (contents d) (k * sizeofT) sizeofT = Ret rec
    /\ FixedSizeFileMapper.read sizeofT (FixedSizeFileMapper.mk (mode := mio.write) d) k
       = Ret rec.
Proof.
  intros HS Hfit (q & Hq) Hk.
  unfold FixedSizeFileMapper.read, FixedSizeFileMapper.operator_index,
    FixedSizeFileMapper.getPos.
  rewrite assert_true by (apply Z.ltb_lt; lia). cbn [bind].
  unfold FixedSizeFileMapper.size in Hk.
  cbn [FixedSizeFileMapper.dataFile Mapper.size Mapper.getDataAtOffset Mapper.load] in *.
  rewrite size_contents in Hk by exact Hfit.
  pose proof (quot_bound _ _ _ HS (zlen_nonneg (contents d)) Hk) as Hrec.
  rewrite getDataAtOffset_in_range by (try exact Hfit; nia). cbn [bind].
  unfold contents in *. rewrite zlen_app in *.
  pose proof (zlen_nonneg (SimpleFileMapper.buffer d)) as Hb.
  destruct (Z.ltb_spec (k * sizeofT) (zlen (SimpleFileMapper.file d))) as [Hlt|Hge].
  - assert (Hin : k * sizeofT + sizeofT <= zlen (SimpleFileMapper.file d)).
    { rewrite Hq in *. assert (k < q) by nia. nia. }
    rewrite slice_app_l by nia. cbn [SimpleFileMapper.load].
    rewrite slice_Ret by nia. eauto.
  - rewrite slice_app_r' by lia. cbn [SimpleFileMapper.load].
    rewrite slice_Ret by nia. eauto.
Qed.

(** The same for a read-mode store, which has no buffer. *)
Lemma read_mapped (sizeofT : Z) (d : SimpleFileMapperBase.t) (k : Z) :
  0 < sizeofT -> zlen (SimpleFileMapperBase.file d) <= InvalidFileIndex ->
  0 <= k < FixedSizeFileMapper.size sizeofT (FixedSizeFileMapper.mk (mode := mio.read) d) ->
  exists rec,
    slice (SimpleFileMapperBase.file d) (k * sizeofT) sizeofT = Ret rec
    /\ FixedSizeFileMapper.read sizeofT (FixedSizeFileMapper.mk (mode := mio.read) d) k
       = Ret rec.
Proof.
  intros HS Hfit Hk.
  unfold FixedSizeFileMapper.read, FixedSizeFileMapper.operator_index,
    FixedSizeFileMapper.getPos.
  rewrite assert_true by (apply Z.ltb_lt; lia). cbn [bind].
  unfold FixedSizeFileMapper.size in Hk.
  cbn [FixedSizeFileMapper.dataFile Mapper.size Mapper.getDataAtOffset Mapper.load] in *.
  unfold SimpleFileMapperBase.size in Hk. rewrite i64_small in Hk by bounds.
  pose proof (quot_bound _ _ _ HS (zlen_nonneg (SimpleFileMapperBase.file d)) Hk) as Hrec.
  unfold SimpleFileMapperBase.getDataAtOffset, SimpleFileMapperBase.size.
  rewrite i64_small by bounds.
  destruct (Z.eqb_spec (k * sizeofT) InvalidFileIndex) as [H|_]; [nia|].
  rewrite assert_true by (apply Z.ltb_lt; nia). cbn [bind].
  rewrite u64_small by (consts; nia). cbn [SimpleFileMapperBase.load].
  rewrite slice_Ret by nia. eauto.
Qed.

(** For either mode: with the mapping ending on a record boundary, every
    record below [size()] can be read. *)
Lemma read_on_boundary {mode} (sizeofT : Z) (d : mapper mode) (k : Z) :
  0 < sizeofT -> zlen (mapped d) + zlen (buffered d) <= InvalidFileIndex ->
  (sizeofT | zlen (mapped d)) ->
  0 <= k < FixedSizeFileMapper.size sizeofT (FixedSizeFileMapper.mk d) ->
  exists rec, FixedSizeFileMapper.read sizeofT (FixedSizeFileMapper.mk d) k = Ret rec.
Proof.
  intros HS Hfit Hdiv Hk. destruct mode; cbn [mapped buffered] in *.
  - change (zlen (@nil byte)) with 0 in Hfit.
    destruct (read_mapped sizeofT d k HS) as (rec & _ & Hr); [lia | exact Hk |].
    eauto.
  - destruct (read_aligned sizeofT d k HS) as (rec & _ & Hr);
      [unfold contents; rewrite zlen_app; exact Hfit | exact Hdiv | exact Hk |].
    eauto.
Qed.

Section Reading.

Variable indexCount : nat.

(** What [getOffsets] has read when it returns. *)
Lemma getOffsets_inv {mode} (m : IndexedFileMapper.t mode) (k : Z) (offs : list Z) :
  IndexedFileMapper.getOffsets indexCount m k = Ret offs ->
  exists p rec,
    (k <? IndexedFileMapper.size indexCount m) = true
    /\ FixedSizeFileMapper.operator_index (IndexedFileMapper.unitSize indexCount)
         (IndexedFileMapper.indexFile m) k = Ret p
    /\ Mapper.load (FixedSizeFileMapper.dataFile (IndexedFileMapper.indexFile m)) p
         (IndexedFileMapper.unitSize indexCount) = Ret rec
    /\ offs = FileIndex.decode indexCount rec.
Proof.
  unfold IndexedFileMapper.getOffsets, FixedSizeFileMapper.read. intros H.
  apply bind_Ret_inv in H. destruct H as (rec & H & Hoffs).
  apply bind_Ret_inv in H. destruct H as (p & Hp & Hload).
  apply Ret_inj in Hoffs. exists p, rec.
  repeat split; auto.
  unfold FixedSizeFileMapper.operator_index in Hp.
  apply bind_Ret_inv in Hp. destruct Hp as (u & Ha & _).
  apply assert_Ret_inv in Ha. exact Ha.
Qed.

(** [getOffset<i>] reads element [i] of what [getOffsets] reads. *)
Lemma getOffset_nth {mode} (m : IndexedFileMapper.t mode) (k : Z) (i : nat)
    (offs : list Z) :
  (i < indexCount)%nat ->
  IndexedFileMapper.getOffsets indexCount m k = Ret offs ->
  IndexedFileMapper.getOffset indexCount i m k
  = (assert ((nth i offs 0 <? Mapper.size (IndexedFileMapper.dataFile m))
             || (nth i offs 0 =? InvalidFileIndex)) ;;;
     Ret (nth i offs 0)).
Proof.
  intros Hi H. apply getOffsets_inv in H.
  destruct H as (p & rec & _ & Hp & Hload & ->).
  unfold IndexedFileMapper.getOffset. rewrite Hp. cbn [bind].
  rewrite (load_sub _ p _ (8 * Z.of_nat i) 8 rec Hload)
    by (unfold IndexedFileMapper.unitSize, FileIndex.sizeof; lia).
  cbn [bind]. rewrite nth_decode by exact Hi.
  replace (Z.to_nat (8 * Z.of_nat i)) with (8 * i)%nat by lia.
  reflexivity.
Qed.

End Reading.

(** C6.  For either access mode, an entry [k] and a stream [i < N]:
    whenever the offsets of [k] are read ([getOffsets(k) = offs], which
    implies [k < len()]), [getDataAtIndex<i>(k)] returns the null pointer
    exactly when [offs[i]] is [InvalidFileIndex]; the offsets of every
    [k < len()] are read when the mapping of the index file ends on a
    record boundary; and [getDataAtOffset(InvalidFileIndex)] is the null
    pointer on every store. *)
Theorem absent_iff_invalid :
  forall (mode : mio.access_mode) (indexCount : nat)
         (m : IndexedFileMapper.t mode) (k : Z) (i : nat),
    (i < indexCount)%nat ->
    (forall offs,
        IndexedFileMapper.getOffsets indexCount m k = Ret offs ->
        (k <? IndexedFileMapper.size indexCount m) = true
        /\ (IndexedFileMapper.getDataAtIndex indexCount i m k = Ret nullptr
            <-> nth i offs 0 = InvalidFileIndex))
    /\ (0 <= k < IndexedFileMapper.size indexCount m ->
        zlen (mapped (FixedSizeFileMapper.dataFile (IndexedFileMapper.indexFile m)))
        + zlen (buffered (FixedSizeFileMapper.dataFile (IndexedFileMapper.indexFile m)))
          <= InvalidFileIndex ->
        (IndexedFileMapper.unitSize indexCount
         | zlen (mapped (FixedSizeFileMapper.dataFile (IndexedFileMapper.indexFile m)))) ->
        exists offs, IndexedFileMapper.getOffsets indexCount m k = Ret offs)
    /\ (forall d : mapper mode,
          Mapper.getDataAtOffset d InvalidFileIndex = Ret nullptr).
Proof.
  intros mode indexCount m k i Hi.
  split; [|split; [|intros d; apply mapper_getDataAtOffset_invalid]].
  - intros offs Hoffs.
    pose proof (getOffsets_inv indexCount m k offs Hoffs) as (_ & _ & Hk & _).
    split; [exact Hk|].
    unfold IndexedFileMapper.getDataAtIndex.
    rewrite Hk, (getOffset_nth indexCount m k i offs Hi Hoffs). cbn [assert bind].
    split.
    + intros H. apply bind_Ret_inv in H. destruct H as (o & Ho & Hp).
      apply bind_Ret_inv in Ho. destruct Ho as (_ & _ & Ho).
      apply Ret_inj in Ho. subst o.
      apply mapper_getDataAtOffset_null in Hp. exact Hp.
    + intros ->. rewrite Z.eqb_refl, orb_true_r. cbn [assert bind].
      apply mapper_getDataAtOffset_invalid.
  - intros Hk Hfit Hdiv.
    assert (HU : 0 < IndexedFileMapper.unitSize indexCount)
      by (unfold IndexedFileMapper.unitSize, FileIndex.sizeof; lia).
    destruct m as [dat [idx]].
    cbn [IndexedFileMapper.indexFile FixedSizeFileMapper.dataFile] in *.
    destruct (read_on_boundary _ idx k HU Hfit Hdiv Hk) as (rec & Hr).
    unfold IndexedFileMapper.getOffsets. cbn [IndexedFileMapper.indexFile].
    rewrite Hr. cbn [bind]. eauto.
Qed.

(** An entry whose stream 0 is at offset 0 and whose stream 1 is absent. *)
Lemma absent_iff_invalid_witness :
  IndexedFileMapper.getOffsets 2
    (IndexedFileMapper.open [x2a] (FileIndex.encode [0; InvalidFileIndex])) 0
  = Ret [0; InvalidFileIndex]
  /\ IndexedFileMapper.getDataAtIndex 2 0
       (IndexedFileMapper.open [x2a] (FileIndex.encode [0; InvalidFileIndex])) 0
     = Ret (in_file 0)
  /\ (IndexedFileMapper.getDataAtIndex 2 1
        (IndexedFileMapper.open [x2a] (FileIndex.encode [0; InvalidFileIndex])) 0
      = Ret nullptr
      <-> nth 1 [0; InvalidFileIndex] 0 = InvalidFileIndex).
Proof.
  split; [reflexivity|]. split; [reflexivity|].
  assert (Hi : (1 < 2)%nat) by lia.
  exact (proj2 (proj1 (absent_iff_invalid mio.write 2
    (IndexedFileMapper.open [x2a] (FileIndex.encode [0; InvalidFileIndex]))
    0 1%nat Hi) [0; InvalidFileIndex] eq_refl)).
Defined.

Example absent_in_read_mode :
  let m := IndexedFileMapper.mk (mode := mio.read)
             (SimpleFileMapperBase.mk [x2a])
             (FixedSizeFileMapper.mk (mode := mio.read)
                (SimpleFileMapperBase.mk (FileIndex.encode [0; InvalidFileIndex]))) in
  IndexedFileMapper.getDataAtIndex 2 1 m 0 = Ret nullptr
  /\ IndexedFileMapper.getDataAtIndex 2 0 m 0 = Ret (in_file 0).
Proof. split; reflexivity. Qed.

End IndexedReadFacts.

(** ** The object representation of offsets *)

Module FileIndexFacts.
Import FileIndex.

Lemma Z_of_byte_of_Z (z : Z) : Z_of_byte (byte_of_Z z) = z mod 256.
Proof.
  unfold Z_of_byte, byte_of_Z.
  pose proof (Z.mod_pos_bound z 256 eq_refl) as Hb.
  destruct (Byte.of_N (Z.to_N (z mod 256))) as [b|] eqn:E.
  - apply Byte.to_of_N in E. rewrite E. lia.
  - apply Byte.of_N_None_iff in E. lia.
Qed.

Lemma le_decode_encode (n : nat) (z : Z) :
  le_decode (le_encode n z) = z mod 256 ^ Z.of_nat n.
Proof.
  revert z. induction n as [|n IH]; intros z.
  - simpl. rewrite Z.mod_1_r. reflexivity.
  - cbn [le_encode le_decode]. rewrite Z_of_byte_of_Z, IH.
    rewrite Nat2Z.inj_succ, Z.pow_succ_r by lia.
    rewrite Z.rem_mul_r by lia. reflexivity.
Qed.

Lemma length_le_encode (n : nat) (z : Z) : length (le_encode n z) = n.
Proof. revert z. induction n; intros z; simpl; auto. Qed.

Lemma length_encode_offset (z : Z) : length (encode_offset z) = 8%nat.
Proof. apply length_le_encode. Qed.

Lemma decode_encode_offset (z : Z) :
  is_offset z -> decode_offset (encode_offset z) = z.
Proof.
  unfold is_offset, decode_offset, encode_offset. intros Hz.
  rewrite le_decode_encode.
  change (256 ^ Z.of_nat 8) with two64.
  unfold u64. rewrite Z.mod_mod by discriminate.
  unfold i64. rewrite Zplus_mod_idemp_l.
  rewrite InvalidFileIndex_eq, two63_eq, two64_eq in *.
  rewrite Z.mod_small; lia.
Qed.

Lemma zlen_encode (l : list Z) : zlen (encode l) = 8 * zlen l.
Proof.
  unfold encode, zlen. induction l as [|a l IH]; [reflexivity|].
  cbn [flat_map]. rewrite length_app, length_encode_offset.
  cbn [length]. lia.
Qed.

Lemma firstn_encode_cons (a : Z) (l : list Z) :
  firstn 8 (encode (a :: l)) = encode_offset a.
Proof.
  unfold encode. cbn [flat_map].
  rewrite <- (length_encode_offset a) at 1.
  rewrite firstn_app, firstn_all, Nat.sub_diag, firstn_O. apply app_nil_r.
Qed.

Lemma skipn_encode_cons (a : Z) (l : list Z) :
  skipn 8 (encode (a :: l)) = encode l.
Proof.
  unfold encode. cbn [flat_map].
  rewrite <- (length_encode_offset a) at 1.
  rewrite skipn_app, skipn_all, Nat.sub_diag. reflexivity.
Qed.

Lemma decode_encode (l : list Z) :
  Forall is_offset l -> decode (length l) (encode l) = l.
Proof.
  induction 1 as [|a l Ha _ IH]; [reflexivity|].
  cbn [length decode].
  rewrite firstn_encode_cons, skipn_encode_cons, IH, decode_encode_offset by exact Ha.
  reflexivity.
Qed.

Lemma is_offset_Invalid : is_offset InvalidFileIndex.
Proof. unfold is_offset. rewrite InvalidFileIndex_eq, two63_eq. lia. Qed.

End FileIndexFacts.

(** ** [IndexedFileMapper]: truncating and appending *)

Module IndexedWriteFacts.
Import StoreSpec.
Import SimpleFileMapperFacts ArrayStoreFacts RoundTripFacts IndexedReadFacts.

Lemma truncate_size (d : SimpleFileMapper.t) (offset : Z) :
  0 <= offset <= InvalidFileIndex ->
  SimpleFileMapper.size (SimpleFileMapper.truncate d offset) = offset.
Proof.
  intros H. unfold SimpleFileMapper.size, SimpleFileMapper.truncate.
  cbn [SimpleFileMapper.file SimpleFileMapper.buffer].
  rewrite zlen_resize. change (zlen (@nil byte)) with 0.
  rewrite Z.max_r, !i64_small by bounds. lia.
Qed.

Section Truncating.

Variable indexCount : nat.
Hypothesis indexCount_pos : (1 <= indexCount)%nat.

Lemma unitSize_pos : 0 < IndexedFileMapper.unitSize indexCount.
Proof. unfold IndexedFileMapper.unitSize, FileIndex.sizeof. lia. Qed.

Lemma getOffsets_aligned (m : IndexedFileMapper.t mio.write) (k : Z) :
  let idx := FixedSizeFileMapper.dataFile (IndexedFileMapper.indexFile m) in
  zlen (contents idx) <= InvalidFileIndex ->
  (IndexedFileMapper.unitSize indexCount | zlen (SimpleFileMapper.file idx)) ->
  0 <= k < IndexedFileMapper.size indexCount m ->
  exists rec,
    slice (contents idx) (k * IndexedFileMapper.unitSize indexCount)
      (IndexedFileMapper.unitSize indexCount) = Ret rec
    /\ IndexedFileMapper.getOffsets indexCount m k
       = Ret (FileIndex.decode indexCount rec).
Proof.
  intros idx Hfit Hdiv Hk.
  destruct m as [d [i]]. cbn in idx. subst idx.
  unfold IndexedFileMapper.size in Hk. cbn [IndexedFileMapper.indexFile] in *.
  destruct (read_aligned _ i k unitSize_pos Hfit Hdiv Hk) as (rec & Hs & Hr).
  exists rec. split; [exact Hs|].
  unfold IndexedFileMapper.getOffsets. cbn [IndexedFileMapper.indexFile].
  rewrite Hr. reflexivity.
Qed.

End Truncating.

(** C7.  For a store with at least one stream and [k < len()]:
    [truncate(k)] with [getOffsets(k) = offs] returns the store whose index
    file is [indexFile.truncate(k)] and whose data file is
    [dataFile.truncate(offs[0])]; then [len()] is [k] and the data store
    has [offs[0]] bytes.  The offsets of [k] can be read whenever the
    mapping of the index file ends on a record boundary. *)
Theorem truncate_to_index :
  forall (indexCount : nat) (m : IndexedFileMapper.t mio.write) (k : Z),
    (1 <= indexCount)%nat ->
    zlen (contents (FixedSizeFileMapper.dataFile (IndexedFileMapper.indexFile m)))
      <= InvalidFileIndex ->
    0 <= k < IndexedFileMapper.size indexCount m ->
    (forall offs,
        IndexedFileMapper.getOffsets indexCount m k = Ret offs ->
        exists m',
          IndexedFileMapper.truncate indexCount m k = Ret m'
          /\ IndexedFileMapper.indexFile m'
             = FixedSizeFileMapper.truncate (IndexedFileMapper.unitSize indexCount)
                 (IndexedFileMapper.indexFile m) k
          /\ IndexedFileMapper.dataFile m'
             = SimpleFileMapper.truncate (IndexedFileMapper.dataFile m) (nth 0 offs 0)
          /\ IndexedFileMapper.size indexCount m' = k
          /\ (0 <= nth 0 offs 0 ->
              SimpleFileMapper.size (IndexedFileMapper.dataFile m') = nth 0 offs 0))
    /\ ((IndexedFileMapper.unitSize indexCount
         | zlen (SimpleFileMapper.file
                   (FixedSizeFileMapper.dataFile (IndexedFileMapper.indexFile m)))) ->
        exists offs, IndexedFileMapper.getOffsets indexCount m k = Ret offs).
Proof.
  intros indexCount m k HN Hfit Hk. split.
  - intros offs Hoffs.
    unfold IndexedFileMapper.truncate.
    destruct (Z.ltb_spec k (IndexedFileMapper.size indexCount m)) as [_|H]; [|lia].
    rewrite Hoffs. cbn [bind]. eexists. split; [reflexivity|].
    cbn [IndexedFileMapper.indexFile IndexedFileMapper.dataFile].
    split; [reflexivity|]. split; [reflexivity|]. split.
    + pose proof (unitSize_pos indexCount HN) as HU.
      unfold IndexedFileMapper.size, FixedSizeFileMapper.size in *.
      cbn [IndexedFileMapper.indexFile FixedSizeFileMapper.truncate
             FixedSizeFileMapper.dataFile Mapper.size] in *.
      rewrite size_contents in Hk by exact Hfit.
      pose proof (quot_bound _ _ _ HU (zlen_nonneg _) Hk) as Hrec.
      unfold FixedSizeFileMapper.getPos.
      rewrite truncate_size by nia. apply Z.quot_mul. lia.
    + intros Ho. apply truncate_size. split; [exact Ho|].
      apply getOffsets_inv in Hoffs. destruct Hoffs as (p & rec & _ & _ & _ & ->).
      rewrite nth_decode by lia. apply i64_range.
  - intros Hdiv.
    destruct (getOffsets_aligned indexCount HN m k Hfit Hdiv Hk) as (rec & _ & H).
    eauto.
Qed.

(** Two entries at data offsets 0 and 3; truncating at entry 1 leaves one
    entry and three data bytes. *)
Lemma truncate_to_index_witness :
  exists m',
    IndexedFileMapper.truncate 1
      (IndexedFileMapper.open [x0a; x0b; x0c; x0d; x0e] (FileIndex.encode [0; 3])) 1
    = Ret m'
    /\ IndexedFileMapper.size 1 m' = 1
    /\ SimpleFileMapper.size (IndexedFileMapper.dataFile m') = 3
    /\ SimpleFileMapper.file (IndexedFileMapper.dataFile m') = [x0a; x0b; x0c].
Proof.
  assert (HN : (1 <= 1)%nat) by lia.
  assert (Hfit : zlen (contents (FixedSizeFileMapper.dataFile
            (IndexedFileMapper.indexFile
               (IndexedFileMapper.open [x0a; x0b; x0c; x0d; x0e]
                  (FileIndex.encode [0; 3]))))) <= InvalidFileIndex)
    by (vm_compute; congruence).
  assert (Hk : 0 <= 1 < IndexedFileMapper.size 1
            (IndexedFileMapper.open [x0a; x0b; x0c; x0d; x0e]
               (FileIndex.encode [0; 3])))
    by (vm_compute; split; congruence).
  destruct (proj1 (truncate_to_index 1 _ 1 HN Hfit Hk) [3] eq_refl)
    as (m' & Ht & _ & Hd & Hlen & Hsize).
  exists m'. split; [exact Ht|]. split; [exact Hlen|].
  split; [apply Hsize; simpl; lia|]. rewrite Hd. reflexivity.
Defined.

(** *** Appending at the end, slices and patches *)

Lemma write_at_end_contents (maxBuf : Z) (m : SimpleFileMapper.t) (v : list byte) :
  at_end m -> zlen (contents m) + zlen v <= InvalidFileIndex ->
  exists b m',
    SimpleFileMapper.write maxBuf m v = Ret (b, m')
    /\ contents m' = contents m ++ v
    /\ at_end m'
    /\ (SimpleFileMapper.file m' = SimpleFileMapper.file m
        \/ SimpleFileMapper.file m' = contents m ++ v).
Proof.
  intros Hend Hfit.
  assert (Hbd : bounded m (zlen v)).
  { unfold bounded. rewrite Hend. pose proof (zlen_nonneg (contents m)).
    repeat split; lia. }
  rewrite (write_at_end maxBuf m v Hbd Hend).
  unfold flushed_if_full, extended. cbn [SimpleFileMapper.buffer].
  unfold at_end in *.
  destruct (maxBuf <? zlen (SimpleFileMapper.buffer m ++ v));
    do 2 eexists; (split; [reflexivity|]);
    unfold contents, SimpleFileMapper.clearBuffer in *;
    cbn [SimpleFileMapper.file SimpleFileMapper.buffer SimpleFileMapper.writePos];
    rewrite ?app_nil_r, ?app_assoc, ?zlen_app in *;
    repeat split; auto; lia.
Qed.

Lemma slice_firstn (mem : list byte) (k off n : Z) :
  0 <= off -> 0 <= n -> off + n <= k <= zlen mem ->
  slice (firstn (Z.to_nat k) mem) off n = slice mem off n.
Proof.
  intros Ho Hn Hk.
  rewrite <- (firstn_skipn (Z.to_nat k) mem) at 2.
  rewrite slice_app_l; [reflexivity | lia | lia |].
  rewrite zlen_firstn by lia. lia.
Qed.

Lemma slice_patch_before (mem : list byte) (pos : Z) (data : list byte) (off n : Z) :
  0 <= off -> 0 <= n -> off + n <= pos -> pos + zlen data <= zlen mem ->
  slice (patch mem pos data) off n = slice mem off n.
Proof.
  intros Ho Hn Hb Hfit. pose proof (zlen_nonneg data). unfold patch.
  rewrite slice_app_l by (rewrite ?zlen_firstn; lia).
  apply slice_firstn; lia.
Qed.

Lemma slice_patch_after (mem : list byte) (pos : Z) (data : list byte) (off n : Z) :
  0 <= pos -> pos + zlen data <= off -> pos + zlen data <= zlen mem ->
  slice (patch mem pos data) off n = slice mem off n.
Proof.
  intros Hp Ha Hfit. pose proof (zlen_nonneg data). unfold patch.
  rewrite app_assoc.
  rewrite slice_app_r' by (rewrite zlen_app, zlen_firstn; lia).
  rewrite zlen_app, zlen_firstn by lia.
  rewrite <- (firstn_skipn (Z.to_nat (pos + zlen data)) mem) at 2.
  rewrite slice_app_r' by (rewrite zlen_firstn; lia).
  rewrite zlen_firstn by lia. reflexivity.
Qed.

Lemma patch_app_l (a rest : list byte) (pos : Z) (data : list byte) :
  0 <= pos -> pos + zlen data <= zlen a ->
  patch (a ++ rest) pos data = patch a pos data ++ rest.
Proof.
  intros Hp Hfit. pose proof (zlen_nonneg data). unfold patch, zlen in *.
  rewrite firstn_app, skipn_app.
  replace (Z.to_nat pos - length a)%nat with 0%nat by lia.
  replace (Z.to_nat (pos + Z.of_nat (length data)) - length a)%nat with 0%nat by lia.
  rewrite firstn_O, app_nil_r, skipn_O, <- !app_assoc. reflexivity.
Qed.

Lemma patch_app_r (a rest : list byte) (pos : Z) (data : list byte) :
  0 <= pos ->
  patch (a ++ rest) (zlen a + pos) data = a ++ patch rest pos data.
Proof.
  intros Hp. pose proof (zlen_nonneg data). unfold patch, zlen in *.
  rewrite firstn_app, skipn_app.
  rewrite firstn_all2, skipn_all2 by lia.
  replace (Z.to_nat (Z.of_nat (length a) + pos) - length a)%nat
    with (Z.to_nat pos) by lia.
  replace (Z.to_nat (Z.of_nat (length a) + pos + Z.of_nat (length data)) - length a)%nat
    with (Z.to_nat (pos + Z.of_nat (length data))) by lia.
  rewrite <- !app_assoc. reflexivity.
Qed.

(** Writing [data] into the field at [off] of record [a], through the
    pointer that [operator[]] returns. *)
Lemma store_record_field (sizeofT : Z) (d : SimpleFileMapper.t) (a off : Z)
    (data : list byte) :
  0 < sizeofT -> zlen (contents d) <= InvalidFileIndex ->
  (sizeofT | zlen (SimpleFileMapper.file d)) ->
  0 <= a < FixedSizeFileMapper.size sizeofT (FixedSizeFileMapper.mk (mode := mio.write) d) ->
  0 <= off -> off + zlen data <= sizeofT ->
  exists p d',
    FixedSizeFileMapper.operator_index sizeofT
      (FixedSizeFileMapper.mk (mode := mio.write) d) a = Ret p
    /\ SimpleFileMapper.store d (ptr_add p off) data = Ret d'
    /\ contents d' = patch (contents d) (a * sizeofT + off) data
    /\ zlen (SimpleFileMapper.file d') = zlen (SimpleFileMapper.file d)
    /\ SimpleFileMapper.writePos d' = SimpleFileMapper.writePos d.
Proof.
  intros HS Hfit (q & Hq) Ha Hoff Hdata. pose proof (zlen_nonneg data) as Hdn.
  unfold FixedSizeFileMapper.operator_index, FixedSizeFileMapper.getPos.
  rewrite assert_true by (apply Z.ltb_lt; lia). cbn [bind].
  unfold FixedSizeFileMapper.size in Ha.
  cbn [FixedSizeFileMapper.dataFile Mapper.size Mapper.getDataAtOffset] in *.
  rewrite size_contents in Ha by exact Hfit.
  pose proof (quot_bound _ _ _ HS (zlen_nonneg (contents d)) Ha) as Hrec.
  rewrite getDataAtOffset_in_range by (try exact Hfit; nia).
  unfold contents in *. rewrite zlen_app in *.
  pose proof (zlen_nonneg (SimpleFileMapper.buffer d)) as Hb.
  destruct (Z.ltb_spec (a * sizeofT) (zlen (SimpleFileMapper.file d))) as [Hlt|Hge].
  - assert (Hin : a * sizeofT + sizeofT <= zlen (SimpleFileMapper.file d)).
    { rewrite Hq in *. assert (a < q) by nia. nia. }
    do 2 eexists. split; [reflexivity|].
    cbn [ptr_add SimpleFileMapper.store].
    rewrite overwrite_patch by nia. cbn [bind]. split; [reflexivity|].
    cbn [SimpleFileMapper.file SimpleFileMapper.buffer SimpleFileMapper.writePos].
    rewrite patch_app_l, zlen_patch by nia. auto.
  - do 2 eexists. split; [reflexivity|].
    cbn [ptr_add SimpleFileMapper.store].
    rewrite overwrite_patch by nia. cbn [bind]. split; [reflexivity|].
    cbn [SimpleFileMapper.file SimpleFileMapper.buffer SimpleFileMapper.writePos].
    replace (a * sizeofT + off)
      with (zlen (SimpleFileMapper.file d)
            + (a * sizeofT - zlen (SimpleFileMapper.file d) + off)) by lia.
    rewrite patch_app_r by lia. auto.
Qed.

(** *** The entries of a multi-stream store *)

Section Committed.

Import MultiStream.

Variable indexCount : nat.
Variable alignof : nat -> Z.
Variable maxBuf : Z.
Hypothesis indexCount_pos : (1 <= indexCount)%nat.

Local Abbreviation unit := (IndexedFileMapper.unitSize indexCount).
Local Abbreviation committed := (MultiStream.committed indexCount).

Lemma unit_eq : unit = 8 * Z.of_nat indexCount.
Proof. reflexivity. Qed.

Lemma zlen_newFileIndex (c : Z) :
  zlen (FileIndex.encode (IndexedFileMapper.newFileIndex indexCount c)) = unit.
Proof.
  rewrite FileIndexFacts.zlen_encode. unfold IndexedFileMapper.newFileIndex, zlen.
  cbn [length]. rewrite repeat_length, unit_eq. lia.
Qed.

Lemma length_newFileIndex (c : Z) :
  length (IndexedFileMapper.newFileIndex indexCount c) = indexCount.
Proof.
  unfold IndexedFileMapper.newFileIndex. cbn [length].
  rewrite repeat_length. lia.
Qed.

Lemma newFileIndex_offsets (c : Z) :
  0 <= c <= InvalidFileIndex ->
  Forall is_offset (IndexedFileMapper.newFileIndex indexCount c).
Proof.
  intros Hc. unfold IndexedFileMapper.newFileIndex. constructor.
  - unfold is_offset. consts. lia.
  - apply Forall_forall. intros x Hx. apply repeat_spec in Hx. subst x.
    apply FileIndexFacts.is_offset_Invalid.
Qed.

Lemma committed_len (offs0 : list Z) (m : IndexedFileMapper.t mio.write) :
  committed offs0 m -> IndexedFileMapper.size indexCount m = zlen offs0.
Proof.
  intros (_ & _ & _ & Hfit & _ & Hlen & _).
  unfold IndexedFileMapper.size, FixedSizeFileMapper.size.
  cbn [Mapper.size]. rewrite size_contents, Hlen by exact Hfit.
  rewrite Z.mul_comm. apply Z.quot_mul. pose proof (unitSize_pos indexCount indexCount_pos). lia.
Qed.

(** Every committed entry can be read, and its stream-0 offset is the one
    the invariant names. *)
Lemma committed_getOffsets (offs0 : list Z) (m : IndexedFileMapper.t mio.write) (k : nat) :
  committed offs0 m -> (k < length offs0)%nat ->
  exists offs,
    IndexedFileMapper.getOffsets indexCount m (Z.of_nat k) = Ret offs
    /\ nth 0 offs 0 = nth k offs0 0.
Proof.
  intros Hc Hk. pose proof (committed_len offs0 m Hc) as Hsize.
  destruct Hc as (_ & _ & _ & Hfit & Hdiv & Hlen & Hrec & _).
  destruct (getOffsets_aligned indexCount indexCount_pos m (Z.of_nat k) Hfit Hdiv)
    as (rec & Hs & Hget); [rewrite Hsize; unfold zlen; lia|].
  exists (FileIndex.decode indexCount rec). split; [exact Hget|].
  destruct (Hrec k Hk) as (rec8 & Hs8 & Hdec).
  rewrite nth_decode by lia. rewrite <- Hdec. f_equal.
  pose proof (slice_sub _ _ _ 0 8 rec Hs) as Hsub.
  rewrite Z.add_0_r, Hs8 in Hsub.
  apply Ret_inj. rewrite Hsub by (rewrite ?unit_eq; lia). reflexivity.
Qed.

(** [write(t)] on a store with committed entries returns, and commits one
    more entry, at the old end of the data file. *)
Lemma append_total (offs0 : list Z) (m : IndexedFileMapper.t mio.write) (v : list byte) :
  committed offs0 m ->
  admissible indexCount m (Append v) ->
  u64 (zlen v) mod alignof 0%nat = 0 ->
  let c := SimpleFileMapper.getWriteOffset (IndexedFileMapper.dataFile m) in
  exists m',
    IndexedFileMapper.write indexCount alignof maxBuf m v = Ret m'
    /\ committed (offs0 ++ [c]) m'
    /\ contents (IndexedFileMapper.dataFile m')
       = contents (IndexedFileMapper.dataFile m) ++ v
    /\ contents (FixedSizeFileMapper.dataFile (IndexedFileMapper.indexFile m'))
       = contents (FixedSizeFileMapper.dataFile (IndexedFileMapper.indexFile m))
         ++ FileIndex.encode (IndexedFileMapper.newFileIndex indexCount c).
Proof.
  intros Hc (Hv & Hdfit & Hifit) Halign c.
  destruct Hc as (Hdend & Hiend & Hdmax & Himax & Hdiv & Hlen & Hrec & Hmono & Hrange).
  destruct m as [dat [idx]].
  unfold data_fits, index_fits in *.
  cbn [IndexedFileMapper.dataFile IndexedFileMapper.indexFile
         FixedSizeFileMapper.dataFile] in *.
  pose proof (unitSize_pos indexCount indexCount_pos) as HU.
  assert (Hcval : c = zlen (contents dat)) by exact Hdend.
  pose proof (zlen_nonneg (contents dat)) as Hcn.
  set (enc := FileIndex.encode (IndexedFileMapper.newFileIndex indexCount c)).
  assert (Henc : zlen enc = unit) by apply zlen_newFileIndex.
  destruct (write_at_end_contents maxBuf idx enc Hiend)
    as (bi & idx' & Hwi & Hci & Hiend' & Hfile); [rewrite Henc; exact Hifit|].
  destruct (write_at_end_contents maxBuf dat v Hdend Hdfit)
    as (bd & dat' & Hwd & Hcd & Hdend' & _).
  exists (IndexedFileMapper.mk (mode := mio.write) dat'
            (FixedSizeFileMapper.mk (mode := mio.write) idx')).
  split.
  { unfold IndexedFileMapper.write, IndexedFileMapper.writeNewImp.
    rewrite assert_true by (apply Z.eqb_eq; exact Halign). cbn [bind].
    unfold FixedSizeFileMapper.write.
    cbn [IndexedFileMapper.dataFile IndexedFileMapper.indexFile
           FixedSizeFileMapper.dataFile].
    fold c. fold enc. rewrite Hwi. cbn [bind fst snd].
    change (SimpleFileMapper.write_from maxBuf dat v 0 (zlen v))
      with (SimpleFileMapper.write maxBuf dat v).
    rewrite Hwd. reflexivity. }
  split; [|split; assumption].
  unfold MultiStream.committed.
  cbn [IndexedFileMapper.dataFile IndexedFileMapper.indexFile
         FixedSizeFileMapper.dataFile].
  rewrite Hcd, Hci, !zlen_app, Henc, Hlen, length_app. cbn [length].
  split; [exact Hdend'|]. split; [exact Hiend'|].
  split; [lia|]. split; [lia|]. split.
  { destruct Hfile as [-> | ->]; [exact Hdiv|].
    rewrite zlen_app, Henc, Hlen. exists (zlen offs0 + 1). lia. }
  split; [change (zlen [c]) with 1; lia|]. split; [|split].
  - intros k Hk. destruct (Nat.lt_ge_cases k (length offs0)) as [Hold|Hnew].
    + destruct (Hrec k Hold) as (rec & Hs & Hdec).
      exists rec. rewrite app_nth1 by exact Hold. split; [|exact Hdec].
      rewrite slice_app_l; [exact Hs | nia | lia |].
      rewrite Hlen, unit_eq. unfold zlen. nia.
    + assert (k = length offs0) by lia. subst k.
      exists (FileIndex.encode_offset c). rewrite nth_middle. split.
      * rewrite slice_app_r' by (rewrite Hlen; unfold zlen; lia).
        replace (Z.of_nat (length offs0) * unit - zlen (contents idx)) with 0
          by (rewrite Hlen; unfold zlen; lia).
        rewrite slice_Ret by (rewrite ?Henc, ?unit_eq; lia).
        change (Z.to_nat 8) with 8%nat. change (Z.to_nat 0) with 0%nat.
        rewrite skipn_O. unfold enc, IndexedFileMapper.newFileIndex.
        rewrite FileIndexFacts.firstn_encode_cons. reflexivity.
      * apply FileIndexFacts.decode_encode_offset.
        unfold is_offset. consts. lia.
  - intros a b Hab. destruct (Nat.lt_ge_cases b (length offs0)) as [Hold|Hnew].
    + rewrite !app_nth1 by lia. apply Hmono. lia.
    + assert (b = length offs0) by lia. subst b.
      rewrite nth_middle, app_nth1 by lia.
      rewrite Hcval. apply Hrange. lia.
  - intros k Hk. destruct (Nat.lt_ge_cases k (length offs0)) as [Hold|Hnew].
    + rewrite app_nth1 by lia. specialize (Hrange k Hold). lia.
    + assert (k = length offs0) by lia. subst k.
      rewrite nth_middle. lia.
Qed.

(** [write<indexNum>(addressNum, t)] changes no stream-0 offset. *)
Lemma attach_committed (offs0 : list Z) (m m' : IndexedFileMapper.t mio.write)
    (indexNum : nat) (addressNum : Z) (v : list byte) :
  committed offs0 m ->
  admissible indexCount m (Attach indexNum addressNum v) ->
  IndexedFileMapper.write_at indexCount alignof maxBuf indexNum m addressNum v = Ret m' ->
  committed offs0 m'.
Proof.
  intros Hc (Hi & Ha & Hdfit) Hw.
  pose proof (committed_len offs0 m Hc) as Hsize.
  destruct Hc as (Hdend & Hiend & Hdmax & Himax & Hdiv & Hlen & Hrec & Hmono & Hrange).
  destruct m as [dat [idx]].
  unfold data_fits in *.
  cbn [IndexedFileMapper.dataFile IndexedFileMapper.indexFile
         FixedSizeFileMapper.dataFile] in *.
  pose proof (unitSize_pos indexCount indexCount_pos) as HU.
  set (c := SimpleFileMapper.getWriteOffset dat) in *.
  assert (Hd8 : zlen (FileIndex.encode_offset c) = 8)
    by (unfold zlen; rewrite FileIndexFacts.length_encode_offset; reflexivity).
  destruct (store_record_field unit idx addressNum (8 * Z.of_nat indexNum)
              (FileIndex.encode_offset c) HU Himax Hdiv Ha)
    as (p & idx' & Hp & Hst & Hci & Hfl & Hwp);
    [lia | rewrite Hd8, unit_eq; lia |].
  destruct (write_at_end_contents maxBuf dat v Hdend Hdfit)
    as (bd & dat' & Hwd & Hcd & Hdend' & _).
  unfold IndexedFileMapper.write_at, IndexedFileMapper.writeUpdateImp in Hw.
  apply bind_Ret_inv in Hw. destruct Hw as (_ & _ & Hw).
  cbn [IndexedFileMapper.dataFile IndexedFileMapper.indexFile
         FixedSizeFileMapper.dataFile] in Hw.
  fold c in Hw. rewrite Hp in Hw. cbn [bind] in Hw. rewrite Hst in Hw. cbn [bind] in Hw.
  change (SimpleFileMapper.write_from maxBuf dat v 0 (zlen v))
    with (SimpleFileMapper.write maxBuf dat v) in Hw.
  rewrite Hwd in Hw. cbn [bind snd] in Hw. apply Ret_inj in Hw. subst m'.
  unfold MultiStream.committed.
  cbn [IndexedFileMapper.dataFile IndexedFileMapper.indexFile
         FixedSizeFileMapper.dataFile].
  assert (Hplen : zlen (contents idx') = zlen (contents idx)).
  { rewrite Hci. apply zlen_patch; [nia|].
    rewrite Hd8, Hlen, unit_eq. rewrite Hsize in Ha. unfold zlen in *. nia. }
  rewrite Hcd, zlen_app, Hplen, Hfl.
  pose proof (zlen_nonneg v) as Hvn.
  split; [exact Hdend'|]. split.
  { unfold at_end in *. rewrite Hwp, Hplen. exact Hiend. }
  split; [lia|]. split; [lia|]. split; [exact Hdiv|]. split; [exact Hlen|].
  split; [|split].
  - intros k Hk. destruct (Hrec k Hk) as (rec & Hs & Hdec).
    exists rec. split; [|exact Hdec]. rewrite Hci, <- Hs.
    rewrite Hsize in Ha.
    destruct (Z.le_gt_cases (Z.of_nat k) addressNum) as [Hle|Hgt].
    + apply slice_patch_before; rewrite ?Hd8, ?Hlen, ?unit_eq; unfold zlen in *; nia.
    + apply slice_patch_after; rewrite ?Hd8, ?Hlen, ?unit_eq; unfold zlen in *; nia.
  - exact Hmono.
  - intros k Hk. specialize (Hrange k Hk). lia.
Qed.

Lemma truncate_shrink (d : SimpleFileMapper.t) (o : Z) :
  at_end d -> 0 <= o <= zlen (contents d) ->
  contents (SimpleFileMapper.truncate d o) = firstn (Z.to_nat o) (contents d)
  /\ SimpleFileMapper.file (SimpleFileMapper.truncate d o)
     = firstn (Z.to_nat o) (contents d)
  /\ at_end (SimpleFileMapper.truncate d o)
  /\ zlen (contents (SimpleFileMapper.truncate d o)) = o.
Proof.
  intros Hend Ho. unfold at_end in *.
  unfold SimpleFileMapper.truncate, SimpleFileMapper.clearBuffer.
  unfold contents at 1 3 4.
  cbn [SimpleFileMapper.file SimpleFileMapper.buffer SimpleFileMapper.writePos].
  fold (contents d). rewrite !app_nil_r, resize_shrink by lia.
  rewrite zlen_firstn by lia. rewrite Hend, Z.min_r, Z.max_r by lia.
  repeat split. unfold contents.
  cbn [SimpleFileMapper.file SimpleFileMapper.buffer].
  fold (contents d). rewrite app_nil_r. apply zlen_firstn. lia.
Qed.

(** [truncate(k)] keeps the first [k] entries. *)
Lemma truncate_committed (offs0 : list Z) (m m' : IndexedFileMapper.t mio.write) (k : Z) :
  committed offs0 m -> 0 <= k ->
  IndexedFileMapper.truncate indexCount m k = Ret m' ->
  committed (firstn (Z.to_nat k) offs0) m'.
Proof.
  intros Hc Hk Ht. pose proof (committed_len offs0 m Hc) as Hsize.
  unfold IndexedFileMapper.truncate in Ht. rewrite Hsize in Ht.
  destruct (Z.ltb_spec k (zlen offs0)) as [Hlt|Hge].
  2:{ apply Ret_inj in Ht. subst m'.
      rewrite firstn_all2 by (unfold zlen in Hge; lia). exact Hc. }
  assert (Hkn : (Z.to_nat k < length offs0)%nat) by (unfold zlen in Hlt; lia).
  destruct (committed_getOffsets offs0 m (Z.to_nat k) Hc Hkn) as (offs & Hget & Ho).
  rewrite Z2Nat.id in Hget by exact Hk. rewrite Hget in Ht. cbn [bind] in Ht.
  apply Ret_inj in Ht. subst m'. rewrite Ho. clear Hget Ho offs.
  destruct Hc as (Hdend & Hiend & Hdmax & Himax & Hdiv & Hlen & Hrec & Hmono & Hrange).
  destruct m as [dat [idx]].
  cbn [IndexedFileMapper.dataFile IndexedFileMapper.indexFile
         FixedSizeFileMapper.dataFile FixedSizeFileMapper.truncate] in *.
  pose proof (unitSize_pos indexCount indexCount_pos) as HU.
  pose proof (Hrange (Z.to_nat k) Hkn) as Hok.
  set (o := nth (Z.to_nat k) offs0 0) in *.
  unfold FixedSizeFileMapper.getPos.
  destruct (truncate_shrink dat o Hdend) as (Hcd & _ & Hde & Hzd); [lia|].
  destruct (truncate_shrink idx (k * unit) Hiend) as (Hci & Hfi & Hie & Hzi);
    [rewrite Hlen; nia|].
  assert (Hfk : length (firstn (Z.to_nat k) offs0) = Z.to_nat k)
    by (rewrite length_firstn; lia).
  unfold MultiStream.committed, FixedSizeFileMapper.truncate,
    FixedSizeFileMapper.getPos.
  cbn [IndexedFileMapper.dataFile IndexedFileMapper.indexFile
         FixedSizeFileMapper.dataFile].
  rewrite Hzd, Hzi, Hfi, Hci, Hfk.
  split; [exact Hde|]. split; [exact Hie|].
  split; [lia|]. split; [nia|]. split.
  { rewrite zlen_firstn by (rewrite Hlen; nia). apply Z.divide_factor_r. }
  split; [unfold zlen; rewrite Hfk; lia|].
  split; [|split].
  - intros j Hj. destruct (Hrec j) as (rec & Hs & Hdec); [lia|].
    exists rec. rewrite nth_firstn.
    destruct (Nat.ltb_spec j (Z.to_nat k)) as [_|H]; [|lia].
    split; [|exact Hdec]. rewrite <- Hs.
    apply slice_firstn; rewrite ?Hlen, ?unit_eq; nia.
  - intros a b Hab. rewrite !nth_firstn.
    destruct (Nat.ltb_spec a (Z.to_nat k)) as [_|H]; [|lia].
    destruct (Nat.ltb_spec b (Z.to_nat k)) as [_|H]; [|lia].
    apply Hmono. lia.
  - intros j Hj. rewrite nth_firstn.
    destruct (Nat.ltb_spec j (Z.to_nat k)) as [_|H]; [|lia].
    split; [apply Hrange; lia|]. apply Hmono. lia.
Qed.

Lemma clearBuffer_keeps (d : SimpleFileMapper.t) :
  contents (SimpleFileMapper.clearBuffer d) = contents d
  /\ SimpleFileMapper.file (SimpleFileMapper.clearBuffer d) = contents d
  /\ (at_end d -> at_end (SimpleFileMapper.clearBuffer d)).
Proof.
  unfold at_end, SimpleFileMapper.clearBuffer, contents.
  cbn [SimpleFileMapper.file SimpleFileMapper.buffer SimpleFileMapper.writePos].
  rewrite app_nil_r. auto.
Qed.

Lemma seekEnd_at_end (d : SimpleFileMapper.t) :
  zlen (contents d) <= InvalidFileIndex -> at_end d ->
  SimpleFileMapper.seekEnd d = d.
Proof.
  unfold at_end, contents. rewrite zlen_app. intros Hfit Hend.
  destruct d as [f b w]. unfold SimpleFileMapper.seekEnd.
  cbn [SimpleFileMapper.file SimpleFileMapper.buffer SimpleFileMapper.writePos] in *.
  rewrite (i64_small (zlen b)), i64_small by bounds. f_equal. lia.
Qed.

Lemma clearBuffer_committed (offs0 : list Z) (m : IndexedFileMapper.t mio.write) :
  committed offs0 m -> committed offs0 (IndexedFileMapper.clearBuffer m).
Proof.
  intros (Hdend & Hiend & Hdmax & Himax & Hdiv & Hlen & Hrec & Hmono & Hrange).
  destruct m as [dat [idx]].
  cbn [IndexedFileMapper.dataFile IndexedFileMapper.indexFile
         FixedSizeFileMapper.dataFile] in *.
  destruct (clearBuffer_keeps dat) as (Hcd & _ & Hde).
  destruct (clearBuffer_keeps idx) as (Hci & Hfi & Hie).
  unfold MultiStream.committed, IndexedFileMapper.clearBuffer,
    FixedSizeFileMapper.clearBuffer.
  cbn [IndexedFileMapper.dataFile IndexedFileMapper.indexFile
         FixedSizeFileMapper.dataFile].
  rewrite Hcd, Hci, Hfi, Hlen.
  split; [auto|]. split; [auto|]. split; [lia|]. split; [lia|].
  split; [apply Z.divide_factor_l|]. split; [reflexivity|].
  auto.
Qed.

Lemma apply_committed (offs0 : list Z) (m m' : IndexedFileMapper.t mio.write) (o : op) :
  committed offs0 m ->
  admissible indexCount m o ->
  MultiStream.apply indexCount alignof maxBuf m o = Ret m' ->
  exists offs0', committed offs0' m'.
Proof.
  intros Hc Hadm Happ. destruct o as [v | i a v | k | | | ]; cbn [MultiStream.apply] in Happ.
  - assert (Halign : u64 (zlen v) mod alignof 0%nat = 0).
    { unfold IndexedFileMapper.write, IndexedFileMapper.writeNewImp in Happ.
      apply bind_Ret_inv in Happ. destruct Happ as (u & Ha & _).
      apply assert_Ret_inv in Ha. apply Z.eqb_eq. exact Ha. }
    destruct (append_total offs0 m v Hc Hadm Halign) as (m'' & Hw & Hc' & _).
    rewrite Hw in Happ. apply Ret_inj in Happ. subst m''. eauto.
  - exists offs0. exact (attach_committed offs0 m m' i a v Hc Hadm Happ).
  - eexists. exact (truncate_committed offs0 m m' k Hc Hadm Happ).
  - apply Ret_inj in Happ. subst m'. exists offs0. apply clearBuffer_committed. exact Hc.
  - apply Ret_inj in Happ. subst m'. exists offs0. apply clearBuffer_committed. exact Hc.
  - apply Ret_inj in Happ. subst m'. exists offs0.
    pose proof Hc as (Hdend & Hiend & Hdmax & Himax & _).
    destruct m as [dat [idx]].
    unfold IndexedFileMapper.seekEnd, FixedSizeFileMapper.seekEnd.
    cbn [IndexedFileMapper.dataFile IndexedFileMapper.indexFile
           FixedSizeFileMapper.dataFile] in *.
    rewrite !seekEnd_at_end by assumption. exact Hc.
Qed.

Lemma reachable_committed (m : IndexedFileMapper.t mio.write) :
  reachable indexCount alignof maxBuf m -> exists offs0, committed offs0 m.
Proof.
  induction 1 as [dataBytes indexBytes offs0 m _ Hopen | m m' o _ (offs0 & IH) Hadm Happ].
  - exists offs0. exact Hopen.
  - exact (apply_committed offs0 m m' o IH Hadm Happ).
Qed.

End Committed.

(** A store with two streams opened on one committed entry (one data
    byte at offset 0, stream 1 absent). *)
Lemma one_entry_committed :
  MultiStream.committed 2 [0]
    (IndexedFileMapper.open [x2a] (FileIndex.encode [0; InvalidFileIndex])).
Proof.
  unfold MultiStream.committed. cbv zeta.
  split; [reflexivity|]. split; [reflexivity|].
  split; [vm_compute; congruence|]. split; [vm_compute; congruence|].
  split; [exists 1; reflexivity|]. split; [reflexivity|].
  split; [|split].
  - intros k Hk. cbn [length] in Hk. assert (k = 0%nat) by lia. subst k.
    eexists. split; reflexivity.
  - intros a b Hab. cbn [length] in Hab. lia.
  - intros k Hk. cbn [length] in Hk. assert (k = 0%nat) by lia. subst k.
    vm_compute. split; congruence.
Qed.

(** C5, as the claim words it ("for every MultiStreamStore"), fails: on a
    store with one entry, after [seek(0, 0)], [write(t)] overwrites entry 0
    and [len()] stays 1. *)
Lemma append_after_seek_keeps_len :
  exists m',
    IndexedFileMapper.write 1 (fun _ => 1) SimpleFileMapper.maxBufferSize
      (IndexedFileMapper.seek 1
         (IndexedFileMapper.open [x2a] (FileIndex.encode [0])) 0 0)
      [x2b]
    = Ret m'
    /\ IndexedFileMapper.size 1
         (IndexedFileMapper.seek 1
            (IndexedFileMapper.open [x2a] (FileIndex.encode [0])) 0 0) = 1
    /\ IndexedFileMapper.size 1 m' = 1.
Proof. eexists. repeat split; vm_compute; reflexivity. Qed.

(** Two streams, one entry of two bytes on disk: attach to stream 1 of
    entry 0, append, and truncate at entry 1. *)
Example append_attach_truncate :
  (m2 <- IndexedFileMapper.write_at 2 (fun _ => 1) 100 1
           (IndexedFileMapper.open [x0a; x0b] (FileIndex.encode [0; InvalidFileIndex]))
           0 [x0c] ;;
   m3 <- IndexedFileMapper.write 2 (fun _ => 1) 100 m2 [x0d; x0e] ;;
   o0 <- IndexedFileMapper.getOffsets 2 m3 0 ;;
   o1 <- IndexedFileMapper.getOffsets 2 m3 1 ;;
   m4 <- IndexedFileMapper.truncate 2 m3 1 ;;
   Ret (o0, o1, IndexedFileMapper.size 2 m4,
        contents (IndexedFileMapper.dataFile m4)))
  = Ret ([0; 2], [3; InvalidFileIndex], 1, [x0a; x0b; x0c]).
Proof. reflexivity. Qed.

End IndexedWriteFacts.

(** ** What a returning [write] leaves behind *)

Module ByteStoreFacts.
Import StoreSpec.
Import SimpleFileMapperFacts RoundTripFacts IndexedReadFacts IndexedWriteFacts.

Lemma slice_patch_self (mem : list byte) (pos : Z) (data : list byte) :
  0 <= pos -> pos + zlen data <= zlen mem ->
  slice (patch mem pos data) pos (zlen data) = Ret data.
Proof.
  intros Hp Hfit. pose proof (zlen_nonneg data). unfold patch.
  rewrite slice_app_r' by (rewrite zlen_firstn; lia).
  rewrite zlen_firstn, Z.sub_diag by lia.
  rewrite slice_app_l by lia. apply slice_all.
Qed.

Lemma contents_flushed_if_full (maxBuf : Z) (m1 : SimpleFileMapper.t) :
  contents (snd (flushed_if_full maxBuf m1)) = contents m1
  /\ SimpleFileMapper.writePos (snd (flushed_if_full maxBuf m1))
     = SimpleFileMapper.writePos m1.
Proof.
  unfold flushed_if_full. cbn [snd].
  destruct (maxBuf <? zlen (SimpleFileMapper.buffer m1)); [|auto].
  unfold contents, SimpleFileMapper.clearBuffer.
  cbn [SimpleFileMapper.file SimpleFileMapper.buffer SimpleFileMapper.writePos].
  rewrite app_nil_r. auto.
Qed.

(** Every [write] that returns has moved the cursor by the number of bytes
    written and has put the bytes at the old cursor of the logical address
    space; this covers regions (a) and (c), the only ones from which
    [write] returns. *)
Lemma write_returns_effect (maxBuf : Z) (m m' : SimpleFileMapper.t)
    (value : list byte) (b : bool) :
  bounded m (zlen value) ->
  SimpleFileMapper.write maxBuf m value = Ret (b, m') ->
  SimpleFileMapper.writePos m' = SimpleFileMapper.writePos m + zlen value
  /\ slice (contents m') (SimpleFileMapper.writePos m) (zlen value) = Ret value.
Proof.
  intros Hb Hw. pose proof Hb as (Hpos & Hcur & Hsize).
  pose proof (zlen_nonneg value) as Hv.
  destruct (write_returns maxBuf m value b m' Hb Hw)
    as [(Hend & Hr) | [(Hfit & Hn & Hr) | (Hin & Hnil & Hr)]].
  - apply (f_equal snd) in Hr. cbn [snd] in Hr. subst m'.
    destruct (contents_flushed_if_full maxBuf (extended m value)) as (-> & ->).
    unfold extended, contents at 1.
    cbn [SimpleFileMapper.file SimpleFileMapper.buffer SimpleFileMapper.writePos].
    split; [reflexivity|].
    rewrite app_assoc. fold (contents m). rewrite Hend.
    rewrite slice_app_r' by lia. rewrite Z.sub_diag. apply slice_all.
  - injection Hr as _ ->.
    cbn [SimpleFileMapper.writePos]. split; [reflexivity|].
    unfold contents. cbn [SimpleFileMapper.file SimpleFileMapper.buffer].
    rewrite slice_app_l by (rewrite ?zlen_patch; lia).
    apply slice_patch_self; lia.
  - cbv zeta in Hr. apply (f_equal snd) in Hr. cbn [snd] in Hr. subst m'.
    set (k := Z.to_nat (zlen (SimpleFileMapper.file m) - SimpleFileMapper.writePos m)).
    destruct (contents_flushed_if_full maxBuf
                (SimpleFileMapper.mk
                   (patch (SimpleFileMapper.file m) (SimpleFileMapper.writePos m)
                      (firstn k value))
                   (skipn k value)
                   (SimpleFileMapper.writePos m + zlen value))) as (-> & ->).
    cbn [SimpleFileMapper.writePos]. split; [reflexivity|].
    unfold contents, patch.
    cbn [SimpleFileMapper.file SimpleFileMapper.buffer].
    assert (Hk : zlen (firstn k value)
                 = zlen (SimpleFileMapper.file m) - SimpleFileMapper.writePos m)
      by (apply zlen_firstn; lia).
    rewrite Hk.
    replace (SimpleFileMapper.writePos m
             + (zlen (SimpleFileMapper.file m) - SimpleFileMapper.writePos m))
      with (zlen (SimpleFileMapper.file m)) by lia.
    rewrite (skipn_all2 (SimpleFileMapper.file m)) by (unfold zlen; lia).
    rewrite app_nil_r, <- app_assoc, firstn_skipn.
    rewrite slice_app_r' by (rewrite zlen_firstn; lia).
    rewrite zlen_firstn, Z.sub_diag by lia. apply slice_all.
Qed.

End ByteStoreFacts.

(** ** The write cursor of a byte store *)

Module CursorFacts.
Import SimpleFileMapper StoreSpec.
Import SimpleFileMapperFacts RoundTripFacts IndexedReadFacts IndexedWriteFacts.
Import ByteStoreFacts.

Lemma firstn_patch (mem : list byte) (pos : Z) (data : list byte) :
  0 <= pos -> pos + zlen data <= zlen mem ->
  firstn (Z.to_nat pos) (patch mem pos data) = firstn (Z.to_nat pos) mem.
Proof.
  intros Hp Hfit. pose proof (zlen_nonneg data). unfold patch.
  rewrite firstn_app.
  replace (Z.to_nat pos - length (firstn (Z.to_nat pos) mem))%nat with 0%nat.
  - rewrite firstn_O, app_nil_r. rewrite firstn_firstn, Nat.min_id. reflexivity.
  - rewrite length_firstn. unfold zlen in *. lia.
Qed.

Lemma skipn_patch (mem : list byte) (pos : Z) (data : list byte) :
  0 <= pos -> pos + zlen data <= zlen mem ->
  skipn (Z.to_nat (pos + zlen data)) (patch mem pos data)
  = skipn (Z.to_nat (pos + zlen data)) mem.
Proof.
  intros Hp Hfit. pose proof (zlen_nonneg data). unfold patch.
  rewrite app_assoc.
  rewrite skipn_app.
  rewrite skipn_all2 by (rewrite length_app, length_firstn; unfold zlen in *; lia).
  replace (Z.to_nat (pos + zlen data)
           - length (firstn (Z.to_nat pos) mem ++ data))%nat with 0%nat
    by (rewrite length_app, length_firstn; unfold zlen in *; lia).
  reflexivity.
Qed.

Lemma patch_at_end (mem : list byte) (data : list byte) :
  patch mem (zlen mem) data = mem ++ data.
Proof.
  unfold patch. pose proof (zlen_nonneg data).
  rewrite firstn_all2 by (unfold zlen; lia).
  rewrite skipn_all2 by (unfold zlen in *; lia).
  rewrite app_nil_r. reflexivity.
Qed.

(** A [write] that returns leaves, before the flush, the old contents with
    [value] spliced in at the old cursor. *)
Lemma write_splice (maxBuf : Z) (m m' : t) (value : list byte) (b : bool) :
  bounded m (zlen value) ->
  write maxBuf m value = Ret (b, m') ->
  exists m1,
    m' = (if b then clearBuffer m1 else m1)
    /\ writePos m1 = writePos m + zlen value
    /\ zlen (file m1) = zlen (file m)
    /\ contents m1 = patch (contents m) (writePos m) value
    /\ writePos m <= zlen (contents m).
Proof.
  intros Hb Hw. pose proof Hb as (Hpos & Hcur & Hsize).
  pose proof (zlen_nonneg value) as Hv.
  pose proof (zlen_nonneg (buffer m)) as Hbuf.
  assert (Hc : zlen (contents m) = zlen (file m) + zlen (buffer m))
    by (unfold contents; apply zlen_app).
  destruct (write_returns maxBuf m value b m' Hb Hw)
    as [(Hend & Hr) | [(Hfit & Hn & Hr) | (Hin & Hnil & Hr)]].
  - exists (extended m value). unfold flushed_if_full in Hr.
    injection Hr as -> ->. unfold at_end in Hend.
    split; [reflexivity|].
    split; [reflexivity|]. split; [reflexivity|].
    split; [|lia].
    rewrite Hend, patch_at_end. unfold contents, extended. cbn [file buffer].
    apply app_assoc.
  - exists (mk (patch (file m) (writePos m) value) (buffer m) (writePos m + zlen value)).
    injection Hr as -> ->. cbn [writePos file buffer].
    split; [reflexivity|].
    split; [reflexivity|].
    split; [apply zlen_patch; lia|].
    split; [|lia].
    unfold contents. cbn [file buffer]. symmetry. apply patch_app_l; lia.
  - cbv zeta in Hr.
    set (k := Z.to_nat (zlen (file m) - writePos m)) in *.
    exists (mk (patch (file m) (writePos m) (firstn k value)) (skipn k value)
               (writePos m + zlen value)).
    unfold flushed_if_full in Hr. injection Hr as -> ->. cbn [writePos file buffer].
    assert (Hk : zlen (firstn k value) = zlen (file m) - writePos m)
      by (apply zlen_firstn; lia).
    split; [reflexivity|].
    split; [reflexivity|].
    split; [apply zlen_patch; lia|].
    split; [|lia].
    unfold contents. cbn [file buffer]. rewrite Hnil, app_nil_r.
    unfold patch. rewrite Hk.
    replace (writePos m + (zlen (file m) - writePos m)) with (zlen (file m)) by lia.
    rewrite (skipn_all2 (file m)) by (unfold zlen; lia).
    rewrite (skipn_all2 (file m)) by (unfold zlen in *; lia).
    rewrite !app_nil_r, <- app_assoc, firstn_skipn. reflexivity.
Qed.

(** X1 ([SimpleFileMapper<write>::write], lines 216-251).  A [write] that
    returns changes the logical address space (the mapping followed by
    the buffer) at the cursor only.  With [m1] the store before the flush
    of lines 246-250: the cursor has moved by the number of bytes written,
    the mapping has kept its length, and the contents are the old bytes
    before the cursor, then [value], then the old bytes from the new
    cursor on (none when the write ran past the old end); the length is
    the larger of the old length and the new cursor. *)
Theorem write_frame :
  forall (maxBuf : Z) (m m' : t) (value : list byte) (b : bool),
    bounded m (zlen value) ->
    write maxBuf m value = Ret (b, m') ->
    exists m1,
      m' = (if b then clearBuffer m1 else m1)
      /\ writePos m1 = writePos m + zlen value
      /\ zlen (file m1) = zlen (file m)
      /\ contents m1
         = firstn (Z.to_nat (writePos m)) (contents m) ++ value
           ++ skipn (Z.to_nat (writePos m + zlen value)) (contents m)
      /\ zlen (contents m1) = Z.max (zlen (contents m)) (writePos m + zlen value).
Proof.
  intros maxBuf m m' value b Hb Hw.
  destruct (write_splice maxBuf m m' value b Hb Hw)
    as (m1 & Hm' & Hpos & Hfile & Hc & Hle).
  destruct Hb as (H0 & _ & _). pose proof (zlen_nonneg value) as Hv.
  exists m1. do 3 (split; [assumption|]). split; [exact Hc|].
  rewrite Hc. unfold patch. rewrite !zlen_app, zlen_firstn by lia.
  destruct (Z.le_gt_cases (writePos m + zlen value) (zlen (contents m))) as [Hin|Hout].
  - rewrite zlen_skipn by lia. lia.
  - rewrite skipn_all2 by (unfold zlen in *; lia).
    change (zlen (@nil byte)) with 0. lia.
Qed.

Lemma write_frame_witness :
  exists m1,
    mk [x07; x01; x02] [x0a] 3 = (if false then clearBuffer m1 else m1)
    /\ writePos m1 = 1 + zlen [x01; x02]
    /\ zlen (file m1) = zlen (file (mk [x07; x08; x09] [x0a] 1))
    /\ contents m1
       = firstn (Z.to_nat 1) (contents (mk [x07; x08; x09] [x0a] 1)) ++ [x01; x02]
         ++ skipn (Z.to_nat (1 + zlen [x01; x02])) (contents (mk [x07; x08; x09] [x0a] 1))
    /\ zlen (contents m1)
       = Z.max (zlen (contents (mk [x07; x08; x09] [x0a] 1))) (1 + zlen [x01; x02]).
Proof.
  apply (write_frame 10 (mk [x07; x08; x09] [x0a] 1) (mk [x07; x01; x02] [x0a] 3)
           [x01; x02] false).
  - vm_compute. repeat split; congruence.
  - reflexivity.
Defined.

(** X2 ([write], lines 216-251, with [writeSpace], lines 194-203).  On a
    store whose sizes are [OffsetType] values, [write] returns exactly
    when the cursor is at the end of the logical address space, or inside
    the mapping with at least one byte to write and either room for all
    of them in the mapping or an empty buffer.  In every other state (the
    cursor inside or past the buffer, an empty write inside the mapping, a
    write across the end of the mapping onto a buffer that holds bytes) it
    stops at an [assert] or runs out of bounds. *)
Theorem write_returns_iff :
  forall (maxBuf : Z) (m : t) (value : list byte),
    bounded m (zlen value) ->
    ((exists b m', write maxBuf m value = Ret (b, m'))
     <-> (at_end m
          \/ (writePos m < zlen (file m) /\ 0 < zlen value
              /\ (writePos m + zlen value <= zlen (file m) \/ buffer m = [])))).
Proof.
  intros maxBuf m value Hb. pose proof (zlen_nonneg value) as Hv. split.
  - intros (b & m' & Hw).
    destruct (write_returns maxBuf m value b m' Hb Hw)
      as [(Hend & _) | [(Hfit & Hn & _) | (Hin & Hnil & _)]].
    + left. exact Hend.
    + right. repeat split; [lia | lia | left; lia].
    + right. repeat split; [lia | lia | right; exact Hnil].
  - intros [Hend | (Hin & Hn & [Hfit | Hnil])].
    + rewrite (write_at_end maxBuf m value Hb Hend). unfold flushed_if_full. eauto.
    + rewrite (write_within_file maxBuf m value Hb Hn Hfit). eauto.
    + destruct (Z.le_gt_cases (writePos m + zlen value) (zlen (file m))) as [Hfit|Hout].
      * rewrite (write_within_file maxBuf m value Hb Hn Hfit). eauto.
      * rewrite (write_across_file_end maxBuf m value Hb Hin Hout Hnil).
        unfold flushed_if_full. eauto.
Qed.

Lemma write_returns_iff_witness :
  (exists b m', write 10 (mk [x07; x08] [x0a] 2) [x01] = Ret (b, m'))
  <-> (at_end (mk [x07; x08] [x0a] 2)
       \/ (writePos (mk [x07; x08] [x0a] 2) < zlen (file (mk [x07; x08] [x0a] 2))
           /\ 0 < zlen [x01]
           /\ (writePos (mk [x07; x08] [x0a] 2) + zlen [x01]
               <= zlen (file (mk [x07; x08] [x0a] 2))
               \/ buffer (mk [x07; x08] [x0a] 2) = []))).
Proof.
  apply (write_returns_iff 10 (mk [x07; x08] [x0a] 2) [x01]).
  vm_compute. repeat split; congruence.
Defined.

(** X3 ([seekEnd], lines 293-295, then [write], lines 216-251).  After
    [seekEnd()] a [write] always returns, wherever the cursor was before:
    it appends the bytes to the logical address space, leaves the mapping
    as it was until the flush, puts the cursor at the new end, and reports
    a flush exactly when the buffer has grown past the threshold. *)
Theorem seekEnd_write_appends :
  forall (maxBuf : Z) (m : t) (value : list byte),
    zlen (contents m) + zlen value <= InvalidFileIndex ->
    exists m1,
      write maxBuf (seekEnd m) value
      = Ret (maxBuf <? zlen (buffer m1),
             if maxBuf <? zlen (buffer m1) then clearBuffer m1 else m1)
      /\ file m1 = file m
      /\ buffer m1 = buffer m ++ value
      /\ writePos m1 = zlen (contents m) + zlen value.
Proof.
  intros maxBuf m value Hfit. pose proof (zlen_nonneg value) as Hv.
  pose proof (zlen_nonneg (file m)) as Hf. pose proof (zlen_nonneg (buffer m)) as Hbf.
  assert (Hc : zlen (contents m) = zlen (file m) + zlen (buffer m))
    by (unfold contents; apply zlen_app).
  assert (Hs : seekEnd m = mk (file m) (buffer m) (zlen (contents m))).
  { unfold seekEnd. rewrite (i64_small (zlen (buffer m))) by bounds.
    rewrite i64_small by bounds. rewrite Hc. reflexivity. }
  assert (Hend : at_end (seekEnd m)) by (rewrite Hs; reflexivity).
  assert (Hb : bounded (seekEnd m) (zlen value)).
  { rewrite Hs. unfold bounded, contents in *. cbn [writePos file buffer]. lia. }
  rewrite (write_at_end maxBuf _ value Hb Hend), Hs.
  exists (extended (mk (file m) (buffer m) (zlen (contents m))) value).
  split; [reflexivity|]. repeat split.
Qed.

Lemma seekEnd_write_appends_witness :
  exists m1,
    write 2 (seekEnd (mk [x07; x08] [x0a] 0)) [x01; x02]
    = Ret (2 <? zlen (buffer m1),
           if 2 <? zlen (buffer m1) then clearBuffer m1 else m1)
    /\ file m1 = file (mk [x07; x08] [x0a] 0)
    /\ buffer m1 = buffer (mk [x07; x08] [x0a] 0) ++ [x01; x02]
    /\ writePos m1 = zlen (contents (mk [x07; x08] [x0a] 0)) + zlen [x01; x02].
Proof.
  apply (seekEnd_write_appends 2 (mk [x07; x08] [x0a] 0) [x01; x02]).
  vm_compute. congruence.
Defined.

(** X4 ([getWritePos], lines 182-191; [writeSpace], lines 194-203;
    [getDataAtOffset], lines 277-287).  The pointer and the room at the
    cursor, by region.  Inside the logical address space [getWritePos()]
    is the pointer that [getDataAtOffset] gives for the cursor; at or past
    the end it is null and [writeSpace()] is 0.  Inside the mapping
    [writeSpace()] is the number of bytes up to the end of the mapping;
    inside the buffer it is the cursor minus the logical size, a negative
    number and not the room left in the buffer. *)
Theorem cursor_pointer_and_space :
  forall m : t,
    zlen (contents m) <= InvalidFileIndex ->
    0 <= writePos m <= InvalidFileIndex ->
    (writePos m < zlen (contents m) ->
       getDataAtOffset m (writePos m) = Ret (getWritePos m)
       /\ getWritePos m <> nullptr)
    /\ (zlen (contents m) <= writePos m ->
          getWritePos m = nullptr /\ writeSpace m = 0)
    /\ (writePos m < zlen (file m) ->
          writeSpace m = zlen (file m) - writePos m)
    /\ (zlen (file m) <= writePos m < zlen (contents m) ->
          writeSpace m = writePos m - zlen (contents m) /\ writeSpace m < 0).
Proof.
  intros m Hfit Hpos.
  pose proof (zlen_nonneg (file m)) as Hf. pose proof (zlen_nonneg (buffer m)) as Hbf.
  assert (Hc : zlen (contents m) = zlen (file m) + zlen (buffer m))
    by (unfold contents; apply zlen_app).
  unfold getWritePos, writeSpace.
  rewrite (u64_small (writePos m)), (i64_small (zlen (buffer m))) by bounds.
  rewrite (u64_small (zlen (file m) + zlen (buffer m))) by bounds.
  split; [|split; [|split]].
  - intros Hin. rewrite getDataAtOffset_in_range by lia.
    destruct (Z.ltb_spec (writePos m) (zlen (file m))) as [Hlow|Hhigh].
    + split; [reflexivity | discriminate].
    + destruct (Z.ltb_spec (writePos m) (zlen (file m) + zlen (buffer m))) as [_|H];
        [|lia].
      rewrite u64_small by bounds. split; [reflexivity | discriminate].
  - intros Hout.
    destruct (Z.ltb_spec (writePos m) (zlen (file m))) as [H|_]; [lia|].
    destruct (Z.ltb_spec (writePos m) (zlen (file m) + zlen (buffer m))) as [H|_];
      [lia|].
    split; reflexivity.
  - intros Hlow.
    destruct (Z.ltb_spec (writePos m) (zlen (file m))) as [_|H]; [|lia].
    apply i64_small. bounds.
  - intros Hin.
    destruct (Z.ltb_spec (writePos m) (zlen (file m))) as [H|_]; [lia|].
    destruct (Z.ltb_spec (writePos m) (zlen (file m) + zlen (buffer m))) as [_|H];
      [|lia].
    rewrite i64_small by bounds. lia.
Qed.

Lemma cursor_pointer_and_space_witness :
  getDataAtOffset (mk [x07; x08] [x01; x02; x03] 3) 3
  = Ret (getWritePos (mk [x07; x08] [x01; x02; x03] 3))
  /\ writeSpace (mk [x07; x08] [x01; x02; x03] 3) = 3 - 5.
Proof.
  assert (Hfit : zlen (contents (mk [x07; x08] [x01; x02; x03] 3)) <= InvalidFileIndex)
    by (vm_compute; congruence).
  assert (Hpos : 0 <= writePos (mk [x07; x08] [x01; x02; x03] 3) <= InvalidFileIndex)
    by (vm_compute; split; congruence).
  destruct (cursor_pointer_and_space (mk [x07; x08] [x01; x02; x03] 3) Hfit Hpos)
    as (Hin & _ & _ & Hbuf).
  split.
  - apply Hin. vm_compute. reflexivity.
  - apply Hbuf. vm_compute. split; congruence.
Defined.

(** X5 ([SimpleFileMapperBase::getDataAtOffset], lines 99-105, and
    [SimpleFileMapper<write>::getDataAtOffset], lines 277-287).  The
    offsets for which [getDataAtOffset] returns.  In write mode these are
    [InvalidFileIndex] and the offsets from 0 up to the logical size; the
    read-mode check is the signed [offset < size()] alone, so there every
    negative offset is let through as well.  For an offset inside the
    store the pointer is into the mapping below the mapped size and into
    the buffer from there on.  In read mode the pointer for a negative
    offset lies at least [2^63] bytes past the start of the mapping, where
    nothing can be read. *)
Theorem getDataAtOffset_domain :
  forall (mode : mio.access_mode) (d : mapper mode) (o : Z),
    zlen (mapped d) + zlen (buffered d) <= InvalidFileIndex ->
    is_offset o ->
    ((exists p, Mapper.getDataAtOffset d o = Ret p)
     <-> (match mode with mio.read => True | mio.write => 0 <= o end
          /\ o < Mapper.size d)
         \/ o = InvalidFileIndex)
    /\ (0 <= o < Mapper.size d ->
        Mapper.getDataAtOffset d o
        = Ret (if o <? zlen (mapped d) then in_file o
               else in_buffer (o - zlen (mapped d))))
    /\ (mode = mio.read -> o < 0 ->
        Mapper.getDataAtOffset d o = Ret (in_file (o + two64))
        /\ forall n, Mapper.load d (in_file (o + two64)) n = Fail OutOfBounds).
Proof.
  intros mode d o Hfit Ho. unfold is_offset in Ho.
  destruct mode; cbn [mapper mapped buffered Mapper.getDataAtOffset Mapper.size
                       Mapper.load] in *.
  - pose proof (zlen_nonneg (SimpleFileMapperBase.file d)) as Hf.
    change (zlen (@nil byte)) with 0 in Hfit.
    unfold SimpleFileMapperBase.getDataAtOffset, SimpleFileMapperBase.size.
    rewrite i64_small by bounds.
    split; [|split].
    + destruct (Z.eqb_spec o InvalidFileIndex) as [->|Hne].
      * split; [intros _; right; reflexivity | intros _; eauto].
      * destruct (Z.ltb_spec o (zlen (SimpleFileMapperBase.file d))) as [Hlt|Hge];
          simpl.
        -- split; [intros _; left; split; [exact I | exact Hlt] | intros _; eauto].
        -- split; [intros (p & Hp); discriminate | intros [(_ & H) | H]; lia].
    + intros Hin.
      destruct (Z.eqb_spec o InvalidFileIndex) as [->|Hne]; [bounds|].
      destruct (Z.ltb_spec o (zlen (SimpleFileMapperBase.file d))) as [Hlt|Hge];
        [|lia].
      simpl. rewrite u64_small by bounds. reflexivity.
    + intros _ Hneg.
      destruct (Z.eqb_spec o InvalidFileIndex) as [->|Hne]; [bounds|].
      destruct (Z.ltb_spec o (zlen (SimpleFileMapperBase.file d))) as [Hlt|Hge];
        [|lia].
      simpl. rewrite u64_neg by bounds. split; [reflexivity|].
      intros n. unfold SimpleFileMapperBase.load, slice.
      destruct (Z.leb_spec 0 n) as [Hn|Hn]; [|rewrite andb_false_r; reflexivity].
      destruct (Z.leb_spec (o + two64 + n) (zlen (SimpleFileMapperBase.file d)))
        as [Hle|_]; [bounds|].
      rewrite andb_false_r. reflexivity.
  - pose proof (zlen_nonneg (file d)) as Hf. pose proof (zlen_nonneg (buffer d)) as Hbf.
    assert (Hc : zlen (contents d) = zlen (file d) + zlen (buffer d))
      by (unfold contents; apply zlen_app).
    rewrite size_sum by lia.
    split; [|split].
    + split.
      * intros (p & Hp).
        destruct (Z.eq_dec o InvalidFileIndex) as [->|Hne]; [right; reflexivity|].
        left. unfold getDataAtOffset in Hp.
        apply bind_Ret_inv in Hp as (u & Ha & _). apply assert_Ret_inv in Ha.
        apply orb_true_iff in Ha as [Ha|Ha]; [|apply Z.eqb_eq in Ha; contradiction].
        apply Z.ltb_lt in Ha. rewrite (u64_small (_ + _)) in Ha by bounds.
        destruct (Z.lt_ge_cases o 0) as [Hneg|Hnn].
        -- rewrite u64_neg in Ha by bounds. bounds.
        -- rewrite u64_small in Ha by bounds. lia.
      * intros [(H0 & Hlt) | ->].
        -- rewrite getDataAtOffset_in_range by lia. eauto.
        -- rewrite getDataAtOffset_invalid. eauto.
    + intros Hin. apply getDataAtOffset_in_range; lia.
    + intros Hmode. discriminate Hmode.
Qed.

Lemma getDataAtOffset_domain_witness :
  Mapper.getDataAtOffset (mode := mio.read) (SimpleFileMapperBase.mk [x07; x08]) (-1)
  = Ret (in_file (-1 + two64))
  /\ forall n, Mapper.load (mode := mio.read) (SimpleFileMapperBase.mk [x07; x08])
                 (in_file (-1 + two64)) n = Fail OutOfBounds.
Proof.
  assert (Hfit : zlen (mapped (mode := mio.read) (SimpleFileMapperBase.mk [x07; x08]))
                 + zlen (buffered (mode := mio.read) (SimpleFileMapperBase.mk [x07; x08]))
                 <= InvalidFileIndex) by (vm_compute; congruence).
  assert (Ho : is_offset (-1)) by (vm_compute; split; congruence).
  destruct (getDataAtOffset_domain mio.read (SimpleFileMapperBase.mk [x07; x08]) (-1)
              Hfit Ho) as (_ & _ & Hneg).
  apply Hneg; [reflexivity | lia].
Defined.

End CursorFacts.

(** ** Records of an array store *)

Module RecordFacts.
Import StoreSpec Records.
Import SimpleFileMapperFacts RoundTripFacts IndexedReadFacts IndexedWriteFacts.
Import ByteStoreFacts.

Lemma quot_lower (a u k : Z) :
  0 < u -> 0 <= k -> k * u + u <= a -> k < Z.quot a u.
Proof.
  intros Hu Hk Hle. rewrite Z.quot_div_nonneg by nia.
  assert ((k + 1) <= a / u) by (apply Z.div_le_lower_bound; nia). lia.
Qed.

Lemma quot_whole (u n r : Z) :
  0 < u -> 0 <= n -> 0 <= r < u -> Z.quot (u * n + r) u = n.
Proof.
  intros Hu Hn Hr. rewrite Z.quot_div_nonneg by nia.
  symmetry. apply (Z.div_unique_pos _ _ _ r); lia.
Qed.

(** A record that lies in the mapping is read from the mapping. *)
Lemma read_in_mapping (sizeofT : Z) (d : SimpleFileMapper.t) (k : Z) :
  0 < sizeofT -> zlen (contents d) <= InvalidFileIndex ->
  0 <= k -> k * sizeofT + sizeofT <= zlen (SimpleFileMapper.file d) ->
  FixedSizeFileMapper.read sizeofT (FixedSizeFileMapper.mk (mode := mio.write) d) k
  = slice (SimpleFileMapper.file d) (k * sizeofT) sizeofT.
Proof.
  intros HS Hfit Hk Hin.
  pose proof (zlen_nonneg (SimpleFileMapper.buffer d)) as Hbf.
  assert (Hc : zlen (contents d)
               = zlen (SimpleFileMapper.file d) + zlen (SimpleFileMapper.buffer d))
    by (unfold contents; apply zlen_app).
  unfold FixedSizeFileMapper.read, FixedSizeFileMapper.operator_index,
    FixedSizeFileMapper.size, FixedSizeFileMapper.getPos.
  cbn [FixedSizeFileMapper.dataFile Mapper.size Mapper.getDataAtOffset Mapper.load].
  rewrite size_contents by lia.
  assert (Hlt : k < Z.quot (zlen (contents d)) sizeofT) by (apply quot_lower; lia).
  apply Z.ltb_lt in Hlt. rewrite Hlt. cbn [assert bind].
  rewrite getDataAtOffset_in_range by nia.
  destruct (Z.ltb_spec (k * sizeofT) (zlen (SimpleFileMapper.file d))) as [_|H];
    [|nia].
  reflexivity.
Qed.

(** [write] of one record after [seek(j)] to a record of the mapping. *)
Lemma seek_write_patches (sizeofT maxBuf : Z) (d : SimpleFileMapper.t) (j : Z)
    (v : list byte) :
  0 < sizeofT -> zlen v = sizeofT ->
  zlen (contents d) + sizeofT <= InvalidFileIndex ->
  0 <= j -> (j + 1) * sizeofT <= zlen (SimpleFileMapper.file d) ->
  FixedSizeFileMapper.write maxBuf
    (FixedSizeFileMapper.seek sizeofT (FixedSizeFileMapper.mk (mode := mio.write) d) j) v
  = Ret (false,
         FixedSizeFileMapper.mk (mode := mio.write)
           (SimpleFileMapper.mk (patch (SimpleFileMapper.file d) (j * sizeofT) v)
              (SimpleFileMapper.buffer d) (j * sizeofT + zlen v))).
Proof.
  intros HS Hv Hfit Hj Hin.
  pose proof (zlen_nonneg (SimpleFileMapper.buffer d)) as Hbf.
  assert (Hc : zlen (contents d)
               = zlen (SimpleFileMapper.file d) + zlen (SimpleFileMapper.buffer d))
    by (unfold contents; apply zlen_app).
  unfold FixedSizeFileMapper.write, FixedSizeFileMapper.seek, FixedSizeFileMapper.getPos.
  cbn [FixedSizeFileMapper.dataFile].
  rewrite write_within_file.
  - reflexivity.
  - unfold bounded, SimpleFileMapper.seek, contents.
    cbn [SimpleFileMapper.writePos SimpleFileMapper.file SimpleFileMapper.buffer].
    fold (contents d). nia.
  - lia.
  - unfold SimpleFileMapper.seek.
    cbn [SimpleFileMapper.writePos SimpleFileMapper.file]. nia.
Qed.

(** The records of a store one record of whose mapping has been written
    over. *)
Lemma patched_record_reads (sizeofT : Z) (d : SimpleFileMapper.t) (j : Z)
    (v : list byte) (pos : Z) :
  0 < sizeofT -> zlen v = sizeofT ->
  zlen (contents d) <= InvalidFileIndex ->
  0 <= j -> (j + 1) * sizeofT <= zlen (SimpleFileMapper.file d) ->
  let d' := SimpleFileMapper.mk (patch (SimpleFileMapper.file d) (j * sizeofT) v)
              (SimpleFileMapper.buffer d) pos in
  FixedSizeFileMapper.size sizeofT (FixedSizeFileMapper.mk (mode := mio.write) d')
  = FixedSizeFileMapper.size sizeofT (FixedSizeFileMapper.mk (mode := mio.write) d)
  /\ FixedSizeFileMapper.read sizeofT (FixedSizeFileMapper.mk (mode := mio.write) d') j
     = Ret v
  /\ forall i, 0 <= i -> i <> j ->
       FixedSizeFileMapper.read sizeofT (FixedSizeFileMapper.mk (mode := mio.write) d') i
       = FixedSizeFileMapper.read sizeofT (FixedSizeFileMapper.mk (mode := mio.write) d) i.
Proof.
  intros HS Hv Hfit Hj Hin d'.
  pose proof (zlen_nonneg (SimpleFileMapper.buffer d)) as Hbf.
  assert (Hc : zlen (contents d)
               = zlen (SimpleFileMapper.file d) + zlen (SimpleFileMapper.buffer d))
    by (unfold contents; apply zlen_app).
  assert (Hlen : zlen (SimpleFileMapper.file d') = zlen (SimpleFileMapper.file d))
    by (apply zlen_patch; nia).
  assert (Hc' : zlen (contents d') = zlen (contents d)).
  { unfold contents. rewrite !zlen_app, Hlen. reflexivity. }
  split; [|split].
  - unfold FixedSizeFileMapper.size.
    cbn [FixedSizeFileMapper.dataFile Mapper.size].
    rewrite !size_contents by lia. rewrite Hc'. reflexivity.
  - rewrite read_in_mapping by (rewrite ?Hlen; nia).
    subst d'. cbn [SimpleFileMapper.file]. rewrite <- Hv.
    apply slice_patch_self; nia.
  - intros i Hi Hne.
    unfold FixedSizeFileMapper.read, FixedSizeFileMapper.operator_index,
      FixedSizeFileMapper.size, FixedSizeFileMapper.getPos.
    cbn [FixedSizeFileMapper.dataFile Mapper.size Mapper.getDataAtOffset Mapper.load].
    rewrite !size_contents by lia. rewrite Hc'.
    destruct (Z.ltb_spec i (Z.quot (zlen (contents d)) sizeofT)) as [Hlt|Hge];
      [|reflexivity].
    cbn [assert bind].
    assert (Hrec : i * sizeofT + sizeofT <= zlen (contents d))
      by (apply quot_bound; lia).
    rewrite !getDataAtOffset_in_range by nia. rewrite Hlen.
    destruct (Z.ltb_spec (i * sizeofT) (zlen (SimpleFileMapper.file d))) as [Hlow|Hhigh];
      cbn [bind SimpleFileMapper.load]; [|reflexivity].
    subst d'. cbn [SimpleFileMapper.file].
    destruct (Z.lt_ge_cases i j) as [Hb|Ha].
    + apply slice_patch_before; nia.
    + apply slice_patch_after; nia.
Qed.

(** X6 ([FixedSizeFileMapper::seek], lines 346-348, [write], lines
    358-360, [operator[]], lines 321-325).  In-place update of a record of
    the mapping: after [seek(j)], [write(v)] returns without a flush,
    leaves the cursor behind record [j], keeps [size()], makes record [j]
    read as [v] and leaves every other record as it read before. *)
Theorem seek_write_overwrites_record :
  forall (sizeofT maxBuf : Z) (d : SimpleFileMapper.t) (j : Z) (v : list byte),
    0 < sizeofT ->
    zlen v = sizeofT ->
    zlen (contents d) + sizeofT <= InvalidFileIndex ->
    0 <= j ->
    (j + 1) * sizeofT <= zlen (SimpleFileMapper.file d) ->
    exists d',
      FixedSizeFileMapper.write maxBuf
        (FixedSizeFileMapper.seek sizeofT (FixedSizeFileMapper.mk (mode := mio.write) d) j) v
      = Ret (false, FixedSizeFileMapper.mk (mode := mio.write) d')
      /\ SimpleFileMapper.writePos d' = (j + 1) * sizeofT
      /\ FixedSizeFileMapper.size sizeofT (FixedSizeFileMapper.mk (mode := mio.write) d')
         = FixedSizeFileMapper.size sizeofT (FixedSizeFileMapper.mk (mode := mio.write) d)
      /\ FixedSizeFileMapper.read sizeofT (FixedSizeFileMapper.mk (mode := mio.write) d') j
         = Ret v
      /\ forall i, 0 <= i -> i <> j ->
           FixedSizeFileMapper.read sizeofT (FixedSizeFileMapper.mk (mode := mio.write) d') i
           = FixedSizeFileMapper.read sizeofT (FixedSizeFileMapper.mk (mode := mio.write) d) i.
Proof.
  intros sizeofT maxBuf d j v HS Hv Hfit Hj Hin.
  exists (SimpleFileMapper.mk (patch (SimpleFileMapper.file d) (j * sizeofT) v)
            (SimpleFileMapper.buffer d) (j * sizeofT + zlen v)).
  split; [apply seek_write_patches; assumption|].
  split; [cbn [SimpleFileMapper.writePos]; lia|].
  apply patched_record_reads; try assumption.
  pose proof (zlen_nonneg v). lia.
Qed.

Lemma seek_write_overwrites_record_witness :
  exists d',
    FixedSizeFileMapper.write 100
      (FixedSizeFileMapper.seek 2
         (FixedSizeFileMapper.mk (mode := mio.write)
            (SimpleFileMapper.mk [x01; x02; x03; x04; x05; x06] [x07; x08] 8)) 1)
      [x0a; x0b]
    = Ret (false, FixedSizeFileMapper.mk (mode := mio.write) d')
    /\ SimpleFileMapper.writePos d' = (1 + 1) * 2
    /\ FixedSizeFileMapper.size 2 (FixedSizeFileMapper.mk (mode := mio.write) d')
       = FixedSizeFileMapper.size 2
           (FixedSizeFileMapper.mk (mode := mio.write)
              (SimpleFileMapper.mk [x01; x02; x03; x04; x05; x06] [x07; x08] 8))
    /\ FixedSizeFileMapper.read 2 (FixedSizeFileMapper.mk (mode := mio.write) d') 1
       = Ret [x0a; x0b]
    /\ forall i, 0 <= i -> i <> 1 ->
         FixedSizeFileMapper.read 2 (FixedSizeFileMapper.mk (mode := mio.write) d') i
         = FixedSizeFileMapper.read 2
             (FixedSizeFileMapper.mk (mode := mio.write)
                (SimpleFileMapper.mk [x01; x02; x03; x04; x05; x06] [x07; x08] 8)) i.
Proof.
  apply (seek_write_overwrites_record 2 100
           (SimpleFileMapper.mk [x01; x02; x03; x04; x05; x06] [x07; x08] 8) 1
           [x0a; x0b]).
  - lia.
  - reflexivity.
  - vm_compute. congruence.
  - lia.
  - vm_compute. congruence.
Defined.

(** X7 ([FixedSizeFileMapper::size], lines 362-365; [operator[]], lines
    321-325; the constructors).  A store opened, in either mode, on a file
    that holds the records [vs] followed by a partial record of fewer than
    [sizeof(T)] bytes: [size()] is the number of whole records, each of
    them reads back as written, and the index [size()] stops at the
    [assert] of [operator[]], so the trailing bytes are never handed
    out. *)
Theorem open_reads_whole_records :
  forall (sizeofT : Z) (vs : list (list byte)) (rest : list byte),
    0 < sizeofT ->
    sized sizeofT vs ->
    zlen rest < sizeofT ->
    zlen (concat vs ++ rest) <= InvalidFileIndex ->
    forall mode : mio.access_mode,
      let m := Opening.array_open mode (concat vs ++ rest) in
      FixedSizeFileMapper.size sizeofT m = zlen vs
      /\ (forall i v, nth_error vs i = Some v ->
            FixedSizeFileMapper.read sizeofT m (Z.of_nat i) = Ret v)
      /\ FixedSizeFileMapper.read sizeofT m (zlen vs) = Fail AssertionFailed.
Proof.
  intros sizeofT vs rest HS Hvs Hrest Hfit mode m.
  pose proof (zlen_nonneg rest) as Hr. pose proof (zlen_nonneg vs) as Hn.
  assert (Hlen : zlen (concat vs ++ rest) = sizeofT * zlen vs + zlen rest)
    by (rewrite zlen_app, (zlen_concat sizeofT) by assumption; reflexivity).
  assert (Hslice : forall i v, nth_error vs i = Some v ->
            Z.of_nat i * sizeofT + sizeofT <= zlen (concat vs)
            /\ slice (concat vs ++ rest) (Z.of_nat i * sizeofT) sizeofT = Ret v).
  { intros i v Hi.
    assert (Hlt : (i < length vs)%nat) by (apply nth_error_Some; congruence).
    assert (Hle : Z.of_nat i * sizeofT + sizeofT <= zlen (concat vs)).
    { rewrite (zlen_concat sizeofT) by assumption. unfold zlen. nia. }
    split; [exact Hle|].
    rewrite slice_app_l by nia. apply slice_concat; assumption. }
  destruct mode; subst m; unfold Opening.array_open, Opening.mapper_open;
    fold (FixedSizeFileMapper.open (concat vs ++ rest)).
  - assert (Hsize : FixedSizeFileMapper.size sizeofT
                      (FixedSizeFileMapper.mk (mode := mio.read)
                         (SimpleFileMapperBase.mk (concat vs ++ rest))) = zlen vs).
    { unfold FixedSizeFileMapper.size.
      cbn [FixedSizeFileMapper.dataFile Mapper.size].
      unfold SimpleFileMapperBase.size. cbn [SimpleFileMapperBase.file].
      rewrite i64_small by bounds. rewrite Hlen. apply quot_whole; lia. }
    split; [exact Hsize|]. split.
    + intros i v Hi. destruct (Hslice i v Hi) as (Hle & Hs).
      destruct (read_mapped sizeofT (SimpleFileMapperBase.mk (concat vs ++ rest))
                  (Z.of_nat i) HS) as (rec & Hrec & Hread).
      * exact Hfit.
      * rewrite Hsize. split; [lia|].
        apply Nat2Z.inj_lt. apply nth_error_Some. congruence.
      * cbn [SimpleFileMapperBase.file] in Hrec. rewrite Hread. congruence.
    + unfold FixedSizeFileMapper.read, FixedSizeFileMapper.operator_index.
      rewrite Hsize, Z.ltb_irrefl. reflexivity.
  - assert (Hc : contents (SimpleFileMapper.open (concat vs ++ rest))
                 = concat vs ++ rest) by (unfold contents; apply app_nil_r).
    assert (Hsize : FixedSizeFileMapper.size sizeofT
                      (FixedSizeFileMapper.open (concat vs ++ rest)) = zlen vs).
    { unfold FixedSizeFileMapper.size, FixedSizeFileMapper.open.
      cbn [FixedSizeFileMapper.dataFile Mapper.size].
      rewrite size_contents by (rewrite Hc; exact Hfit).
      rewrite Hc, Hlen. apply quot_whole; lia. }
    split; [exact Hsize|]. split.
    + intros i v Hi. destruct (Hslice i v Hi) as (Hle & Hs).
      unfold FixedSizeFileMapper.open. rewrite read_in_mapping.
      * exact Hs.
      * exact HS.
      * rewrite Hc. exact Hfit.
      * lia.
      * cbn [SimpleFileMapper.open SimpleFileMapper.file].
        rewrite zlen_app. lia.
    + unfold FixedSizeFileMapper.read, FixedSizeFileMapper.operator_index.
      rewrite Hsize, Z.ltb_irrefl. reflexivity.
Qed.

Lemma open_reads_whole_records_witness :
  FixedSizeFileMapper.size 2
    (Opening.array_open mio.read (concat [[x01; x02]; [x03; x04]] ++ [x05])) = 2
  /\ FixedSizeFileMapper.read 2
       (Opening.array_open mio.read (concat [[x01; x02]; [x03; x04]] ++ [x05])) 1
     = Ret [x03; x04]
  /\ FixedSizeFileMapper.read 2
       (Opening.array_open mio.read (concat [[x01; x02]; [x03; x04]] ++ [x05])) 2
     = Fail AssertionFailed.
Proof.
  assert (HS : 0 < 2) by lia.
  assert (Hvs : sized 2 [[x01; x02]; [x03; x04]]) by (repeat constructor).
  assert (Hrest : zlen [x05] < 2) by reflexivity.
  assert (Hfit : zlen (concat [[x01; x02]; [x03; x04]] ++ [x05]) <= InvalidFileIndex)
    by (vm_compute; congruence).
  destruct (open_reads_whole_records 2 [[x01; x02]; [x03; x04]] [x05]
              HS Hvs Hrest Hfit mio.read) as (Hsize & Hread & Hend).
  split; [exact Hsize|]. split; [|exact Hend].
  exact (Hread 1%nat [x03; x04] eq_refl).
Defined.

Lemma mapper_size_sum {mode} (d : mapper mode) :
  zlen (mapped d) + zlen (buffered d) <= InvalidFileIndex ->
  Mapper.size d = zlen (mapped d) + zlen (buffered d).
Proof.
  destruct mode; cbn [mapper mapped buffered Mapper.size] in *; intros Hfit.
  - change (zlen (@nil byte)) with 0 in *.
    pose proof (zlen_nonneg (SimpleFileMapperBase.file d)) as Hf.
    unfold SimpleFileMapperBase.size. rewrite i64_small by bounds. lia.
  - apply size_sum. unfold contents. rewrite zlen_app. exact Hfit.
Qed.

Lemma mapper_in_range {mode} (d : mapper mode) (o : Z) :
  zlen (mapped d) + zlen (buffered d) <= InvalidFileIndex ->
  0 <= o < Mapper.size d ->
  Mapper.getDataAtOffset d o
  = Ret (if o <? zlen (mapped d) then in_file o else in_buffer (o - zlen (mapped d))).
Proof.
  intros Hfit Hin. rewrite mapper_size_sum in Hin by assumption.
  destruct mode; cbn [mapper mapped buffered Mapper.getDataAtOffset] in *.
  - change (zlen (@nil byte)) with 0 in *.
    pose proof (zlen_nonneg (SimpleFileMapperBase.file d)) as Hf.
    unfold SimpleFileMapperBase.getDataAtOffset, SimpleFileMapperBase.size.
    rewrite i64_small by bounds.
    destruct (Z.eqb_spec o InvalidFileIndex) as [->|_]; [lia|].
    destruct (Z.ltb_spec o (zlen (SimpleFileMapperBase.file d))) as [_|H]; [|lia].
    simpl. rewrite u64_small by bounds. reflexivity.
  - apply getDataAtOffset_in_range; unfold contents; rewrite zlen_app; lia.
Qed.

(** X8 ([FixedSizeFileMapper::operator[]], lines 321-325, with the two
    [getDataAtOffset], lines 99-105 and 277-287).  The bounds that
    [operator[]] enforces.  An index from 0 up to [size()] gives a
    pointer that is not null, and an index of [size()] or more stops at
    the [assert].  The [assert] has no lower bound: a negative index
    passes it.  In write mode [getDataAtOffset] then stops at its own
    [assert]; in read mode it returns a pointer at least [2^63] bytes past
    the start of the mapping, and reading the element through it is out
    of bounds. *)
Theorem operator_index_bounds :
  forall (mode : mio.access_mode) (sizeofT : Z)
         (m : FixedSizeFileMapper.t mode) (index : Z),
    0 < sizeofT ->
    zlen (mapped (FixedSizeFileMapper.dataFile m))
    + zlen (buffered (FixedSizeFileMapper.dataFile m)) <= InvalidFileIndex ->
    is_offset (index * sizeofT) ->
    (0 <= index < FixedSizeFileMapper.size sizeofT m ->
       exists p, FixedSizeFileMapper.operator_index sizeofT m index = Ret p
                 /\ p <> nullptr)
    /\ (FixedSizeFileMapper.size sizeofT m <= index ->
          FixedSizeFileMapper.operator_index sizeofT m index = Fail AssertionFailed)
    /\ (index < 0 ->
          FixedSizeFileMapper.operator_index sizeofT m index
          = match mode with
            | mio.read => Ret (in_file (index * sizeofT + two64))
            | mio.write => Fail AssertionFailed
            end
          /\ FixedSizeFileMapper.read sizeofT m index
             = Fail match mode with
                    | mio.read => OutOfBounds
                    | mio.write => AssertionFailed
                    end).
Proof.
  intros mode sizeofT [d] index HS Hfit Ho. cbn [FixedSizeFileMapper.dataFile] in Hfit.
  unfold is_offset in Ho.
  pose proof (zlen_nonneg (mapped d)) as Hf. pose proof (zlen_nonneg (buffered d)) as Hbf.
  pose proof (mapper_size_sum d Hfit) as Hsize.
  unfold FixedSizeFileMapper.read, FixedSizeFileMapper.operator_index,
    FixedSizeFileMapper.size, FixedSizeFileMapper.getPos.
  cbn [FixedSizeFileMapper.dataFile].
  split; [|split].
  - intros Hin.
    destruct (Z.ltb_spec index (Z.quot (Mapper.size d) sizeofT)) as [_|H]; [|lia].
    cbn [assert bind].
    assert (Hrec : index * sizeofT + sizeofT <= Mapper.size d)
      by (apply quot_bound; lia).
    rewrite mapper_in_range by nia.
    destruct (index * sizeofT <? zlen (mapped d)); eexists; split;
      try reflexivity; discriminate.
  - intros Hout.
    destruct (Z.ltb_spec index (Z.quot (Mapper.size d) sizeofT)) as [H|_]; [lia|].
    reflexivity.
  - intros Hneg.
    assert (Hq : 0 <= Z.quot (Mapper.size d) sizeofT) by (apply Z.quot_pos; lia).
    destruct (Z.ltb_spec index (Z.quot (Mapper.size d) sizeofT)) as [_|H]; [|lia].
    cbn [assert bind].
    assert (Hoff : index * sizeofT < 0) by nia.
    destruct mode; cbn [mapper mapped buffered Mapper.getDataAtOffset Mapper.size
                         Mapper.load] in *.
    + change (zlen (@nil byte)) with 0 in *.
      unfold SimpleFileMapperBase.getDataAtOffset.
      destruct (Z.eqb_spec (index * sizeofT) InvalidFileIndex) as [H|_]; [bounds|].
      destruct (Z.ltb_spec (index * sizeofT) (SimpleFileMapperBase.size d)) as [_|H];
        [|lia].
      cbn [assert bind]. rewrite u64_neg by bounds.
      split; [reflexivity|].
      unfold SimpleFileMapperBase.load. apply slice_fail. bounds.
    + unfold SimpleFileMapper.getDataAtOffset.
      rewrite u64_neg by bounds. rewrite (u64_small (_ + _)) by bounds.
      destruct (Z.ltb_spec (index * sizeofT + two64)
                  (zlen (SimpleFileMapper.file d) + zlen (SimpleFileMapper.buffer d)))
        as [H|_]; [bounds|].
      destruct (Z.eqb_spec (index * sizeofT) InvalidFileIndex) as [H|_]; [bounds|].
      split; reflexivity.
Qed.

Lemma operator_index_bounds_witness :
  FixedSizeFileMapper.operator_index 2
    (Opening.array_open mio.read [x01; x02; x03; x04]) (-1)
  = Ret (in_file (-1 * 2 + two64))
  /\ FixedSizeFileMapper.read 2
       (Opening.array_open mio.read [x01; x02; x03; x04]) (-1)
     = Fail OutOfBounds.
Proof.
  assert (HS : 0 < 2) by lia.
  assert (Hfit : zlen (mapped (FixedSizeFileMapper.dataFile
                                 (Opening.array_open mio.read [x01; x02; x03; x04])))
                 + zlen (buffered (FixedSizeFileMapper.dataFile
                                     (Opening.array_open mio.read [x01; x02; x03; x04])))
                 <= InvalidFileIndex) by (vm_compute; congruence).
  assert (Ho : is_offset (-1 * 2)) by (vm_compute; split; congruence).
  destruct (operator_index_bounds mio.read 2
              (Opening.array_open mio.read [x01; x02; x03; x04]) (-1) HS Hfit Ho)
    as (_ & _ & Hneg).
  apply Hneg. lia.
Defined.

Lemma write_all_app (maxBuf : Z) (vs1 vs2 : list (list byte))
    (m : FixedSizeFileMapper.t mio.write) :
  FixedSizeFileMapper.write_all maxBuf m (vs1 ++ vs2)
  = (r1 <- FixedSizeFileMapper.write_all maxBuf m vs1 ;;
     r2 <- FixedSizeFileMapper.write_all maxBuf (snd r1) vs2 ;;
     Ret (fst r1 ++ fst r2, snd r2)).
Proof.
  revert m. induction vs1 as [|v vs1 IH]; intros m; cbn [app FixedSizeFileMapper.write_all].
  - cbn [bind fst snd app].
    destruct (FixedSizeFileMapper.write_all maxBuf m vs2) as [[flags m']|f];
      reflexivity.
  - destruct (FixedSizeFileMapper.write maxBuf m v) as [[b m1]|f]; cbn [bind fst snd];
      [|reflexivity].
    rewrite IH.
    destruct (FixedSizeFileMapper.write_all maxBuf m1 vs1) as [[flags1 m2]|f];
      cbn [bind fst snd]; [|reflexivity].
    destruct (FixedSizeFileMapper.write_all maxBuf m2 vs2) as [[flags2 m3]|f];
      reflexivity.
Qed.

(** Appends that keep the buffer within the threshold do not flush. *)
Lemma write_all_buffered (sizeofT maxBuf : Z) (vs : list (list byte))
    (d : SimpleFileMapper.t) :
  0 < sizeofT -> sized sizeofT vs -> at_end d ->
  zlen (contents d) + sizeofT * zlen vs <= InvalidFileIndex ->
  zlen (SimpleFileMapper.buffer d) + sizeofT * zlen vs <= maxBuf ->
  FixedSizeFileMapper.write_all maxBuf (FixedSizeFileMapper.mk (mode := mio.write) d) vs
  = Ret (repeat false (length vs),
         FixedSizeFileMapper.mk (mode := mio.write)
           (SimpleFileMapper.mk (SimpleFileMapper.file d)
              (SimpleFileMapper.buffer d ++ concat vs)
              (SimpleFileMapper.writePos d + sizeofT * zlen vs))).
Proof.
  intros HS. revert d.
  induction vs as [|v vs IH]; intros d Hvs Hend Hfit Hroom.
  - cbn [FixedSizeFileMapper.write_all repeat length concat].
    change (zlen (@nil (list byte))) with 0.
    rewrite app_nil_r, Z.mul_0_r, Z.add_0_r. destruct d; reflexivity.
  - inversion Hvs as [|? ? Hv Hvs']; subst.
    assert (Hn : zlen (v :: vs) = 1 + zlen vs) by (unfold zlen; cbn [length]; lia).
    rewrite Hn in *. pose proof (zlen_nonneg vs) as Hnn.
    pose proof (zlen_nonneg (contents d)) as Hcn.
    cbn [FixedSizeFileMapper.write_all]. unfold FixedSizeFileMapper.write.
    cbn [FixedSizeFileMapper.dataFile].
    rewrite write_at_end;
      [|unfold bounded; unfold at_end in Hend; rewrite Hend; nia | exact Hend].
    unfold flushed_if_full, extended.
    cbn [bind fst snd SimpleFileMapper.buffer].
    destruct (Z.ltb_spec maxBuf (zlen (SimpleFileMapper.buffer d ++ v))) as [Hfull|_];
      [rewrite zlen_app in Hfull; nia|].
    rewrite IH.
    + cbn [bind fst snd SimpleFileMapper.file SimpleFileMapper.buffer
             SimpleFileMapper.writePos repeat length concat].
      rewrite <- app_assoc.
      replace (SimpleFileMapper.writePos d + zlen v + zlen v * zlen vs)
        with (SimpleFileMapper.writePos d + zlen v * (1 + zlen vs)) by lia.
      reflexivity.
    + exact Hvs'.
    + unfold at_end, contents in *.
      cbn [SimpleFileMapper.file SimpleFileMapper.buffer SimpleFileMapper.writePos].
      rewrite Hend, app_assoc, !zlen_app. reflexivity.
    + unfold contents in *.
      cbn [SimpleFileMapper.file SimpleFileMapper.buffer].
      rewrite app_assoc, zlen_app. nia.
    + cbn [SimpleFileMapper.buffer]. rewrite zlen_app. nia.
Qed.

(** X9 ([write], lines 242-250, under [FixedSizeFileMapper::write], lines
    358-360).  When the first flush comes.  On a store with an empty
    buffer and the cursor at the end, appending records of [sizeof(T)]
    bytes: the first [maxBufferSize / sizeof(T)] appends return [false]
    and leave the mapping as it was, and the next one returns [true] and
    calls [clearBuffer()] on a buffer that holds all the records
    appended. *)
Theorem first_flush_after_threshold :
  forall (sizeofT maxBuf : Z) (d : SimpleFileMapper.t) (vs : list (list byte))
         (v : list byte),
    0 < sizeofT -> 0 <= maxBuf ->
    sized sizeofT (vs ++ [v]) ->
    at_end d -> SimpleFileMapper.buffer d = [] ->
    zlen (contents d) + sizeofT * (zlen vs + 1) <= InvalidFileIndex ->
    zlen vs = maxBuf / sizeofT ->
    FixedSizeFileMapper.write_all maxBuf
      (FixedSizeFileMapper.mk (mode := mio.write) d) (vs ++ [v])
    = Ret (repeat false (length vs) ++ [true],
           FixedSizeFileMapper.mk (mode := mio.write)
             (SimpleFileMapper.clearBuffer
                (SimpleFileMapper.mk (SimpleFileMapper.file d) (concat (vs ++ [v]))
                   (SimpleFileMapper.writePos d + sizeofT * (zlen vs + 1))))).
Proof.
  intros sizeofT maxBuf d vs v HS Hmax Hsized Hend Hnil Hfit Hcount.
  apply Forall_app in Hsized as (Hvs & Hv).
  inversion Hv as [|? ? Hv1 _]; subst.
  pose proof (zlen_nonneg vs) as Hnn. pose proof (zlen_nonneg (contents d)) as Hcn.
  pose proof (Z.mul_div_le maxBuf (zlen v) HS) as Hlow.
  pose proof (Z.mul_succ_div_gt maxBuf (zlen v) HS) as Hhigh.
  rewrite <- Hcount in Hlow, Hhigh.
  rewrite write_all_app.
  rewrite (write_all_buffered (zlen v) maxBuf vs d HS Hvs Hend) 
    by (rewrite ?Hnil; change (zlen (@nil byte)) with 0; nia).
  cbn [bind fst snd FixedSizeFileMapper.write_all]. unfold FixedSizeFileMapper.write.
  cbn [FixedSizeFileMapper.dataFile]. rewrite Hnil. cbn [app].
  rewrite write_at_end.
  - unfold flushed_if_full, extended.
    cbn [bind fst snd SimpleFileMapper.file SimpleFileMapper.buffer
           SimpleFileMapper.writePos].
    destruct (Z.ltb_spec maxBuf (zlen (concat vs ++ v))) as [_|Hno].
    + rewrite concat_app. cbn [concat]. rewrite app_nil_r.
      replace (SimpleFileMapper.writePos d + zlen v * zlen vs + zlen v)
        with (SimpleFileMapper.writePos d + zlen v * (zlen vs + 1)) by lia.
      reflexivity.
    + rewrite zlen_app, (zlen_concat (zlen v)) in Hno by assumption. lia.
  - unfold bounded, contents in *. unfold at_end, contents in Hend.
    cbn [SimpleFileMapper.file SimpleFileMapper.buffer SimpleFileMapper.writePos].
    rewrite Hnil, app_nil_r in *.
    rewrite zlen_app, (zlen_concat (zlen v)) by assumption. nia.
  - unfold at_end, contents in *.
    cbn [SimpleFileMapper.file SimpleFileMapper.buffer SimpleFileMapper.writePos].
    rewrite Hnil, app_nil_r in *.
    rewrite zlen_app, (zlen_concat (zlen v)) by assumption. lia.
Qed.

Lemma first_flush_after_threshold_witness :
  FixedSizeFileMapper.write_all 5
    (FixedSizeFileMapper.mk (mode := mio.write) (SimpleFileMapper.mk [x07; x08] [] 2))
    ([[x01; x02]; [x03; x04]] ++ [[x05; x06]])
  = Ret (repeat false (length [[x01; x02]; [x03; x04]]) ++ [true],
         FixedSizeFileMapper.mk (mode := mio.write)
           (SimpleFileMapper.clearBuffer
              (SimpleFileMapper.mk
                 (SimpleFileMapper.file (SimpleFileMapper.mk [x07; x08] [] 2))
                 (concat ([[x01; x02]; [x03; x04]] ++ [[x05; x06]]))
                 (SimpleFileMapper.writePos (SimpleFileMapper.mk [x07; x08] [] 2)
                  + 2 * (zlen [[x01; x02]; [x03; x04]] + 1))))).
Proof.
  apply (first_flush_after_threshold 2 5 (SimpleFileMapper.mk [x07; x08] [] 2)
           [[x01; x02]; [x03; x04]] [x05; x06]).
  - lia.
  - lia.
  - repeat constructor.
  - reflexivity.
  - reflexivity.
  - vm_compute. congruence.
  - reflexivity.
Defined.

End RecordFacts.

(** ** Building a variable-length record *)

Module BuilderFacts.
Import ArbitraryLengthData.
Import ArbitraryLengthDataFacts.

Lemma add_range_rawData (d : ArbitraryLengthData) (ts : list (list byte)) :
  rawData (add_range d ts) = rawData d ++ concat ts.
Proof.
  revert d. induction ts as [|t ts IH]; intros d; cbn [add_range concat].
  - symmetry. apply app_nil_r.
  - rewrite IH. unfold add. cbn [rawData]. symmetry. apply app_assoc.
Qed.

(** X10 ([ArbitraryLengthData::finalize], lines 151-159).  [finalize()]
    may be called again: on data whose length is a multiple of
    [alignof(MainType)] it adds nothing and returns the data as they are,
    and the data it leaves are of that kind, so a second call returns the
    bytes of the first and changes nothing. *)
Theorem finalize_idempotent :
  forall (alignofMain : Z) (d : ArbitraryLengthData),
    0 < alignofMain ->
    (zlen (rawData d) mod alignofMain = 0 -> finalize alignofMain d = (rawData d, d))
    /\ finalize alignofMain (snd (finalize alignofMain d)) = finalize alignofMain d.
Proof.
  intros align d Halign.
  assert (Hfix : forall d0 : ArbitraryLengthData,
             zlen (rawData d0) mod align = 0 -> finalize align d0 = (rawData d0, d0)).
  { intros [raw] H0. unfold finalize. cbn [rawData] in *. rewrite H0. reflexivity. }
  split; [apply Hfix|].
  destruct (finalize_padding align d Halign) as (pad & Hraw & _ & _ & Hmod).
  rewrite Hfix by (rewrite Hraw, zlen_app; exact Hmod).
  unfold finalize. cbn [snd rawData]. reflexivity.
Qed.

Lemma finalize_idempotent_witness :
  finalize 8 (mk (repeat x2a 16)) = (rawData (mk (repeat x2a 16)), mk (repeat x2a 16))
  /\ finalize 8 (snd (finalize 8 (mk (repeat x2a 13)))) = finalize 8 (mk (repeat x2a 13)).
Proof.
  assert (H8 : 0 < 8) by lia.
  split.
  - exact (proj1 (finalize_idempotent 8 (mk (repeat x2a 16)) H8) eq_refl).
  - exact (proj2 (finalize_idempotent 8 (mk (repeat x2a 13)) H8)).
Defined.

(** X11 (the constructor, lines 129-132; [add], lines 135-138; [add] on a
    range, lines 141-145; [size], lines 147-149).  A builder made from
    [head] to which the elements [ts] are added holds the bytes of [head]
    followed by those of the elements in order, and [size()] is their
    number; adding a range and then one more element is adding the longer
    range. *)
Theorem add_range_concatenates :
  forall (head : list byte) (ts : list (list byte)),
    zlen head + zlen (concat ts) <= InvalidFileIndex ->
    rawData (add_range (make head) ts) = head ++ concat ts
    /\ size (add_range (make head) ts) = zlen head + zlen (concat ts)
    /\ forall t, add (add_range (make head) ts) t = add_range (make head) (ts ++ [t]).
Proof.
  intros head ts Hfit.
  assert (Hraw : rawData (add_range (make head) ts) = head ++ concat ts)
    by (rewrite add_range_rawData; reflexivity).
  split; [exact Hraw|]. split.
  - unfold size. rewrite Hraw, zlen_app.
    pose proof (zlen_nonneg head). pose proof (zlen_nonneg (concat ts)).
    apply i64_small. rewrite two63_eq, InvalidFileIndex_eq in *. lia.
  - intros t. clear Hfit Hraw. generalize (make head).
    induction ts as [|t0 ts IH]; intros d; [reflexivity|].
    cbn [add_range app]. apply IH.
Qed.

Lemma add_range_concatenates_witness :
  rawData (add_range (make [x01; x02]) [[x03]; [x04; x05]])
  = [x01; x02] ++ concat [[x03]; [x04; x05]]
  /\ size (add_range (make [x01; x02]) [[x03]; [x04; x05]])
     = zlen [x01; x02] + zlen (concat [[x03]; [x04; x05]])
  /\ forall t, add (add_range (make [x01; x02]) [[x03]; [x04; x05]]) t
               = add_range (make [x01; x02]) ([[x03]; [x04; x05]] ++ [t]).
Proof.
  apply (add_range_concatenates [x01; x02] [[x03]; [x04; x05]]).
  vm_compute. congruence.
Defined.

End BuilderFacts.

(** ** Entries of a multi-stream store *)

Module StreamFacts.
Import StoreSpec.
Import SimpleFileMapperFacts RoundTripFacts IndexedReadFacts IndexedWriteFacts.
Import ByteStoreFacts RecordFacts.

(** The bytes appended by a [write] at the end are read back through the
    pointer for the old cursor, whether or not the [write] flushed. *)
Lemma load_appended (maxBuf : Z) (d : SimpleFileMapper.t) (v : list byte) :
  at_end d -> zlen (contents d) + zlen v <= InvalidFileIndex -> 0 < zlen v ->
  let d' := snd (flushed_if_full maxBuf (extended d v)) in
  exists p,
    SimpleFileMapper.getDataAtOffset d' (SimpleFileMapper.writePos d) = Ret p
    /\ p <> nullptr
    /\ SimpleFileMapper.load d' p (zlen v) = Ret v.
Proof.
  intros Hend Hfit Hv d'.
  pose proof (zlen_nonneg (SimpleFileMapper.file d)) as Hf.
  pose proof (zlen_nonneg (SimpleFileMapper.buffer d)) as Hbf.
  assert (Hc : zlen (contents d)
               = zlen (SimpleFileMapper.file d) + zlen (SimpleFileMapper.buffer d))
    by (unfold contents; apply zlen_app).
  unfold at_end in Hend.
  assert (Hc' : contents d' = contents d ++ v).
  { unfold d'. rewrite (proj1 (contents_flushed_if_full _ _)).
    unfold contents, extended.
    cbn [SimpleFileMapper.file SimpleFileMapper.buffer]. apply app_assoc. }
  rewrite getDataAtOffset_in_range by (rewrite Hc', zlen_app; lia).
  unfold d', flushed_if_full, extended. cbn [snd SimpleFileMapper.buffer].
  destruct (maxBuf <? zlen (SimpleFileMapper.buffer d ++ v)).
  - unfold SimpleFileMapper.clearBuffer.
    cbn [SimpleFileMapper.file SimpleFileMapper.buffer].
    destruct (Z.ltb_spec (SimpleFileMapper.writePos d)
                (zlen (SimpleFileMapper.file d ++ SimpleFileMapper.buffer d ++ v)))
      as [_|H]; [|rewrite !zlen_app in H; lia].
    eexists. split; [reflexivity|]. split; [discriminate|].
    cbn [SimpleFileMapper.load SimpleFileMapper.file].
    rewrite app_assoc. fold (contents d).
    rewrite slice_app_r' by lia. rewrite Hend, Z.sub_diag. apply slice_all.
  - cbn [SimpleFileMapper.file SimpleFileMapper.buffer].
    destruct (Z.ltb_spec (SimpleFileMapper.writePos d) (zlen (SimpleFileMapper.file d)))
      as [H|_]; [lia|].
    eexists. split; [reflexivity|]. split; [discriminate|].
    cbn [SimpleFileMapper.load SimpleFileMapper.buffer].
    rewrite slice_app_r' by lia.
    replace (SimpleFileMapper.writePos d - zlen (SimpleFileMapper.file d)
             - zlen (SimpleFileMapper.buffer d)) with 0 by lia.
    apply slice_all.
Qed.

Lemma fill_pointers_invalid {mode} (d : mapper mode) (offsets : list Z)
    (count i : nat) :
  (forall j, (j < count)%nat -> nth (i + j) offsets 0 = InvalidFileIndex) ->
  IndexedData.fill_pointers d offsets i count = Ret (repeat nullptr count).
Proof.
  revert i. induction count as [|count IH]; intros i H;
    cbn [IndexedData.fill_pointers repeat]; [reflexivity|].
  rewrite <- (Nat.add_0_r i) at 1. rewrite H by lia.
  rewrite mapper_getDataAtOffset_invalid. cbn [bind].
  rewrite IH; [reflexivity|].
  intros j Hj. rewrite Nat.add_succ_comm. apply H. lia.
Qed.

(** X12 ([IndexedFileMapper::write] of a builder, lines 505-508, with
    [writeNewImp], lines 421-430, and [finalize], lines 151-159).
    Appending a variable-length record never stops at the alignment
    [assert] of [writeNewImp]: [finalize()] has padded the builder to a
    multiple of [alignof(nth_element<0>)].  On a store whose cursors are
    at the end the call returns, the bytes of the builder and then the
    zero padding are appended to the data file, and the store has one
    more entry, whose stream-0 offset is the old data cursor. *)
Theorem write_variable_commits :
  forall (indexCount : nat) (alignof : nat -> Z) (maxBuf : Z) (offs0 : list Z)
         (m : IndexedFileMapper.t mio.write)
         (b : ArbitraryLengthData.ArbitraryLengthData),
    (1 <= indexCount)%nat ->
    0 < alignof 0%nat ->
    MultiStream.committed indexCount offs0 m ->
    0 < zlen (ArbitraryLengthData.rawData b) ->
    MultiStream.data_fits m (zlen (ArbitraryLengthData.rawData b) + alignof 0%nat) ->
    MultiStream.index_fits indexCount m ->
    exists m' pad,
      IndexedFileMapper.write_variable indexCount alignof maxBuf m b
      = Ret (m', ArbitraryLengthData.mk (ArbitraryLengthData.rawData b ++ pad))
      /\ Forall (eq x00) pad
      /\ zlen pad < alignof 0%nat
      /\ (zlen (ArbitraryLengthData.rawData b) + zlen pad) mod alignof 0%nat = 0
      /\ MultiStream.committed indexCount
           (offs0 ++ [SimpleFileMapper.getWriteOffset (IndexedFileMapper.dataFile m)]) m'
      /\ contents (IndexedFileMapper.dataFile m')
         = contents (IndexedFileMapper.dataFile m)
           ++ ArbitraryLengthData.rawData b ++ pad
      /\ IndexedFileMapper.size indexCount m' = IndexedFileMapper.size indexCount m + 1.
Proof.
  intros indexCount alignof maxBuf offs0 m b HN Halign Hc Hb Hdfit Hifit.
  destruct (ArbitraryLengthDataFacts.finalize_padding (alignof 0%nat) b Halign)
    as (pad & Hraw & Hzero & Hlt & Hmod).
  pose proof (zlen_nonneg pad) as Hpad.
  pose proof (zlen_nonneg (contents (IndexedFileMapper.dataFile m))) as Hcn.
  unfold MultiStream.data_fits in Hdfit.
  unfold IndexedFileMapper.write_variable.
  destruct (ArbitraryLengthData.finalize (alignof 0%nat) b) as [finalData b'] eqn:Hf.
  assert (Hfd : finalData = ArbitraryLengthData.rawData b').
  { unfold ArbitraryLengthData.finalize in Hf. injection Hf as <- <-. reflexivity. }
  cbn [snd] in Hraw.
  assert (Hb' : b' = ArbitraryLengthData.mk (ArbitraryLengthData.rawData b ++ pad))
    by (destruct b'; cbn [ArbitraryLengthData.rawData] in Hraw; congruence).
  assert (Hsize : ArbitraryLengthData.size b' = zlen finalData).
  { unfold ArbitraryLengthData.size. rewrite <- Hfd. apply i64_small.
    rewrite Hfd, Hraw, zlen_app. bounds. }
  rewrite Hsize.
  change (IndexedFileMapper.writeNewImp indexCount alignof maxBuf m finalData
            (zlen finalData))
    with (IndexedFileMapper.write indexCount alignof maxBuf m finalData).
  assert (Hlen : zlen finalData = zlen (ArbitraryLengthData.rawData b) + zlen pad)
    by (rewrite Hfd, Hraw; apply zlen_app).
  destruct (append_total indexCount alignof maxBuf HN offs0 m finalData Hc)
    as (m' & Hw & Hc' & Hdat & _).
  - unfold MultiStream.admissible, MultiStream.data_fits. rewrite Hlen.
    split; [lia|]. split; [lia | exact Hifit].
  - rewrite Hlen, u64_small by bounds. exact Hmod.
  - exists m', pad. rewrite Hw. cbn [bind]. rewrite Hb'.
    split; [reflexivity|]. do 3 (split; [assumption|]).
    split; [exact Hc'|]. split.
    + rewrite Hdat, Hfd, Hraw. reflexivity.
    + rewrite (committed_len indexCount HN _ _ Hc'), (committed_len indexCount HN _ _ Hc).
      unfold zlen. rewrite length_app. cbn [length]. lia.
Qed.

Lemma write_variable_commits_witness :
  exists m' pad,
    IndexedFileMapper.write_variable 2 (fun _ => 4) 100
      (IndexedFileMapper.open [x2a] (FileIndex.encode [0; InvalidFileIndex]))
      (ArbitraryLengthData.mk [x01; x02; x03; x04; x05])
    = Ret (m', ArbitraryLengthData.mk
                 (ArbitraryLengthData.rawData
                    (ArbitraryLengthData.mk [x01; x02; x03; x04; x05]) ++ pad))
    /\ Forall (eq x00) pad
    /\ zlen pad < 4
    /\ (zlen (ArbitraryLengthData.rawData
                (ArbitraryLengthData.mk [x01; x02; x03; x04; x05])) + zlen pad) mod 4 = 0
    /\ MultiStream.committed 2
         ([0] ++ [SimpleFileMapper.getWriteOffset
                    (IndexedFileMapper.dataFile
                       (IndexedFileMapper.open [x2a]
                          (FileIndex.encode [0; InvalidFileIndex])))]) m'
    /\ contents (IndexedFileMapper.dataFile m')
       = contents (IndexedFileMapper.dataFile
                     (IndexedFileMapper.open [x2a]
                        (FileIndex.encode [0; InvalidFileIndex])))
         ++ ArbitraryLengthData.rawData
              (ArbitraryLengthData.mk [x01; x02; x03; x04; x05]) ++ pad
    /\ IndexedFileMapper.size 2 m'
       = IndexedFileMapper.size 2
           (IndexedFileMapper.open [x2a] (FileIndex.encode [0; InvalidFileIndex])) + 1.
Proof.
  apply (write_variable_commits 2 (fun _ => 4) 100 [0]
           (IndexedFileMapper.open [x2a] (FileIndex.encode [0; InvalidFileIndex]))
           (ArbitraryLengthData.mk [x01; x02; x03; x04; x05])).
  - lia.
  - lia.
  - exact one_entry_committed.
  - reflexivity.
  - vm_compute. congruence.
  - vm_compute. congruence.
Defined.

Lemma length_decode (indexCount : nat) (bs : list byte) :
  length (FileIndex.decode indexCount bs) = indexCount.
Proof.
  revert bs. induction indexCount as [|n IH]; intros bs; cbn [FileIndex.decode length];
    [reflexivity | rewrite IH; reflexivity].
Qed.

(** X13 ([IndexedFileMapper::write<indexNum>], lines 510-513, with
    [writeUpdateImp], lines 432-441).  Attaching a record to stream
    [indexNum] of entry [addressNum], on a store whose data cursor is at
    the end: the call returns, the record is appended to the data file,
    [size()] stays, the offsets of the entry now have the old data cursor
    at [indexNum] and are as before elsewhere, and the offsets of every
    other entry are as before.  A record that is not empty is read back
    through the pointer that [getDataAtIndex<indexNum>] returns for the
    entry. *)
Theorem attach_sets_one_offset :
  forall (indexCount : nat) (alignof : nat -> Z) (maxBuf : Z)
         (dat idx : SimpleFileMapper.t) (indexNum : nat) (addressNum : Z)
         (v : list byte),
    (1 <= indexNum < indexCount)%nat ->
    zlen (contents idx) <= InvalidFileIndex ->
    (IndexedFileMapper.unitSize indexCount | zlen (SimpleFileMapper.file idx)) ->
    at_end dat ->
    zlen (contents dat) + zlen v <= InvalidFileIndex ->
    u64 (zlen v) mod alignof indexNum = 0 ->
    let m := IndexedFileMapper.mk (mode := mio.write) dat
               (FixedSizeFileMapper.mk (mode := mio.write) idx) in
    0 <= addressNum < IndexedFileMapper.size indexCount m ->
    exists m',
      IndexedFileMapper.write_at indexCount alignof maxBuf indexNum m addressNum v
      = Ret m'
      /\ IndexedFileMapper.size indexCount m' = IndexedFileMapper.size indexCount m
      /\ contents (IndexedFileMapper.dataFile m') = contents dat ++ v
      /\ (exists offs offs',
            IndexedFileMapper.getOffsets indexCount m addressNum = Ret offs
            /\ IndexedFileMapper.getOffsets indexCount m' addressNum = Ret offs'
            /\ nth indexNum offs' 0 = SimpleFileMapper.getWriteOffset dat
            /\ forall j, j <> indexNum -> nth j offs' 0 = nth j offs 0)
      /\ (forall k, 0 <= k -> k <> addressNum ->
            IndexedFileMapper.getOffsets indexCount m' k
            = IndexedFileMapper.getOffsets indexCount m k)
      /\ (0 < zlen v ->
          exists p,
            IndexedFileMapper.getDataAtIndex indexCount indexNum m' addressNum = Ret p
            /\ SimpleFileMapper.load (IndexedFileMapper.dataFile m') p (zlen v) = Ret v).
Proof.
  intros indexCount alignof maxBuf dat idx indexNum addressNum v
    Hi Himax Hdiv Hdend Hdfit Halign m Ha.
  assert (HN : (1 <= indexCount)%nat) by lia.
  pose proof (unitSize_pos indexCount HN) as HU.
  pose proof (unit_eq indexCount) as HUeq.
  set (unit := IndexedFileMapper.unitSize indexCount) in *.
  set (c := SimpleFileMapper.getWriteOffset dat).
  assert (Hd8 : zlen (FileIndex.encode_offset c) = 8)
    by (unfold zlen; rewrite FileIndexFacts.length_encode_offset; reflexivity).
  assert (Hasize : 0 <= addressNum
                   < FixedSizeFileMapper.size unit
                       (FixedSizeFileMapper.mk (mode := mio.write) idx)) by exact Ha.
  destruct (store_record_field unit idx addressNum (8 * Z.of_nat indexNum)
              (FileIndex.encode_offset c) HU Himax Hdiv Hasize)
    as (p & idx' & Hp & Hst & Hci & Hfl & Hwp);
    [lia | rewrite Hd8, HUeq; lia |].
  set (dat' := snd (flushed_if_full maxBuf (extended dat v))).
  assert (Hwd : SimpleFileMapper.write maxBuf dat v
                = Ret (fst (flushed_if_full maxBuf (extended dat v)), dat')).
  { rewrite write_at_end; [|unfold bounded; rewrite Hdend; split; [apply zlen_nonneg|lia]
                           |exact Hdend].
    subst dat'. destruct (flushed_if_full maxBuf (extended dat v)); reflexivity. }
  assert (Hcd : contents dat' = contents dat ++ v).
  { subst dat'. rewrite (proj1 (contents_flushed_if_full _ _)).
    unfold contents, extended. cbn [SimpleFileMapper.file SimpleFileMapper.buffer].
    apply app_assoc. }
  assert (Hrecin : addressNum * unit + unit <= zlen (contents idx)).
  { apply quot_bound; [lia | apply zlen_nonneg |].
    unfold FixedSizeFileMapper.size in Hasize.
    cbn [FixedSizeFileMapper.dataFile Mapper.size] in Hasize.
    rewrite size_contents in Hasize by lia. exact Hasize. }
  assert (Hplen : zlen (contents idx') = zlen (contents idx)).
  { rewrite Hci. apply zlen_patch; [nia|]. rewrite Hd8. lia. }
  set (m' := IndexedFileMapper.mk (mode := mio.write) dat'
               (FixedSizeFileMapper.mk (mode := mio.write) idx')).
  assert (Hsize : IndexedFileMapper.size indexCount m'
                  = IndexedFileMapper.size indexCount m).
  { unfold IndexedFileMapper.size, FixedSizeFileMapper.size.
    cbn [m m' IndexedFileMapper.indexFile FixedSizeFileMapper.dataFile Mapper.size].
    rewrite !size_contents by lia. rewrite Hplen. reflexivity. }
  assert (Hget : forall k, 0 <= k < IndexedFileMapper.size indexCount m ->
            exists rec rec',
              slice (contents idx) (k * unit) unit = Ret rec
              /\ slice (contents idx') (k * unit) unit = Ret rec'
              /\ IndexedFileMapper.getOffsets indexCount m k
                 = Ret (FileIndex.decode indexCount rec)
              /\ IndexedFileMapper.getOffsets indexCount m' k
                 = Ret (FileIndex.decode indexCount rec')).
  { intros k Hk.
    destruct (getOffsets_aligned indexCount HN m k Himax Hdiv Hk) as (rec & Hs & Hg).
    destruct (getOffsets_aligned indexCount HN m' k) as (rec' & Hs' & Hg').
    - cbn [m' IndexedFileMapper.indexFile FixedSizeFileMapper.dataFile]. lia.
    - cbn [m' IndexedFileMapper.indexFile FixedSizeFileMapper.dataFile].
      rewrite Hfl. exact Hdiv.
    - rewrite Hsize. exact Hk.
    - exists rec, rec'. auto. }
  assert (Hentry : exists offs offs',
            IndexedFileMapper.getOffsets indexCount m addressNum = Ret offs
            /\ IndexedFileMapper.getOffsets indexCount m' addressNum = Ret offs'
            /\ nth indexNum offs' 0 = c
            /\ forall j, j <> indexNum -> nth j offs' 0 = nth j offs 0).
  { destruct (Hget addressNum Ha) as (rec & rec' & Hs & Hs' & Hg & Hg').
    exists (FileIndex.decode indexCount rec), (FileIndex.decode indexCount rec').
    split; [exact Hg|]. split; [exact Hg'|].
    assert (Hfield : forall j, (j < indexCount)%nat ->
              slice (contents idx) (addressNum * unit + 8 * Z.of_nat j) 8
              = Ret (firstn 8 (skipn (8 * j) rec))
              /\ slice (contents idx') (addressNum * unit + 8 * Z.of_nat j) 8
                 = Ret (firstn 8 (skipn (8 * j) rec'))).
    { intros j Hj.
      rewrite (slice_sub _ _ _ (8 * Z.of_nat j) 8 rec Hs) by lia.
      rewrite (slice_sub _ _ _ (8 * Z.of_nat j) 8 rec' Hs') by lia.
      replace (Z.to_nat (8 * Z.of_nat j)) with (8 * j)%nat by lia.
      split; reflexivity. }
    split.
    + rewrite nth_decode by lia.
      destruct (Hfield indexNum) as (_ & Hf'); [lia|].
      rewrite Hci in Hf'. rewrite <- Hd8 in Hf' at 2.
      rewrite slice_patch_self in Hf' by (rewrite ?Hd8; nia).
      apply Ret_inj in Hf'. rewrite <- Hf'.
      apply FileIndexFacts.decode_encode_offset.
      unfold is_offset, c, SimpleFileMapper.getWriteOffset.
      unfold at_end in Hdend. rewrite Hdend.
      pose proof (zlen_nonneg (contents dat)). pose proof (zlen_nonneg v). bounds.
    + intros j Hne.
      destruct (Nat.lt_ge_cases j indexCount) as [Hj|Hj].
      * rewrite !nth_decode by exact Hj. f_equal.
        destruct (Hfield j Hj) as (Hf & Hf').
        apply Ret_inj. rewrite <- Hf, <- Hf', Hci.
        destruct (Nat.lt_ge_cases j indexNum) as [Hlt|Hgt].
        -- apply slice_patch_before; rewrite ?Hd8; nia.
        -- apply slice_patch_after; rewrite ?Hd8; nia.
      * rewrite !nth_overflow by (rewrite length_decode; exact Hj). reflexivity. }
  exists m'. split; [|split; [exact Hsize|split; [exact Hcd|split; [exact Hentry|split]]]].
  - unfold IndexedFileMapper.write_at, IndexedFileMapper.writeUpdateImp.
    apply Z.eqb_eq in Halign. rewrite Halign. cbn [assert bind].
    cbn [m IndexedFileMapper.dataFile IndexedFileMapper.indexFile
           FixedSizeFileMapper.dataFile].
    fold unit. fold c. rewrite Hp. cbn [bind]. rewrite Hst. cbn [bind].
    change (SimpleFileMapper.write_from maxBuf dat v 0 (zlen v))
      with (SimpleFileMapper.write maxBuf dat v).
    rewrite Hwd. reflexivity.
  - intros k Hk Hne.
    destruct (Z.lt_ge_cases k (IndexedFileMapper.size indexCount m)) as [Hin|Hout].
    + destruct (Hget k (conj Hk Hin)) as (rec & rec' & Hs & Hs' & Hg & Hg').
      rewrite Hg, Hg'. do 2 f_equal. apply Ret_inj. rewrite <- Hs, <- Hs', Hci.
      destruct (Z.lt_ge_cases k addressNum) as [Hlt|Hgt].
      * apply slice_patch_before; rewrite ?Hd8; nia.
      * apply slice_patch_after; rewrite ?Hd8; nia.
    + unfold IndexedFileMapper.getOffsets, FixedSizeFileMapper.read,
        FixedSizeFileMapper.operator_index.
      fold (IndexedFileMapper.size indexCount m').
      fold (IndexedFileMapper.size indexCount m). rewrite Hsize.
      destruct (Z.ltb_spec k (IndexedFileMapper.size indexCount m)) as [H|_]; [lia|].
      reflexivity.
  - intros Hv.
    destruct (load_appended maxBuf dat v Hdend Hdfit Hv) as (pv & Hpv & _ & Hload).
    fold dat' in Hpv, Hload.
    destruct Hentry as (offs & offs' & _ & Hg' & Hnth & _).
    exists pv. split; [|exact Hload].
    unfold IndexedFileMapper.getDataAtIndex. rewrite Hsize.
    destruct (Z.ltb_spec addressNum (IndexedFileMapper.size indexCount m)) as [_|H];
      [|lia].
    cbn [assert bind].
    rewrite (getOffset_nth indexCount m' addressNum indexNum offs' (proj2 Hi) Hg'), Hnth.
    cbn [m' IndexedFileMapper.dataFile Mapper.size Mapper.getDataAtOffset].
    rewrite size_contents by (rewrite Hcd, zlen_app; lia).
    rewrite Hcd, zlen_app.
    assert (Hcval : c = zlen (contents dat)) by exact Hdend.
    destruct (Z.ltb_spec c (zlen (contents dat) + zlen v)) as [_|H]; [|lia].
    cbn [orb assert bind]. exact Hpv.
Qed.

Lemma attach_sets_one_offset_witness :
  exists m',
    IndexedFileMapper.write_at 2 (fun _ => 1) 100 1
      (IndexedFileMapper.mk (mode := mio.write)
         (SimpleFileMapper.mk [x0a; x0b] [] 2)
         (FixedSizeFileMapper.mk (mode := mio.write)
            (SimpleFileMapper.mk (FileIndex.encode [0; InvalidFileIndex]) [] 16)))
      0 [x0c]
    = Ret m'
    /\ IndexedFileMapper.getOffsets 2 m' 0 = Ret [0; 2]
    /\ contents (IndexedFileMapper.dataFile m') = [x0a; x0b; x0c]
    /\ exists p,
         IndexedFileMapper.getDataAtIndex 2 1 m' 0 = Ret p
         /\ SimpleFileMapper.load (IndexedFileMapper.dataFile m') p (zlen [x0c])
            = Ret [x0c].
Proof.
  assert (Hi : (1 <= 1 < 2)%nat) by lia.
  assert (Himax : zlen (contents
                          (SimpleFileMapper.mk (FileIndex.encode [0; InvalidFileIndex])
                             [] 16)) <= InvalidFileIndex) by (vm_compute; congruence).
  assert (Hdiv : (IndexedFileMapper.unitSize 2
                  | zlen (SimpleFileMapper.file
                            (SimpleFileMapper.mk (FileIndex.encode [0; InvalidFileIndex])
                               [] 16)))) by (exists 1; reflexivity).
  assert (Hdend : at_end (SimpleFileMapper.mk [x0a; x0b] [] 2)) by reflexivity.
  assert (Hdfit : zlen (contents (SimpleFileMapper.mk [x0a; x0b] [] 2)) + zlen [x0c]
                  <= InvalidFileIndex) by (vm_compute; congruence).
  assert (Halign : u64 (zlen [x0c]) mod (fun _ : nat => 1) 1%nat = 0) by reflexivity.
  destruct (attach_sets_one_offset 2 (fun _ => 1) 100
              (SimpleFileMapper.mk [x0a; x0b] [] 2)
              (SimpleFileMapper.mk (FileIndex.encode [0; InvalidFileIndex]) [] 16)
              1 0 [x0c] Hi Himax Hdiv Hdend Hdfit Halign)
    as (m' & Hw & _ & Hc & _ & _ & Hread).
  - vm_compute. split; congruence.
  - exists m'. split; [exact Hw|]. split; [|split; [exact Hc|]].
    + vm_compute in Hw. apply Ret_inj in Hw. subst m'. reflexivity.
    + exact (Hread eq_refl).
Defined.

Lemma fill_pointers_nth {mode} (d : mapper mode) (offsets : list Z)
    (count i : nat) (ptrs : list ptr) :
  IndexedData.fill_pointers d offsets i count = Ret ptrs ->
  length ptrs = count
  /\ forall j, (j < count)%nat ->
       Mapper.getDataAtOffset d (nth (i + j) offsets 0) = Ret (nth j ptrs nullptr).
Proof.
  revert i ptrs. induction count as [|count IH]; intros i ptrs H;
    cbn [IndexedData.fill_pointers] in H.
  - apply Ret_inj in H. subst ptrs. split; [reflexivity | intros j Hj; lia].
  - apply bind_Ret_inv in H as (p & Hp & H).
    apply bind_Ret_inv in H as (ps & Hps & H).
    apply Ret_inj in H. subst ptrs.
    destruct (IH _ _ Hps) as (Hlen & Hnth).
    split; [cbn [length]; rewrite Hlen; reflexivity|].
    intros [|j] Hj; cbn [nth].
    + rewrite Nat.add_0_r. exact Hp.
    + rewrite <- Nat.add_succ_comm. apply Hnth. lia.
Qed.

(** An offset for which [getDataAtOffset] returns passes the [assert] of
    [getOffset]. *)
Lemma returned_offset_in_size {mode} (d : mapper mode) (o : Z) (p : ptr) :
  zlen (mapped d) + zlen (buffered d) <= InvalidFileIndex ->
  is_offset o ->
  Mapper.getDataAtOffset d o = Ret p ->
  (o <? Mapper.size d) || (o =? InvalidFileIndex) = true.
Proof.
  intros Hfit Ho Hp. unfold is_offset in Ho.
  destruct (Z.eqb_spec o InvalidFileIndex) as [->|Hne]; [apply orb_true_r|].
  rewrite orb_false_r. apply Z.ltb_lt.
  rewrite mapper_size_sum by assumption.
  destruct mode; cbn [mapper mapped buffered Mapper.getDataAtOffset] in *.
  - change (zlen (@nil byte)) with 0 in *.
    pose proof (zlen_nonneg (SimpleFileMapperBase.file d)) as Hf.
    unfold SimpleFileMapperBase.getDataAtOffset, SimpleFileMapperBase.size in Hp.
    destruct (Z.eqb_spec o InvalidFileIndex) as [H|_]; [contradiction|].
    rewrite i64_small in Hp by bounds.
    destruct (Z.ltb_spec o (zlen (SimpleFileMapperBase.file d))) as [Hlt|_];
      [lia | discriminate].
  - pose proof (zlen_nonneg (SimpleFileMapper.file d)) as Hf.
    pose proof (zlen_nonneg (SimpleFileMapper.buffer d)) as Hbf.
    unfold SimpleFileMapper.getDataAtOffset in Hp.
    apply bind_Ret_inv in Hp as (u & Ha & _). apply assert_Ret_inv in Ha.
    apply orb_true_iff in Ha as [Ha|Ha]; [|apply Z.eqb_eq in Ha; contradiction].
    apply Z.ltb_lt in Ha. rewrite (u64_small (_ + _)) in Ha by bounds.
    destruct (Z.lt_ge_cases o 0) as [Hneg|Hnn].
    + rewrite u64_neg in Ha by bounds. bounds.
    + rewrite u64_small in Ha by bounds. lia.
Qed.

(** X14 ([IndexedFileMapper::getData], lines 537-569, and [operator[]],
    lines 571-577, against [getDataAtIndex], lines 521-535).  When
    [operator[]] returns, it returns one pointer for each of the
    [sizeof...(T)] streams, and the pointer for stream [i] is the one that
    [getDataAtIndex<i>] returns for the entry; it is null exactly when the
    stored offset of the stream is [InvalidFileIndex].  [getData] for
    several streams does not go through [getOffset], whose [assert] on
    the offset is implied by the one in [getDataAtOffset]. *)
Theorem getData_agrees_with_getDataAtIndex :
  forall (mode : mio.access_mode) (indexCount : nat)
         (m : IndexedFileMapper.t mode) (index : Z) (ptrs : list ptr),
    (1 <= indexCount)%nat ->
    zlen (mapped (IndexedFileMapper.dataFile m))
    + zlen (buffered (IndexedFileMapper.dataFile m)) <= InvalidFileIndex ->
    IndexedData.operator_index indexCount m index = Ret ptrs ->
    length ptrs = indexCount
    /\ exists offs,
         IndexedFileMapper.getOffsets indexCount m index = Ret offs
         /\ forall i, (i < indexCount)%nat ->
              IndexedFileMapper.getDataAtIndex indexCount i m index
              = Ret (nth i ptrs nullptr)
              /\ (nth i ptrs nullptr = nullptr <-> nth i offs 0 = InvalidFileIndex).
Proof.
  intros mode indexCount m index ptrs HN Hfit H.
  unfold IndexedData.operator_index in H.
  destruct (Nat.ltb_spec 1 indexCount) as [Hmany|Hone].
  - unfold IndexedData.getData_many in H.
    apply bind_Ret_inv in H as (u & Ha & H). apply assert_Ret_inv in Ha.
    apply bind_Ret_inv in H as (offs & Hoffs & H).
    destruct (fill_pointers_nth _ _ _ _ _ H) as (Hlen & Hnth).
    split; [exact Hlen|]. exists offs. split; [exact Hoffs|].
    intros i Hi. specialize (Hnth i Hi). cbn [Nat.add] in Hnth.
    assert (Hio : is_offset (nth i offs 0)).
    { apply getOffsets_inv in Hoffs as (p & rec & _ & _ & _ & ->).
      rewrite nth_decode by exact Hi. apply i64_range. }
    split.
    + unfold IndexedFileMapper.getDataAtIndex. rewrite Ha. cbn [assert bind].
      rewrite (getOffset_nth indexCount m index i offs Hi Hoffs).
      rewrite (returned_offset_in_size _ _ _ Hfit Hio Hnth). cbn [assert bind].
      exact Hnth.
    + split.
      * intros Hnull. rewrite Hnull in Hnth.
        exact (mapper_getDataAtOffset_null _ _ Hnth).
      * intros Hinv. rewrite Hinv, mapper_getDataAtOffset_invalid in Hnth.
        apply Ret_inj in Hnth. symmetry. exact Hnth.
  - assert (indexCount = 1%nat) by lia. subst indexCount.
    apply bind_Ret_inv in H as (p & Hp & H). apply Ret_inj in H. subst ptrs.
    unfold IndexedData.getData_one in Hp.
    apply bind_Ret_inv in Hp as (u & Ha & Hp).
    split; [reflexivity|].
    pose proof Hp as Hp0. unfold IndexedFileMapper.getDataAtIndex in Hp0.
    apply bind_Ret_inv in Hp0 as (u' & _ & Hp0).
    apply bind_Ret_inv in Hp0 as (o & Ho & Hptr).
    pose proof Ho as Hfield. unfold IndexedFileMapper.getOffset in Hfield.
    apply bind_Ret_inv in Hfield as (q & Hq & Hfield).
    apply bind_Ret_inv in Hfield as (bytes & Hload & _).
    change (8 * Z.of_nat 0) with 0 in Hload.
    replace (ptr_add q 0) with q in Hload
      by (destruct q; cbn [ptr_add]; rewrite ?Z.add_0_r; reflexivity).
    assert (Hoffs : IndexedFileMapper.getOffsets 1 m index
                    = Ret (FileIndex.decode 1 bytes)).
    { unfold IndexedFileMapper.getOffsets, FixedSizeFileMapper.read.
      rewrite Hq. cbn [bind].
      change (IndexedFileMapper.unitSize 1) with 8. rewrite Hload. reflexivity. }
    exists (FileIndex.decode 1 bytes). split; [exact Hoffs|].
    intros i Hi. assert (i = 0%nat) by lia. subst i. cbn [nth].
    split; [exact Hp|].
    rewrite (getOffset_nth 1 m index 0 _ Hi Hoffs) in Ho.
    apply bind_Ret_inv in Ho as (u0 & _ & Ho). apply Ret_inj in Ho.
    rewrite Ho. split.
    + intros Hnull. rewrite Hnull in Hptr.
      exact (mapper_getDataAtOffset_null _ _ Hptr).
    + intros Hinv. rewrite Hinv, mapper_getDataAtOffset_invalid in Hptr.
      apply Ret_inj in Hptr. symmetry. exact Hptr.
Qed.

Lemma getData_agrees_with_getDataAtIndex_witness :
  length [in_file 0; nullptr] = 2%nat
  /\ exists offs,
       IndexedFileMapper.getOffsets 2
         (IndexedFileMapper.open [x2a] (FileIndex.encode [0; InvalidFileIndex])) 0
       = Ret offs
       /\ forall i, (i < 2)%nat ->
            IndexedFileMapper.getDataAtIndex 2 i
              (IndexedFileMapper.open [x2a] (FileIndex.encode [0; InvalidFileIndex])) 0
            = Ret (nth i [in_file 0; nullptr] nullptr)
            /\ (nth i [in_file 0; nullptr] nullptr = nullptr
                <-> nth i offs 0 = InvalidFileIndex).
Proof.
  apply (getData_agrees_with_getDataAtIndex mio.write 2
           (IndexedFileMapper.open [x2a] (FileIndex.encode [0; InvalidFileIndex])) 0
           [in_file 0; nullptr]).
  - lia.
  - vm_compute. congruence.
  - reflexivity.
Defined.

(** X15 ([IndexedFileMapper::write<indexNum>] of a builder, lines
    515-519, with [finalize], lines 151-159, and [writeUpdateImp], lines
    432-441).  Attaching a variable-length record is attaching the bytes
    of the builder followed by fewer than [alignof(nth_element<indexNum>)]
    zero bytes, and the alignment [assert] of [writeUpdateImp] holds for
    them; the builder is left holding the padded bytes. *)
Theorem write_variable_at_pads :
  forall (indexCount : nat) (alignof : nat -> Z) (maxBuf : Z) (indexNum : nat)
         (m : IndexedFileMapper.t mio.write) (addressNum : Z)
         (b : ArbitraryLengthData.ArbitraryLengthData),
    0 < alignof indexNum ->
    zlen (ArbitraryLengthData.rawData b) + alignof indexNum <= InvalidFileIndex ->
    exists pad,
      Forall (eq x00) pad
      /\ zlen pad < alignof indexNum
      /\ u64 (zlen (ArbitraryLengthData.rawData b ++ pad)) mod alignof indexNum = 0
      /\ IndexedData.write_variable_at indexCount alignof maxBuf indexNum m addressNum b
         = (m' <- IndexedFileMapper.write_at indexCount alignof maxBuf indexNum m
                    addressNum (ArbitraryLengthData.rawData b ++ pad) ;;
            Ret (m', ArbitraryLengthData.mk (ArbitraryLengthData.rawData b ++ pad))).
Proof.
  intros indexCount alignof maxBuf indexNum m addressNum b Halign Hfit.
  destruct (ArbitraryLengthDataFacts.finalize_padding (alignof indexNum) b Halign)
    as (pad & Hraw & Hzero & Hlt & Hmod).
  pose proof (zlen_nonneg pad) as Hpad.
  pose proof (zlen_nonneg (ArbitraryLengthData.rawData b)) as Hbn.
  exists pad. do 2 (split; [assumption|]). split.
  - rewrite zlen_app, u64_small by bounds. exact Hmod.
  - unfold IndexedData.write_variable_at.
    destruct (ArbitraryLengthData.finalize (alignof indexNum) b) as [finalData b'] eqn:Hf.
    assert (Hfd : finalData = ArbitraryLengthData.rawData b').
    { unfold ArbitraryLengthData.finalize in Hf. injection Hf as <- <-. reflexivity. }
    cbn [snd] in Hraw.
    assert (Hb' : b' = ArbitraryLengthData.mk (ArbitraryLengthData.rawData b ++ pad))
      by (destruct b'; cbn [ArbitraryLengthData.rawData] in Hraw; congruence).
    rewrite Hfd, Hraw, Hb'. unfold ArbitraryLengthData.size, IndexedFileMapper.write_at.
    cbn [ArbitraryLengthData.rawData].
    rewrite i64_small by (rewrite zlen_app; bounds). reflexivity.
Qed.

Lemma write_variable_at_pads_witness :
  exists pad,
    Forall (eq x00) pad
    /\ zlen pad < 4
    /\ u64 (zlen (ArbitraryLengthData.rawData
                    (ArbitraryLengthData.mk [x01; x02; x03; x04; x05]) ++ pad)) mod 4 = 0
    /\ IndexedData.write_variable_at 2 (fun _ => 4) 100 1
         (IndexedFileMapper.open [x2a] (FileIndex.encode [0; InvalidFileIndex])) 0
         (ArbitraryLengthData.mk [x01; x02; x03; x04; x05])
       = (m' <- IndexedFileMapper.write_at 2 (fun _ => 4) 100 1
                  (IndexedFileMapper.open [x2a] (FileIndex.encode [0; InvalidFileIndex]))
                  0
                  (ArbitraryLengthData.rawData
                     (ArbitraryLengthData.mk [x01; x02; x03; x04; x05]) ++ pad) ;;
          Ret (m', ArbitraryLengthData.mk
                     (ArbitraryLengthData.rawData
                        (ArbitraryLengthData.mk [x01; x02; x03; x04; x05]) ++ pad))).
Proof.
  apply (write_variable_at_pads 2 (fun _ => 4) 100 1
           (IndexedFileMapper.open [x2a] (FileIndex.encode [0; InvalidFileIndex])) 0
           (ArbitraryLengthData.mk [x01; x02; x03; x04; x05])).
  - lia.
  - vm_compute. congruence.
Defined.

(** What [write(t)] on a store with committed entries returns: the data
    file after the [write] at its end, one more entry, and the offsets of
    the new entry. *)
Lemma append_offsets (indexCount : nat) (alignof : nat -> Z) (maxBuf : Z)
    (offs0 : list Z) (m : IndexedFileMapper.t mio.write) (v : list byte) :
  (1 <= indexCount)%nat ->
  MultiStream.committed indexCount offs0 m ->
  MultiStream.admissible indexCount m (MultiStream.Append v) ->
  u64 (zlen v) mod alignof 0%nat = 0 ->
  let c := SimpleFileMapper.getWriteOffset (IndexedFileMapper.dataFile m) in
  exists m',
    IndexedFileMapper.write indexCount alignof maxBuf m v = Ret m'
    /\ IndexedFileMapper.dataFile m'
       = snd (flushed_if_full maxBuf (extended (IndexedFileMapper.dataFile m) v))
    /\ IndexedFileMapper.size indexCount m' = IndexedFileMapper.size indexCount m + 1
    /\ IndexedFileMapper.getOffsets indexCount m' (IndexedFileMapper.size indexCount m)
       = Ret (IndexedFileMapper.newFileIndex indexCount c).
Proof.
  intros HN Hc Hadm Halign c.
  pose proof (committed_len indexCount HN offs0 m Hc) as Hsize.
  destruct (append_total indexCount alignof maxBuf HN offs0 m v Hc Hadm Halign)
    as (m' & Hw & Hc' & Hcd & Hci).
  fold c in Hc', Hci.
  pose proof (committed_len indexCount HN _ m' Hc') as Hsize'.
  pose proof Hc as (Hdend & _ & Hdmax & Himax & _ & Hlen & _).
  pose proof Hc' as (_ & _ & Hdmax' & Himax' & Hdiv' & _).
  pose proof (zlen_nonneg (contents (IndexedFileMapper.dataFile m))) as Hcn.
  pose proof (zlen_nonneg offs0) as Hon.
  exists m'. split; [exact Hw|]. split; [|split].
  - destruct Hadm as (Hv & Hdfit & _). unfold MultiStream.data_fits in Hdfit.
    unfold IndexedFileMapper.write, IndexedFileMapper.writeNewImp in Hw.
    apply bind_Ret_inv in Hw as (u & _ & Hw).
    apply bind_Ret_inv in Hw as (ri & _ & Hw).
    apply bind_Ret_inv in Hw as (rd & Hrd & Hw).
    apply Ret_inj in Hw. subst m'. cbn [IndexedFileMapper.dataFile].
    change (SimpleFileMapper.write_from maxBuf (IndexedFileMapper.dataFile m) v 0 (zlen v))
      with (SimpleFileMapper.write maxBuf (IndexedFileMapper.dataFile m) v) in Hrd.
    rewrite write_at_end in Hrd.
    + apply Ret_inj in Hrd. subst rd. reflexivity.
    + unfold bounded. unfold at_end in Hdend. rewrite Hdend. lia.
    + exact Hdend.
  - rewrite Hsize', Hsize, zlen_app. reflexivity.
  - destruct (getOffsets_aligned indexCount HN m' (zlen offs0) Himax' Hdiv')
      as (rec & Hs & Hget).
    { rewrite Hsize', zlen_app. change (zlen [c]) with 1. lia. }
    rewrite Hsize, Hget. f_equal.
    rewrite Hci in Hs.
    rewrite slice_app_r' in Hs by (rewrite Hlen; lia).
    replace (zlen offs0 * IndexedFileMapper.unitSize indexCount
             - zlen (contents (FixedSizeFileMapper.dataFile
                                 (IndexedFileMapper.indexFile m))))
      with 0 in Hs by (rewrite Hlen; lia).
    rewrite <- (zlen_newFileIndex indexCount HN c) in Hs.
    rewrite slice_all in Hs. apply Ret_inj in Hs. subst rec.
    rewrite <- (length_newFileIndex indexCount HN c) at 1.
    apply FileIndexFacts.decode_encode.
    apply newFileIndex_offsets; [exact HN|].
    unfold c, SimpleFileMapper.getWriteOffset. rewrite Hdend. lia.
Qed.

(** X19 ([IndexedFileMapper::write], lines 501-503, then
    [getDataAtIndex], lines 521-535, and [operator[]], lines 571-577).
    Round trip of an entry: after [write(t)] on a store whose cursors are
    at the end, [getDataAtIndex<0>] for the new entry returns a pointer
    through which the bytes of [t] are read back, whether the record is in
    the buffer or was flushed to the mapping; for every other stream of
    the entry it returns null, and [operator[]] returns these pointers
    together. *)
Theorem append_reads_back :
  forall (indexCount : nat) (alignof : nat -> Z) (maxBuf : Z) (offs0 : list Z)
         (m : IndexedFileMapper.t mio.write) (v : list byte),
    (1 <= indexCount)%nat ->
    MultiStream.committed indexCount offs0 m ->
    MultiStream.admissible indexCount m (MultiStream.Append v) ->
    u64 (zlen v) mod alignof 0%nat = 0 ->
    exists m' p,
      IndexedFileMapper.write indexCount alignof maxBuf m v = Ret m'
      /\ IndexedFileMapper.getDataAtIndex indexCount 0 m'
           (IndexedFileMapper.size indexCount m) = Ret p
      /\ SimpleFileMapper.load (IndexedFileMapper.dataFile m') p (zlen v) = Ret v
      /\ (forall i, (1 <= i < indexCount)%nat ->
            IndexedFileMapper.getDataAtIndex indexCount i m'
              (IndexedFileMapper.size indexCount m) = Ret nullptr)
      /\ IndexedData.operator_index indexCount m' (IndexedFileMapper.size indexCount m)
         = Ret (p :: repeat nullptr (indexCount - 1)).
Proof.
  intros indexCount alignof maxBuf offs0 m v HN Hc Hadm Halign.
  destruct (append_offsets indexCount alignof maxBuf offs0 m v HN Hc Hadm Halign)
    as (m' & Hw & Hdat & Hsize & Hoffs).
  set (c := SimpleFileMapper.getWriteOffset (IndexedFileMapper.dataFile m)) in *.
  set (k := IndexedFileMapper.size indexCount m) in *.
  pose proof Hc as (Hdend & _ & Hdmax & _).
  pose proof Hadm as (Hv & Hdfit & _). unfold MultiStream.data_fits in Hdfit.
  destruct (load_appended maxBuf (IndexedFileMapper.dataFile m) v Hdend Hdfit Hv)
    as (p & Hp & Hnn & Hload).
  rewrite <- Hdat in Hp, Hload.
  change (SimpleFileMapper.writePos (IndexedFileMapper.dataFile m)) with c in Hp.
  pose proof (zlen_nonneg (contents (IndexedFileMapper.dataFile m))) as Hcn.
  assert (Hk : (k <? IndexedFileMapper.size indexCount m') = true)
    by (apply Z.ltb_lt; lia).
  assert (Hcd : zlen (contents (IndexedFileMapper.dataFile m'))
                = zlen (contents (IndexedFileMapper.dataFile m)) + zlen v).
  { rewrite Hdat, (proj1 (contents_flushed_if_full _ _)).
    unfold contents, extended. cbn [SimpleFileMapper.file SimpleFileMapper.buffer].
    rewrite !zlen_app. lia. }
  assert (Hcval : c = zlen (contents (IndexedFileMapper.dataFile m))) by exact Hdend.
  assert (Hcsize : c < SimpleFileMapper.size (IndexedFileMapper.dataFile m'))
    by (rewrite size_contents by lia; lia).
  assert (Hnth0 : nth 0 (IndexedFileMapper.newFileIndex indexCount c) 0 = c)
    by reflexivity.
  assert (Hnthi : forall i, (1 <= i < indexCount)%nat ->
            nth i (IndexedFileMapper.newFileIndex indexCount c) 0 = InvalidFileIndex).
  { intros i Hi. unfold IndexedFileMapper.newFileIndex.
    destruct i as [|i]; [lia|]. cbn [nth]. apply nth_repeat_lt. lia. }
  assert (Hget0 : IndexedFileMapper.getDataAtIndex indexCount 0 m' k = Ret p).
  { unfold IndexedFileMapper.getDataAtIndex. rewrite Hk. cbn [assert bind].
    rewrite (getOffset_nth indexCount m' k 0 _ HN Hoffs), Hnth0.
    cbn [Mapper.size]. apply Z.ltb_lt in Hcsize. rewrite Hcsize.
    cbn [orb assert bind]. exact Hp. }
  assert (Hgeti : forall i, (1 <= i < indexCount)%nat ->
            IndexedFileMapper.getDataAtIndex indexCount i m' k = Ret nullptr).
  { intros i Hi. unfold IndexedFileMapper.getDataAtIndex. rewrite Hk.
    cbn [assert bind].
    rewrite (getOffset_nth indexCount m' k i _ (proj2 Hi) Hoffs), (Hnthi i Hi).
    rewrite Z.eqb_refl, orb_true_r. cbn [assert bind].
    apply (mapper_getDataAtOffset_invalid (mode := mio.write)). }
  exists m', p. split; [exact Hw|]. split; [exact Hget0|]. split; [exact Hload|].
  split; [exact Hgeti|].
  unfold IndexedData.operator_index.
  destruct (Nat.ltb_spec 1 indexCount) as [Hmany|Hone].
  - unfold IndexedData.getData_many. rewrite Hk. cbn [assert bind].
    rewrite Hoffs. cbn [bind].
    destruct indexCount as [|n]; [lia|].
    cbn [IndexedData.fill_pointers]. rewrite Hnth0.
    change (Mapper.getDataAtOffset (IndexedFileMapper.dataFile m') c)
      with (SimpleFileMapper.getDataAtOffset (IndexedFileMapper.dataFile m') c).
    rewrite Hp. cbn [bind].
    rewrite fill_pointers_invalid.
    + cbn [bind]. replace (S n - 1)%nat with n by lia. reflexivity.
    + intros j Hj. apply Hnthi. lia.
  - assert (indexCount = 1%nat) by lia. subst indexCount.
    unfold IndexedData.getData_one. rewrite Hk. cbn [assert bind].
    rewrite Hget0. reflexivity.
Qed.

Lemma append_reads_back_witness :
  exists m' p,
    IndexedFileMapper.write 2 (fun _ => 1) 100
      (IndexedFileMapper.open [x2a] (FileIndex.encode [0; InvalidFileIndex]))
      [x2b; x2c]
    = Ret m'
    /\ IndexedFileMapper.getDataAtIndex 2 0 m'
         (IndexedFileMapper.size 2
            (IndexedFileMapper.open [x2a] (FileIndex.encode [0; InvalidFileIndex])))
       = Ret p
    /\ SimpleFileMapper.load (IndexedFileMapper.dataFile m') p (zlen [x2b; x2c])
       = Ret [x2b; x2c]
    /\ (forall i, (1 <= i < 2)%nat ->
          IndexedFileMapper.getDataAtIndex 2 i m'
            (IndexedFileMapper.size 2
               (IndexedFileMapper.open [x2a] (FileIndex.encode [0; InvalidFileIndex])))
          = Ret nullptr)
    /\ IndexedData.operator_index 2 m'
         (IndexedFileMapper.size 2
            (IndexedFileMapper.open [x2a] (FileIndex.encode [0; InvalidFileIndex])))
       = Ret (p :: repeat nullptr (2 - 1)).
Proof.
  apply (append_reads_back 2 (fun _ => 1) 100 [0]
           (IndexedFileMapper.open [x2a] (FileIndex.encode [0; InvalidFileIndex]))
           [x2b; x2c]).
  - lia.
  - exact one_entry_committed.
  - vm_compute. repeat split; congruence.
  - reflexivity.
Defined.

End StreamFacts.

(** ** [__getitem__] outside the negative range *)

Module GetitemFacts.
Import BlockchainPy.
Import BlockchainPyFacts.

(** X16 ([__getitem__] with an integer, [blockchain_py.cpp] lines 38-47).
    An index that is not negative is not remapped: below [chain.size()]
    it gives the block of that height, and from [chain.size()] on it
    raises [IndexError]; on an empty chain every such index raises. *)
Theorem getitem_nonnegative_index :
  forall (Block : Type) (chain : list Block) (i : Z),
    size Block chain < two63 ->
    0 <= i < two63 ->
    (i < size Block chain ->
       exists b, getitem Block chain i = Ret b
                 /\ nth_error chain (Z.to_nat i) = Some b)
    /\ (size Block chain <= i -> getitem Block chain i = Fail IndexError).
Proof.
  intros Block chain i Hn Hi.
  assert (Hremap : remap Block chain i = Ret i).
  { unfold remap. destruct (Z.ltb_spec i 0) as [H|_]; [lia | reflexivity]. }
  split.
  - intros Hlt. apply (getitem_in_range chain i i Hremap); lia.
  - intros Hge. unfold getitem. rewrite Hremap. cbn [bind].
    rewrite u64_small by (rewrite two63_eq in Hi; rewrite two64_eq; lia).
    destruct (Z.geb_spec i (size Block chain)) as [_|H]; [reflexivity | lia].
Qed.

Lemma getitem_nonnegative_index_witness :
  (exists b, getitem Z [10; 11; 12] 2 = Ret b
             /\ nth_error [10; 11; 12] (Z.to_nat 2) = Some b)
  /\ getitem Z [10; 11; 12] 3 = Fail IndexError.
Proof.
  assert (Hn : size Z [10; 11; 12] < two63) by reflexivity.
  split.
  - assert (Hi : 0 <= 2 < two63) by (split; [lia | reflexivity]).
    apply (proj1 (getitem_nonnegative_index Z [10; 11; 12] 2 Hn Hi)). reflexivity.
  - assert (Hi : 0 <= 3 < two63) by (split; [lia | reflexivity]).
    apply (proj2 (getitem_nonnegative_index Z [10; 11; 12] 3 Hn Hi)).
    vm_compute. congruence.
Defined.

(** X17 ([__getitem__] with an integer, [blockchain_py.cpp] lines 38-47).
    A negative index below [-chain.size()] that is not a multiple of
    [chain.size()] raises [IndexError]: the remainder of line 40 is the
    truncating one, so it is negative, and the conversion to [uint64_t]
    makes it larger than any chain.  On an empty chain a negative index
    divides by zero on line 40. *)
Theorem getitem_negative_out_of_range :
  forall (Block : Type) (chain : list Block) (i : Z),
    size Block chain < two63 ->
    - two63 <= i < 0 ->
    (size Block chain = 0 -> getitem Block chain i = Fail DivisionByZero)
    /\ (1 <= size Block chain -> i < - size Block chain ->
        Z.rem i (size Block chain) <> 0 ->
        - size Block chain < Z.rem (size Block chain + i) (size Block chain) < 0
        /\ getitem Block chain i = Fail IndexError).
Proof.
  intros Block chain i Hn Hi. unfold getitem, remap.
  destruct (Z.ltb_spec i 0) as [_|H]; [|lia].
  split.
  - intros H0. rewrite H0. reflexivity.
  - intros H1 Hlow Hrem. set (n := size Block chain) in *.
    destruct (Z.eqb_spec n 0) as [H0|_]; [lia|]. cbn [bind].
    assert (Hr : Z.rem (n + i) n = Z.rem i n).
    { replace (n + i) with (i + 1 * n) by lia. apply Z.rem_add; nia. }
    assert (Hsign : Z.rem i n <= 0) by (apply Z.rem_nonpos; lia).
    pose proof (Z.rem_bound_abs i n) as Habs.
    assert (Hrange : - n < Z.rem (n + i) n < 0) by (rewrite Hr; lia).
    split; [exact Hrange|].
    rewrite u64_neg by (rewrite two63_eq in *; rewrite two64_eq; lia).
    destruct (Z.geb_spec (Z.rem (n + i) n + two64) n) as [_|H]; [reflexivity|].
    rewrite two63_eq in *. rewrite two64_eq in *. lia.
Qed.

Lemma getitem_negative_out_of_range_witness :
  - size Z [10; 11; 12] < Z.rem (size Z [10; 11; 12] + -4) (size Z [10; 11; 12]) < 0
  /\ getitem Z [10; 11; 12] (-4) = Fail IndexError.
Proof.
  assert (Hn : size Z [10; 11; 12] < two63) by reflexivity.
  assert (Hi : - two63 <= -4 < 0) by (vm_compute; split; congruence).
  apply (proj2 (getitem_negative_out_of_range Z [10; 11; 12] (-4) Hn Hi)).
  - vm_compute. congruence.
  - reflexivity.
  - vm_compute. congruence.
Defined.

End GetitemFacts.

(** ** [RawBlock::operator==] as a relation *)

Module RawBlockRelation.
Import RawBlock.
Import RawBlockFacts.

(** X18 ([RawBlock::operator==], [raw_block.hpp] lines 33-45).
    [operator==] is an equivalence on blocks: reflexive, symmetric and
    transitive. *)
Theorem operator_eq_equivalence :
  (forall a : RawBlock, operator_eq a a = true)
  /\ (forall a b : RawBlock, operator_eq a b = operator_eq b a)
  /\ (forall a b c : RawBlock,
        operator_eq a b = true -> operator_eq b c = true -> operator_eq a c = true).
Proof.
  split; [|split].
  - intros a. apply operator_eq_agree. unfold agree. repeat split.
  - intros a b. apply Bool.eq_true_iff_eq.
    rewrite !operator_eq_agree. unfold agree.
    split; intros H;
      repeat match goal with H : _ /\ _ |- _ => destruct H end;
      repeat split; congruence.
  - intros a b c Hab Hbc. apply operator_eq_agree in Hab, Hbc.
    apply operator_eq_agree. unfold agree in *.
    repeat match goal with H : _ /\ _ |- _ => destruct H end.
    repeat split; congruence.
Qed.

End RawBlockRelation.

(** ** Rewriting an entry, and records across the end of the mapping *)

Module OverwriteFacts.
Import StoreSpec.
Import SimpleFileMapperFacts RoundTripFacts IndexedReadFacts IndexedWriteFacts.
Import ByteStoreFacts RecordFacts StreamFacts.

(** X20 ([IndexedFileMapper::seek], lines 491-494, then [write], lines
    501-503, with [writeNewImp], lines 421-430).  Rewriting an entry in
    place: after [seek(k, o)] to an entry of the mapping and a place [o]
    of the mapped data with room for the record, [write(t)] returns and
    keeps [size()]; entry [k] now has [o] as its stream-0 offset and
    [InvalidFileIndex] for every other stream, whatever was attached to
    it before; the record is read back at [o]; the offsets of every other
    entry are as before. *)
Theorem seek_write_rewrites_entry :
  forall (indexCount : nat) (alignof : nat -> Z) (maxBuf : Z)
         (dat idx : SimpleFileMapper.t) (k o : Z) (v : list byte),
    (1 <= indexCount)%nat ->
    zlen (contents idx) + IndexedFileMapper.unitSize indexCount <= InvalidFileIndex ->
    zlen (contents dat) + zlen v <= InvalidFileIndex ->
    0 <= k ->
    (k + 1) * IndexedFileMapper.unitSize indexCount <= zlen (SimpleFileMapper.file idx) ->
    0 <= o -> 0 < zlen v ->
    o + zlen v <= zlen (SimpleFileMapper.file dat) ->
    u64 (zlen v) mod alignof 0%nat = 0 ->
    let m := IndexedFileMapper.mk (mode := mio.write) dat
               (FixedSizeFileMapper.mk (mode := mio.write) idx) in
    exists m',
      IndexedFileMapper.write indexCount alignof maxBuf
        (IndexedFileMapper.seek indexCount m k o) v = Ret m'
      /\ IndexedFileMapper.size indexCount m' = IndexedFileMapper.size indexCount m
      /\ IndexedFileMapper.getOffsets indexCount m' k
         = Ret (o :: repeat InvalidFileIndex (indexCount - 1))
      /\ (forall j, 0 <= j -> j <> k ->
            IndexedFileMapper.getOffsets indexCount m' j
            = IndexedFileMapper.getOffsets indexCount m j)
      /\ IndexedFileMapper.getDataAtIndex indexCount 0 m' k = Ret (in_file o)
      /\ SimpleFileMapper.load (IndexedFileMapper.dataFile m') (in_file o) (zlen v)
         = Ret v
      /\ (forall i, (1 <= i < indexCount)%nat ->
            IndexedFileMapper.getDataAtIndex indexCount i m' k = Ret nullptr).
Proof.
  intros indexCount alignof maxBuf dat idx k o v HN Hifit Hdfit Hk Hkin Ho Hv Hoin
    Halign m.
  pose proof (unitSize_pos indexCount HN) as HU.
  set (unit := IndexedFileMapper.unitSize indexCount) in *.
  set (enc := FileIndex.encode (IndexedFileMapper.newFileIndex indexCount o)).
  assert (Henc : zlen enc = unit) by (apply zlen_newFileIndex; exact HN).
  pose proof (seek_write_patches unit maxBuf idx k enc HU Henc Hifit Hk Hkin) as Hwi.
  set (idx' := SimpleFileMapper.mk (patch (SimpleFileMapper.file idx) (k * unit) enc)
                 (SimpleFileMapper.buffer idx) (k * unit + zlen enc)) in *.
  destruct (patched_record_reads unit idx k enc (k * unit + zlen enc) HU Henc)
    as (Hisize & Hreadk & Hreadj); [lia | exact Hk | exact Hkin |].
  fold idx' in Hisize, Hreadk, Hreadj.
  pose proof (zlen_nonneg (SimpleFileMapper.buffer dat)) as Hbf.
  assert (Hc : zlen (contents dat)
               = zlen (SimpleFileMapper.file dat) + zlen (SimpleFileMapper.buffer dat))
    by (unfold contents; apply zlen_app).
  set (dat' := SimpleFileMapper.mk (patch (SimpleFileMapper.file dat) o v)
                 (SimpleFileMapper.buffer dat) (o + zlen v)).
  assert (Hwd : SimpleFileMapper.write maxBuf (SimpleFileMapper.seek dat o) v
                = Ret (false, dat')).
  { rewrite write_within_file.
    - reflexivity.
    - unfold bounded, SimpleFileMapper.seek, contents.
      cbn [SimpleFileMapper.writePos SimpleFileMapper.file SimpleFileMapper.buffer].
      fold (contents dat). lia.
    - exact Hv.
    - exact Hoin. }
  set (m' := IndexedFileMapper.mk (mode := mio.write) dat'
               (FixedSizeFileMapper.mk (mode := mio.write) idx')).
  assert (Hlen : zlen (SimpleFileMapper.file dat') = zlen (SimpleFileMapper.file dat))
    by (apply zlen_patch; lia).
  assert (Hc' : zlen (contents dat') = zlen (contents dat)).
  { unfold contents. rewrite !zlen_app, Hlen. reflexivity. }
  assert (Hsize : IndexedFileMapper.size indexCount m'
                  = IndexedFileMapper.size indexCount m) by exact Hisize.
  assert (Hkm : (k <? IndexedFileMapper.size indexCount m') = true).
  { apply Z.ltb_lt. rewrite Hsize. unfold IndexedFileMapper.size, FixedSizeFileMapper.size.
    cbn [m IndexedFileMapper.indexFile FixedSizeFileMapper.dataFile Mapper.size].
    fold unit. rewrite size_contents by lia.
    apply quot_lower; [lia | lia |].
    unfold contents. rewrite zlen_app.
    pose proof (zlen_nonneg (SimpleFileMapper.buffer idx)). lia. }
  assert (Hoffs : IndexedFileMapper.getOffsets indexCount m' k
                  = Ret (IndexedFileMapper.newFileIndex indexCount o)).
  { unfold IndexedFileMapper.getOffsets.
    cbn [m' IndexedFileMapper.indexFile]. fold unit. rewrite Hreadk. cbn [bind].
    f_equal. rewrite <- (length_newFileIndex indexCount HN o) at 1.
    apply FileIndexFacts.decode_encode.
    apply newFileIndex_offsets; [exact HN|]. lia. }
  assert (Hnthi : forall i, (1 <= i < indexCount)%nat ->
            nth i (IndexedFileMapper.newFileIndex indexCount o) 0 = InvalidFileIndex).
  { intros i Hi. unfold IndexedFileMapper.newFileIndex.
    destruct i as [|i]; [lia|]. cbn [nth]. apply nth_repeat_lt. lia. }
  exists m'. split; [|split; [exact Hsize|split; [exact Hoffs|split; [|split; [|split]]]]].
  - unfold IndexedFileMapper.write, IndexedFileMapper.writeNewImp.
    rewrite assert_true by (apply Z.eqb_eq; exact Halign). cbn [bind].
    unfold IndexedFileMapper.seek.
    cbn [m IndexedFileMapper.dataFile IndexedFileMapper.indexFile].
    change (SimpleFileMapper.getWriteOffset (SimpleFileMapper.seek dat o)) with o.
    fold unit. fold enc. rewrite Hwi. cbn [bind fst snd].
    change (SimpleFileMapper.write_from maxBuf (SimpleFileMapper.seek dat o) v 0 (zlen v))
      with (SimpleFileMapper.write maxBuf (SimpleFileMapper.seek dat o) v).
    rewrite Hwd. reflexivity.
  - intros j Hj Hne. unfold IndexedFileMapper.getOffsets.
    cbn [m m' IndexedFileMapper.indexFile]. fold unit.
    rewrite (Hreadj j Hj Hne). reflexivity.
  - unfold IndexedFileMapper.getDataAtIndex. rewrite Hkm. cbn [assert bind].
    rewrite (getOffset_nth indexCount m' k 0 _ HN Hoffs).
    cbn [nth IndexedFileMapper.newFileIndex m' IndexedFileMapper.dataFile Mapper.size
           Mapper.getDataAtOffset].
    rewrite size_contents by lia. rewrite Hc'.
    destruct (Z.ltb_spec o (zlen (contents dat))) as [_|H]; [|lia].
    cbn [orb assert bind].
    rewrite getDataAtOffset_in_range by lia. rewrite Hlen.
    destruct (Z.ltb_spec o (zlen (SimpleFileMapper.file dat))) as [_|H]; [|lia].
    reflexivity.
  - cbn [m' IndexedFileMapper.dataFile SimpleFileMapper.load dat' SimpleFileMapper.file].
    apply slice_patch_self; lia.
  - intros i Hi. unfold IndexedFileMapper.getDataAtIndex. rewrite Hkm.
    cbn [assert bind].
    rewrite (getOffset_nth indexCount m' k i _ (proj2 Hi) Hoffs), (Hnthi i Hi).
    rewrite Z.eqb_refl, orb_true_r. cbn [assert bind].
    apply (mapper_getDataAtOffset_invalid (mode := mio.write)).
Qed.

Lemma seek_write_rewrites_entry_witness :
  exists m',
    IndexedFileMapper.write 2 (fun _ => 1) 100
      (IndexedFileMapper.seek 2
         (IndexedFileMapper.mk (mode := mio.write)
            (SimpleFileMapper.mk [x0a; x0b; x0c] [] 3)
            (FixedSizeFileMapper.mk (mode := mio.write)
               (SimpleFileMapper.mk (FileIndex.encode [0; 2]) [] 16)))
         0 0)
      [x1a; x1b]
    = Ret m'
    /\ IndexedFileMapper.getOffsets 2 m' 0 = Ret (0 :: repeat InvalidFileIndex (2 - 1))
    /\ IndexedFileMapper.getOffsets 2
         (IndexedFileMapper.mk (mode := mio.write)
            (SimpleFileMapper.mk [x0a; x0b; x0c] [] 3)
            (FixedSizeFileMapper.mk (mode := mio.write)
               (SimpleFileMapper.mk (FileIndex.encode [0; 2]) [] 16))) 0
       = Ret [0; 2]
    /\ SimpleFileMapper.load (IndexedFileMapper.dataFile m') (in_file 0) (zlen [x1a; x1b])
       = Ret [x1a; x1b].
Proof.
  assert (HN : (1 <= 2)%nat) by lia.
  assert (Hifit : zlen (contents (SimpleFileMapper.mk (FileIndex.encode [0; 2]) [] 16))
                  + IndexedFileMapper.unitSize 2 <= InvalidFileIndex)
    by (vm_compute; congruence).
  assert (Hdfit : zlen (contents (SimpleFileMapper.mk [x0a; x0b; x0c] [] 3))
                  + zlen [x1a; x1b] <= InvalidFileIndex) by (vm_compute; congruence).
  assert (Hk : 0 <= 0) by lia.
  assert (Hkin : (0 + 1) * IndexedFileMapper.unitSize 2
                 <= zlen (SimpleFileMapper.file
                            (SimpleFileMapper.mk (FileIndex.encode [0; 2]) [] 16)))
    by (vm_compute; congruence).
  assert (Hv : 0 < zlen [x1a; x1b]) by reflexivity.
  assert (Hoin : 0 + zlen [x1a; x1b]
                 <= zlen (SimpleFileMapper.file (SimpleFileMapper.mk [x0a; x0b; x0c] [] 3)))
    by (vm_compute; congruence).
  assert (Halign : u64 (zlen [x1a; x1b]) mod (fun _ : nat => 1) 0%nat = 0)
    by reflexivity.
  destruct (seek_write_rewrites_entry 2 (fun _ => 1) 100
              (SimpleFileMapper.mk [x0a; x0b; x0c] [] 3)
              (SimpleFileMapper.mk (FileIndex.encode [0; 2]) [] 16)
              0 0 [x1a; x1b] HN Hifit Hdfit Hk Hkin Hk Hv Hoin Halign)
    as (m' & Hw & _ & Hoffs & _ & _ & Hload & _).
  exists m'. split; [exact Hw|]. split; [exact Hoffs|]. split; [reflexivity | exact Hload].
Defined.

(** X21 ([FixedSizeFileMapper::operator[]], lines 321-325, with
    [getDataAtOffset], lines 277-287).  A record that starts in the
    mapping and ends in the buffer cannot be read: [operator[]] returns a
    pointer into the mapping, and the [sizeof(T)] bytes of the element run
    past its end.  This is the case of a write-mode store on a file whose
    length is not a multiple of [sizeof(T)] once the buffer holds the
    rest of the record. *)
Theorem read_across_mapping_end_faults :
  forall (sizeofT : Z) (d : SimpleFileMapper.t) (k : Z),
    0 < sizeofT ->
    zlen (contents d) <= InvalidFileIndex ->
    0 <= k ->
    k * sizeofT < zlen (SimpleFileMapper.file d) < k * sizeofT + sizeofT ->
    k * sizeofT + sizeofT <= zlen (contents d) ->
    FixedSizeFileMapper.operator_index sizeofT
      (FixedSizeFileMapper.mk (mode := mio.write) d) k = Ret (in_file (k * sizeofT))
    /\ FixedSizeFileMapper.read sizeofT (FixedSizeFileMapper.mk (mode := mio.write) d) k
       = Fail OutOfBounds
    /\ slice (contents d) (k * sizeofT) sizeofT
       = Ret (firstn (Z.to_nat sizeofT) (skipn (Z.to_nat (k * sizeofT)) (contents d))).
Proof.
  intros sizeofT d k HS Hfit Hk Hcross Hin.
  assert (Hop : FixedSizeFileMapper.operator_index sizeofT
                  (FixedSizeFileMapper.mk (mode := mio.write) d) k
                = Ret (in_file (k * sizeofT))).
  { unfold FixedSizeFileMapper.operator_index, FixedSizeFileMapper.size,
      FixedSizeFileMapper.getPos.
    cbn [FixedSizeFileMapper.dataFile Mapper.size Mapper.getDataAtOffset].
    rewrite size_contents by lia.
    assert (Hlt : k < Z.quot (zlen (contents d)) sizeofT) by (apply quot_lower; lia).
    apply Z.ltb_lt in Hlt. rewrite Hlt. cbn [assert bind].
    rewrite getDataAtOffset_in_range by nia.
    destruct (Z.ltb_spec (k * sizeofT) (zlen (SimpleFileMapper.file d))) as [_|H];
      [reflexivity | lia]. }
  split; [exact Hop|]. split.
  - unfold FixedSizeFileMapper.read. rewrite Hop.
    cbn [bind FixedSizeFileMapper.dataFile Mapper.load SimpleFileMapper.load].
    apply slice_fail. lia.
  - apply slice_Ret; nia.
Qed.

Lemma read_across_mapping_end_faults_witness :
  FixedSizeFileMapper.operator_index 2
    (FixedSizeFileMapper.mk (mode := mio.write) (SimpleFileMapper.mk [x01; x02; x03] [x04] 4))
    1 = Ret (in_file (1 * 2))
  /\ FixedSizeFileMapper.read 2
       (FixedSizeFileMapper.mk (mode := mio.write) (SimpleFileMapper.mk [x01; x02; x03] [x04] 4))
       1 = Fail OutOfBounds
  /\ slice (contents (SimpleFileMapper.mk [x01; x02; x03] [x04] 4)) (1 * 2) 2
     = Ret (firstn (Z.to_nat 2)
              (skipn (Z.to_nat (1 * 2))
                 (contents (SimpleFileMapper.mk [x01; x02; x03] [x04] 4)))).
Proof.
  apply (read_across_mapping_end_faults 2 (SimpleFileMapper.mk [x01; x02; x03] [x04] 4) 1).
  - lia.
  - vm_compute. congruence.
  - lia.
  - vm_compute. split; reflexivity.
  - vm_compute. congruence.
Defined.

End OverwriteFacts.

(** ** The source bytes of a [write] *)

Module SourceFacts.
Import SimpleFileMapper StoreSpec.
Import SimpleFileMapperFacts RoundTripFacts IndexedReadFacts IndexedWriteFacts.

(** A read of the first [n] bytes of [value], or a read that runs past
    the end of [value], has the same outcome on the first [n] bytes
    alone. *)
Lemma slice_firstn_agree (value : list byte) (n off k : Z) :
  0 <= n <= zlen value ->
  off + k <= n \/ zlen value < off + k ->
  slice (firstn (Z.to_nat n) value) off k = slice value off k.
Proof.
  intros Hn Hcase. unfold slice.
  rewrite zlen_firstn by lia.
  destruct (Z.leb_spec 0 off) as [Hoff|Hoff]; [|reflexivity].
  destruct (Z.leb_spec 0 k) as [Hk|Hk]; [|reflexivity].
  cbn [andb].
  destruct Hcase as [Hin|Hout].
  - destruct (Z.leb_spec (off + k) n) as [_|H]; [|lia].
    destruct (Z.leb_spec (off + k) (zlen value)) as [_|H]; [|lia].
    f_equal. rewrite skipn_firstn_comm, firstn_firstn.
    f_equal. lia.
  - destruct (Z.leb_spec (off + k) n) as [H|_]; [lia|].
    destruct (Z.leb_spec (off + k) (zlen value)) as [H|_]; [lia|].
    reflexivity.
Qed.

Lemma memcpy_firstn (m : t) (p : ptr) (value : list byte) (n off k : Z) :
  0 <= n <= zlen value ->
  off + k <= n \/ zlen value < off + k ->
  memcpy m p (firstn (Z.to_nat n) value) off k = memcpy m p value off k.
Proof.
  intros Hn Hcase. unfold memcpy. rewrite slice_firstn_agree by assumption.
  reflexivity.
Qed.

Lemma writeSpace_range (m : t) : - two63 <= writeSpace m <= InvalidFileIndex.
Proof.
  unfold writeSpace.
  destruct (u64 (writePos m) <? zlen (file m)); [apply i64_range|].
  destruct (u64 (writePos m) <? u64 (zlen (file m) + i64 (zlen (buffer m))));
    [apply i64_range|].
  rewrite two63_eq, InvalidFileIndex_eq. lia.
Qed.

Lemma write_extend_firstn (maxBuf fileEnd : Z) (m : t) (value : list byte)
    (n off amount : Z) :
  0 <= n <= zlen value -> off + amount = n ->
  write_extend maxBuf fileEnd m (firstn (Z.to_nat n) value) off amount
  = write_extend maxBuf fileEnd m value off amount.
Proof.
  intros Hn Hsum. unfold write_extend.
  rewrite slice_firstn_agree by (try assumption; left; lia). reflexivity.
Qed.

Lemma write_buffer_firstn (maxBuf fileEnd : Z) (m : t) (value : list byte)
    (n off amount : Z) :
  0 <= n <= zlen value -> zlen value <= InvalidFileIndex ->
  0 <= off -> 0 <= amount -> off + amount = n ->
  write_buffer maxBuf fileEnd m (firstn (Z.to_nat n) value) off amount
  = write_buffer maxBuf fileEnd m value off amount.
Proof.
  intros Hn Hmax Hoff Hamount Hsum. unfold write_buffer.
  destruct ((u64 (writePos m) >=? fileEnd) && (writePos m <? i64 (zlen (buffer m))));
    [|apply write_extend_firstn; assumption].
  pose proof (writeSpace_range m) as Hws.
  set (writeAmount := Z.min amount (writeSpace m)).
  rewrite (memcpy_firstn m (getWritePos m) value n off (u64 writeAmount) Hn).
  - destruct (memcpy m (getWritePos m) value off (u64 writeAmount)) as [m1|f];
      cbn [bind]; [|reflexivity].
    destruct (amount - writeAmount =? 0); [reflexivity|].
    apply write_extend_firstn; [assumption | lia].
  - destruct (Z.lt_ge_cases writeAmount 0) as [Hneg|Hnn].
    + right. rewrite u64_neg by (subst writeAmount; bounds). subst writeAmount. bounds.
    + left. rewrite u64_small by (subst writeAmount; bounds). subst writeAmount. lia.
Qed.

(** X22 ([write(const char *valuePos, OffsetType amountToWrite)], lines
    216-251).  [write] reads [amountToWrite] bytes of the source and no
    more: called with a source of which it is to write the first [n]
    bytes, it has the outcome (the flag and the store, or the failure)
    that it has on these [n] bytes alone. *)
Theorem write_reads_amount_only :
  forall (maxBuf : Z) (m : t) (value : list byte) (n : Z),
    0 <= n <= zlen value ->
    zlen value <= InvalidFileIndex ->
    write_from maxBuf m value 0 n = write maxBuf m (firstn (Z.to_nat n) value).
Proof.
  intros maxBuf m value n Hn Hmax. unfold write, write_from.
  rewrite zlen_firstn by lia. symmetry.
  destruct (u64 (writePos m) <? zlen (file m));
    [|apply write_buffer_firstn; (assumption || lia)].
  pose proof (writeSpace_range m) as Hws.
  set (writeAmount := Z.min n (writeSpace m)).
  destruct (Z.ltb_spec 0 writeAmount) as [Hpos|Hno]; [|reflexivity].
  cbn [assert bind].
  rewrite (memcpy_firstn m (getWritePos m) value n 0 (u64 writeAmount) Hn)
    by (left; rewrite u64_small by (subst writeAmount; bounds); subst writeAmount; lia).
  destruct (memcpy m (getWritePos m) value 0 (u64 writeAmount)) as [m1|f];
    cbn [bind]; [|reflexivity].
  destruct (n - writeAmount =? 0); [reflexivity|].
  apply write_buffer_firstn; (assumption || (subst writeAmount; lia)).
Qed.

Lemma write_reads_amount_only_witness :
  write_from 100 (mk [x07] [] 1) [x01; x02; x03] 0 2
  = write 100 (mk [x07] [] 1) (firstn (Z.to_nat 2) [x01; x02; x03]).
Proof.
  apply (write_reads_amount_only 100 (mk [x07] [] 1) [x01; x02; x03] 2).
  - vm_compute. split; congruence.
  - vm_compute. congruence.
Defined.

End SourceFacts.

(** ** Appending an entry *)

Module AppendFacts.
Import StoreSpec.
Import SimpleFileMapperFacts RoundTripFacts IndexedReadFacts IndexedWriteFacts.
Import ByteStoreFacts RecordFacts StreamFacts.

(** A [write] at the end, in terms of the contents. *)
Lemma write_at_end_flushed (maxBuf : Z) (d : SimpleFileMapper.t) (v : list byte) :
  at_end d -> zlen (contents d) + zlen v <= InvalidFileIndex ->
  let d' := snd (flushed_if_full maxBuf (extended d v)) in
  SimpleFileMapper.write maxBuf d v
  = Ret (fst (flushed_if_full maxBuf (extended d v)), d')
  /\ contents d' = contents d ++ v
  /\ at_end d'.
Proof.
  intros Hend Hfit d'.
  pose proof (zlen_nonneg (contents d)) as Hcn. pose proof (zlen_nonneg v) as Hvn.
  assert (Hc : contents d' = contents d ++ v).
  { subst d'. rewrite (proj1 (contents_flushed_if_full _ _)).
    unfold contents, extended. cbn [SimpleFileMapper.file SimpleFileMapper.buffer].
    apply app_assoc. }
  split; [|split; [exact Hc|]].
  - rewrite write_at_end;
      [|unfold bounded; unfold at_end in Hend; rewrite Hend; lia | exact Hend].
    subst d'. destruct (flushed_if_full maxBuf (extended d v)); reflexivity.
  - unfold at_end in *. rewrite Hc, zlen_app. subst d'.
    rewrite (proj2 (contents_flushed_if_full _ _)).
    unfold extended. cbn [SimpleFileMapper.writePos]. lia.
Qed.

(** [write(t)] on a store whose cursors are at the end and whose index
    store holds whole records. *)
Lemma append_at_end (indexCount : nat) (alignof : nat -> Z) (maxBuf : Z)
    (m : IndexedFileMapper.t mio.write) (v : list byte) :
  (1 <= indexCount)%nat ->
  let dat := IndexedFileMapper.dataFile m in
  let idx := FixedSizeFileMapper.dataFile (IndexedFileMapper.indexFile m) in
  let c := SimpleFileMapper.getWriteOffset dat in
  at_end dat -> at_end idx ->
  (IndexedFileMapper.unitSize indexCount | zlen (contents idx)) ->
  MultiStream.admissible indexCount m (MultiStream.Append v) ->
  u64 (zlen v) mod alignof 0%nat = 0 ->
  exists m',
    IndexedFileMapper.write indexCount alignof maxBuf m v = Ret m'
    /\ IndexedFileMapper.size indexCount m' = IndexedFileMapper.size indexCount m + 1
    /\ IndexedFileMapper.getOffsets indexCount m' (IndexedFileMapper.size indexCount m)
       = Ret (IndexedFileMapper.newFileIndex indexCount c)
    /\ c < SimpleFileMapper.size (IndexedFileMapper.dataFile m')
    /\ contents (IndexedFileMapper.dataFile m') = contents dat ++ v
    /\ contents (FixedSizeFileMapper.dataFile (IndexedFileMapper.indexFile m'))
       = contents idx ++ FileIndex.encode (IndexedFileMapper.newFileIndex indexCount c)
    /\ at_end (IndexedFileMapper.dataFile m')
    /\ at_end (FixedSizeFileMapper.dataFile (IndexedFileMapper.indexFile m')).
Proof.
  intros HN dat idx c Hdend Hiend Hdiv (Hv & Hdfit & Hifit) Halign.
  destruct m as [dat0 [idx0]].
  cbn [IndexedFileMapper.dataFile IndexedFileMapper.indexFile
         FixedSizeFileMapper.dataFile] in dat, idx.
  subst dat idx. rename dat0 into dat. rename idx0 into idx.
  unfold MultiStream.data_fits, MultiStream.index_fits in *.
  cbn [IndexedFileMapper.dataFile IndexedFileMapper.indexFile
         FixedSizeFileMapper.dataFile] in *.
  pose proof (unitSize_pos indexCount HN) as HU.
  set (unit := IndexedFileMapper.unitSize indexCount) in *.
  set (enc := FileIndex.encode (IndexedFileMapper.newFileIndex indexCount c)).
  assert (Henc : zlen enc = unit) by (apply zlen_newFileIndex; exact HN).
  pose proof (zlen_nonneg (contents dat)) as Hdn.
  pose proof (zlen_nonneg (contents idx)) as Hin.
  assert (Hcval : c = zlen (contents dat)) by exact Hdend.
  destruct (write_at_end_flushed maxBuf idx enc Hiend) as (Hwi & Hci & Hiend');
    [rewrite Henc; exact Hifit|].
  destruct (write_at_end_flushed maxBuf dat v Hdend Hdfit) as (Hwd & Hcd & Hdend').
  set (idx' := snd (flushed_if_full maxBuf (extended idx enc))) in *.
  set (dat' := snd (flushed_if_full maxBuf (extended dat v))) in *.
  set (m := IndexedFileMapper.mk (mode := mio.write) dat
              (FixedSizeFileMapper.mk (mode := mio.write) idx)).
  set (m' := IndexedFileMapper.mk (mode := mio.write) dat'
               (FixedSizeFileMapper.mk (mode := mio.write) idx')).
  destruct Hdiv as (q & Hq).
  assert (Hq0 : 0 <= q) by nia.
  assert (Hsize : IndexedFileMapper.size indexCount m = q).
  { unfold IndexedFileMapper.size, FixedSizeFileMapper.size.
    cbn [m IndexedFileMapper.indexFile FixedSizeFileMapper.dataFile Mapper.size].
    fold unit. rewrite size_contents by lia. rewrite Hq. apply Z.quot_mul. lia. }
  assert (Hsize' : IndexedFileMapper.size indexCount m' = q + 1).
  { unfold IndexedFileMapper.size, FixedSizeFileMapper.size.
    cbn [m' IndexedFileMapper.indexFile FixedSizeFileMapper.dataFile Mapper.size].
    fold unit. rewrite size_contents by (rewrite Hci, zlen_app, Henc; lia).
    rewrite Hci, zlen_app, Henc, Hq.
    replace (q * unit + unit) with ((q + 1) * unit) by lia.
    apply Z.quot_mul. lia. }
  exists m'. split; [|split; [|split; [|split; [|split; [|split; [|split]]]]]].
  - unfold IndexedFileMapper.write, IndexedFileMapper.writeNewImp.
    rewrite assert_true by (apply Z.eqb_eq; exact Halign). cbn [bind].
    unfold FixedSizeFileMapper.write.
    cbn [m IndexedFileMapper.dataFile IndexedFileMapper.indexFile
           FixedSizeFileMapper.dataFile].
    fold c. fold enc. rewrite Hwi. cbn [bind fst snd].
    change (SimpleFileMapper.write_from maxBuf dat v 0 (zlen v))
      with (SimpleFileMapper.write maxBuf dat v).
    rewrite Hwd. reflexivity.
  - rewrite Hsize', Hsize. reflexivity.
  - assert (Hunit : 0 < zlen enc) by lia.
    destruct (load_appended maxBuf idx enc Hiend) as (p & Hp & _ & Hload);
      [rewrite Henc; exact Hifit | exact Hunit |].
    fold idx' in Hp, Hload.
    unfold IndexedFileMapper.getOffsets, FixedSizeFileMapper.read,
      FixedSizeFileMapper.operator_index.
    fold (IndexedFileMapper.size indexCount m'). rewrite Hsize', Hsize.
    destruct (Z.ltb_spec q (q + 1)) as [_|H]; [|lia].
    cbn [assert bind m' IndexedFileMapper.indexFile FixedSizeFileMapper.dataFile
           Mapper.getDataAtOffset Mapper.load].
    unfold FixedSizeFileMapper.getPos. fold unit.
    replace (q * unit) with (SimpleFileMapper.writePos idx)
      by (unfold at_end in Hiend; rewrite Hiend, Hq; reflexivity).
    rewrite Hp. cbn [bind]. rewrite <- Henc, Hload. cbn [bind].
    f_equal. unfold enc.
    rewrite <- (length_newFileIndex indexCount HN c) at 1.
    apply FileIndexFacts.decode_encode.
    apply newFileIndex_offsets; [exact HN|]. lia.
  - cbn [m' IndexedFileMapper.dataFile].
    rewrite size_contents by (rewrite Hcd, zlen_app; lia).
    rewrite Hcd, zlen_app. lia.
  - exact Hcd.
  - exact Hci.
  - exact Hdend'.
  - exact Hiend'.
Qed.

(** C5, as the code has it.  First, [write(t)] of a non-empty, aligned
    record on any store whose two write cursors are at the end of their
    files and whose index store holds whole records: it returns, writes
    [t] at the data cursor [c], appends [(c, Invalid, ..., Invalid)] to
    the index store and leaves both cursors at the end; [len()] is one
    more, and the new entry has these offsets, with [c < dataFile.size()].
    Second, the stores reached, by appends, attachments, truncations,
    flushes, reloads and [seekEnd] (not [seek]), from a store that the
    constructor has opened on a data file and an index file of whole
    records whose stream-0 offsets increase strictly and lie inside the
    data file: they are stores of the first kind, every entry
    [k < len()] of theirs can be read and has its stream-0 offset in
    [[0, dataFile.size())], and an append leads to such a store again. *)
Theorem append_commits_entry :
  forall (indexCount : nat) (alignof : nat -> Z) (maxBuf : Z)
         (m : IndexedFileMapper.t mio.write),
    (1 <= indexCount)%nat ->
    let dat := IndexedFileMapper.dataFile m in
    let idx := FixedSizeFileMapper.dataFile (IndexedFileMapper.indexFile m) in
    (forall v,
        at_end dat -> at_end idx ->
        (IndexedFileMapper.unitSize indexCount | zlen (contents idx)) ->
        MultiStream.admissible indexCount m (MultiStream.Append v) ->
        u64 (zlen v) mod alignof 0%nat = 0 ->
        let c := SimpleFileMapper.getWriteOffset dat in
        exists m',
          IndexedFileMapper.write indexCount alignof maxBuf m v = Ret m'
          /\ IndexedFileMapper.size indexCount m'
             = IndexedFileMapper.size indexCount m + 1
          /\ IndexedFileMapper.getOffsets indexCount m'
               (IndexedFileMapper.size indexCount m)
             = Ret (IndexedFileMapper.newFileIndex indexCount c)
          /\ c < SimpleFileMapper.size (IndexedFileMapper.dataFile m')
          /\ contents (IndexedFileMapper.dataFile m') = contents dat ++ v
          /\ contents (FixedSizeFileMapper.dataFile (IndexedFileMapper.indexFile m'))
             = contents idx
               ++ FileIndex.encode (IndexedFileMapper.newFileIndex indexCount c)
          /\ at_end (IndexedFileMapper.dataFile m')
          /\ at_end (FixedSizeFileMapper.dataFile (IndexedFileMapper.indexFile m')))
    /\ (MultiStream.reachable indexCount alignof maxBuf m ->
        at_end dat /\ at_end idx
        /\ (IndexedFileMapper.unitSize indexCount | zlen (contents idx))
        /\ (forall k, 0 <= k < IndexedFileMapper.size indexCount m ->
              exists offs,
                IndexedFileMapper.getOffsets indexCount m k = Ret offs
                /\ 0 <= nth 0 offs 0 < SimpleFileMapper.size dat)
        /\ (forall v m',
              MultiStream.admissible indexCount m (MultiStream.Append v) ->
              IndexedFileMapper.write indexCount alignof maxBuf m v = Ret m' ->
              MultiStream.reachable indexCount alignof maxBuf m')).
Proof.
  intros indexCount alignof maxBuf m HN dat idx. split.
  - intros v Hdend Hiend Hdiv Hadm Halign c.
    exact (append_at_end indexCount alignof maxBuf m v HN Hdend Hiend Hdiv Hadm Halign).
  - intros Hreach.
    destruct (reachable_committed indexCount alignof maxBuf HN m Hreach) as (offs0 & Hc).
    pose proof (committed_len indexCount HN offs0 m Hc) as Hsize.
    pose proof Hc as (Hdend & Hiend & Hdmax & _ & _ & Hlen & _ & _ & Hrange).
    split; [exact Hdend|]. split; [exact Hiend|]. split; [|split].
    + exists (zlen offs0). subst idx. rewrite Hlen. apply Z.mul_comm.
    + intros k Hk. rewrite Hsize in Hk.
      assert (Hkn : (Z.to_nat k < length offs0)%nat) by (unfold zlen in Hk; lia).
      destruct (committed_getOffsets indexCount HN offs0 m (Z.to_nat k) Hc Hkn)
        as (offs & Hget & Ho).
      rewrite Z2Nat.id in Hget by lia.
      exists offs. split; [exact Hget|]. rewrite Ho.
      subst dat. rewrite size_contents by exact Hdmax. apply Hrange. exact Hkn.
    + intros v m' Hadm Hw.
      exact (MultiStream.reach_step indexCount alignof maxBuf m m'
               (MultiStream.Append v) Hreach Hadm Hw).
Qed.

(** A store with two streams opened on one committed entry (one data
    byte at offset 0, stream 1 absent): the append of two bytes commits
    entry 1 at offset 1, and entry 0 has its stream-0 offset inside the
    data file. *)
Lemma append_commits_entry_witness :
  (exists m',
     IndexedFileMapper.write 2 (fun _ => 1) 100
       (IndexedFileMapper.open [x2a] (FileIndex.encode [0; InvalidFileIndex]))
       [x2b; x2c]
     = Ret m'
     /\ IndexedFileMapper.size 2 m' = 1 + 1
     /\ IndexedFileMapper.getOffsets 2 m' 1 = Ret [1; InvalidFileIndex]
     /\ 1 < SimpleFileMapper.size (IndexedFileMapper.dataFile m')
     /\ contents (IndexedFileMapper.dataFile m') = [x2a; x2b; x2c])
  /\ exists offs,
       IndexedFileMapper.getOffsets 2
         (IndexedFileMapper.open [x2a] (FileIndex.encode [0; InvalidFileIndex])) 0
       = Ret offs
       /\ 0 <= nth 0 offs 0
          < SimpleFileMapper.size
              (IndexedFileMapper.dataFile
                 (IndexedFileMapper.open [x2a] (FileIndex.encode [0; InvalidFileIndex]))).
Proof.
  assert (HN : (1 <= 2)%nat) by lia.
  destruct (append_commits_entry 2 (fun _ => 1) 100
              (IndexedFileMapper.open [x2a] (FileIndex.encode [0; InvalidFileIndex])) HN)
    as (Happend & Hreached).
  split.
  - destruct (Happend [x2b; x2c]) as (m' & Hw & Hlen & Hget & Hc & Hcd & _).
    + reflexivity.
    + reflexivity.
    + exists 1. reflexivity.
    + vm_compute. repeat split; congruence.
    + reflexivity.
    + exists m'. repeat split; assumption.
  - assert (Hreach : MultiStream.reachable 2 (fun _ => 1) 100
                       (IndexedFileMapper.open [x2a]
                          (FileIndex.encode [0; InvalidFileIndex]))).
    { apply (MultiStream.reach_open 2 (fun _ => 1) 100 [x2a]
               (FileIndex.encode [0; InvalidFileIndex]) [0]).
      - reflexivity.
      - exact one_entry_committed. }
    destruct (Hreached Hreach) as (_ & _ & _ & Hinv & _).
    apply Hinv. vm_compute. split; congruence.
Defined.

End AppendFacts.
